(** * Component registry of the UUF template application ([lib/utils.js])

    A shallow embedding of the registry code of [lib/utils.js]: definition
    merging ([extend]), the component comparator, discovery and inheritance
    chaining ([getUiComponentsData]), the lookup-table build
    ([utils.getLookupTable]) with its application cache, the furthest-child
    search and the per-component file lookup; and of the configuration caches
    ([utils.getConfigurations], [utils.getAppConfigurations]) and the current
    user of the session.

    Modelling conventions.
    - A JavaScript value read from a definition document is a [value].  An
      array is an object of class [ClsArray] whose properties are its index
      keys, as in the language itself; [VArr] builds one from a list.
    - Numbers are the integers the host holds exactly, those of magnitude up
      to 2^53, held in [Z]; fractions, [NaN], and the larger magnitudes (which
      the host rounds to the nearest double and, from 10^21 on, prints with an
      exponent) are not modelled: a statement about a number says so where it
      depends on it.
    - Property names are ordinary names.  The members a plain object inherits
      from [Object.prototype] are the host's, a parameter ([inherited]); they
      are modelled where the code only tests what a lookup finds (the layout
      of a page).  Where the code goes on to use what it finds (a parent, a
      list of pushed divs, the page of a URI) such a name makes it throw, and
      there the model keeps to the names the registry has put in itself.  The
      [length] of an array is not modelled as a property.  The script is not
      in strict mode, so an assignment to a property of a primitive is a no-op.
    - Definitions are values.  [extend] makes the child refer to the very
      array of the parent; nothing the code does afterwards tells a shared
      array from a copy, short of an ancestor that holds an object with
      numeric keys under the same field.
    - Component objects live in a store ([list UIComponent]) and are referred
      to by their position in it, which is also the order of their creation;
      [parents] and [children] hold references, so that the mutual links of
      parents and children are links between entries of one store.
    - A function that may throw returns an [outcome]; what is thrown is an
      [error] that keeps the data of the message.  The one loop that need not
      end, the walk up the [extends] chain, takes fuel, and [Diverge] is the
      outcome when it runs out.
    - The host (Jaggery) supplies [File], [require],
      [String.prototype.localeCompare] and [Array.prototype.sort];
      [constants.js] and [models.js] are not part of the sources.  All of
      these are parameters of the development; [Example] instantiates them to
      run the code on concrete registries. *)

From Stdlib Require Import ZArith Lia Ascii String DecimalString DecimalPos Sorted.
From stdpp Require Import base option list strings gmap.

Set Warnings "-register-all".

Open Scope Z_scope.

(** ** JavaScript values *)

Inductive objclass := ClsObject | ClsArray.

Inductive value :=
| VUndefined
| VNull
| VBool (b : bool)
| VNum (n : Z)
| VStr (s : string)
| VObj (cls : objclass) (props : list (string * value)).

Inductive jstype := TUndefined | TObject | TBoolean | TNumber | TString.

Definition typeof (v : value) : jstype :=
  match v with
  | VUndefined => TUndefined
  | VNull => TObject
  | VBool _ => TBoolean
  | VNum _ => TNumber
  | VStr _ => TString
  | VObj _ _ => TObject
  end.

Definition jstype_eqb (a b : jstype) : bool :=
  match a, b with
  | TUndefined, TUndefined | TObject, TObject | TBoolean, TBoolean
  | TNumber, TNumber | TString, TString => true
  | _, _ => false
  end.

(** [Array.isArray]. *)
Definition isArray (v : value) : bool :=
  match v with VObj ClsArray _ => true | _ => false end.

(** [ToBoolean]: the test made by [if (v)], [!v], [v || w]. *)
Definition truthy (v : value) : bool :=
  match v with
  | VUndefined | VNull => false
  | VBool b => b
  | VNum n => negb (n =? 0)
  | VStr s => negb (String.eqb s "")
  | VObj _ _ => true
  end.

(** [v == null]: true of [null] and [undefined] only. *)
Definition is_nullish (v : value) : bool :=
  match v with VUndefined | VNull => true | _ => false end.

Definition nat_to_string (n : nat) : string :=
  NilZero.string_of_uint (Nat.to_uint n).

Definition Z_to_string (z : Z) : string :=
  NilZero.string_of_int (Z.to_int z).

(** *** Properties *)

Fixpoint assoc_get {A} (ps : list (string * A)) (k : string) : option A :=
  match ps with
  | [] => None
  | (k', v) :: ps' => if String.eqb k' k then Some v else assoc_get ps' k
  end.

(** Assignment [o[k] = v]: an existing property keeps its place, a new one
    is added last. *)
Fixpoint assoc_set {A} (ps : list (string * A)) (k : string) (v : A)
  : list (string * A) :=
  match ps with
  | [] => [(k, v)]
  | (k', v') :: ps' =>
      if String.eqb k' k then (k, v) :: ps' else (k', v') :: assoc_set ps' k v
  end.

(** [o[k]] for a value that is neither [null] nor [undefined]. *)
Definition get_prop (o : value) (k : string) : value :=
  match o with
  | VObj _ ps => default VUndefined (assoc_get ps k)
  | _ => VUndefined
  end.

Definition hasOwnProperty (o : value) (k : string) : bool :=
  match o with
  | VObj _ ps => bool_decide (is_Some (assoc_get ps k))
  | _ => false
  end.

(** [o[k] = v]; on a primitive the assignment is dropped. *)
Definition set_prop (o : value) (k : string) (v : value) : value :=
  match o with
  | VObj c ps => VObj c (assoc_set ps k v)
  | _ => o
  end.

Fixpoint index_props_from (i : nat) (l : list value) : list (string * value) :=
  match l with
  | [] => []
  | v :: l' => (nat_to_string i, v) :: index_props_from (S i) l'
  end.

(** The array literal [[v0, v1, ...]]. *)
Definition VArr (l : list value) : value :=
  VObj ClsArray (index_props_from 0 l).

(** The object literal [{k0: v0, ...}]. *)
Definition VRec (ps : list (string * value)) : value := VObj ClsObject ps.

(** An array index written canonically. *)
Definition array_index (k : string) : option nat :=
  match NilZero.uint_of_string k with
  | Some u =>
      let n := Nat.of_uint u in
      if String.eqb (nat_to_string n) k then Some n else None
  | None => None
  end.

(** [a.length] of an array, one more than its greatest index. *)
Fixpoint array_length (ps : list (string * value)) : nat :=
  match ps with
  | [] => 0%nat
  | (k, _) :: ps' =>
      match array_index k with
      | Some i => Nat.max (S i) (array_length ps')
      | None => array_length ps'
      end
  end.

Definition js_length (v : value) : nat :=
  match v with
  | VObj ClsArray ps => array_length ps
  | _ => 0%nat
  end.

(** The elements [a[0]], ..., [a[a.length - 1]]. *)
Definition elements (v : value) : list value :=
  map (fun i => get_prop v (nat_to_string i)) (seq 0 (js_length v)).

Fixpoint join_with (sep : string) (l : list string) : string :=
  match l with
  | [] => ""
  | [s] => s
  | s :: l' => s +:+ sep +:+ join_with sep l'
  end.

(** [ToString], which also turns a value into a property key: an array is
    joined with commas, [null] and [undefined] elements printing as empty. *)
Fixpoint to_string (v : value) : string :=
  match v with
  | VUndefined => "undefined"
  | VNull => "null"
  | VBool true => "true"
  | VBool false => "false"
  | VNum n => Z_to_string n
  | VStr s => s
  | VObj ClsObject _ => "[object Object]"
  | VObj ClsArray ps =>
      let printed :=
        (fix go (ps : list (string * value)) : list (string * string) :=
           match ps with
           | [] => []
           | (k, e) :: ps' =>
               (k, if is_nullish e then "" else to_string e) :: go ps'
           end) ps in
      join_with ","
        (map (fun i => default "" (assoc_get printed (nat_to_string i)))
             (seq 0 (array_length ps)))
  end.

(** ** [extend]: merging a child definition with a parent definition *)

(** The properties a [for ... in] loop over [parent] visits and that pass the
    [hasOwnProperty] test, for a primitive string its characters. *)
Fixpoint string_index_props (i : nat) (s : string) : list (string * string) :=
  match s with
  | EmptyString => []
  | String c s' =>
      (nat_to_string i, String c EmptyString) :: string_index_props (S i) s'
  end.

(** One pass of the loop body of [extend] for a property whose value is
    neither an array nor an object. *)
Definition extend_scalar (child : value) (k : string) (v : value) : value :=
  if negb (hasOwnProperty child k) then set_prop child k v else child.

Fixpoint extend (child parent : value) {struct parent} : value :=
  let child := if truthy child then child else VRec [] in
  match parent with
  | VObj _ props =>
      (fix loop (ps : list (string * value)) (child : value) : value :=
         match ps with
         | [] => child
         | (propertyName, propertyValue) :: ps' =>
             loop ps'
               (if isArray propertyValue then
                  set_prop child propertyName propertyValue
                else if jstype_eqb (typeof propertyValue) TObject then
                  set_prop child propertyName
                    (extend (get_prop child propertyName) propertyValue)
                else extend_scalar child propertyName propertyValue)
         end) props child
  | VStr s =>
      fold_left (fun c '(k, ch) => extend_scalar c k (VStr ch))
                (string_index_props 0 s) child
  | _ => child
  end.

(** ** [utils.parseBoolean] *)

Definition lower_ascii (c : ascii) : ascii :=
  let n := nat_of_ascii c in
  if (65 <=? n)%nat && (n <=? 90)%nat then ascii_of_nat (n + 32) else c.

(** [toLowerCase]; only the letters A-Z are mapped, which is all that can
    matter for a comparison with an ASCII word. *)
Fixpoint toLowerCase (s : string) : string :=
  match s with
  | EmptyString => EmptyString
  | String c s' => String (lower_ascii c) (toLowerCase s')
  end.

Definition parseBoolean (obj defaultValue : value) : value :=
  match typeof obj, obj with
  | TBoolean, _ => obj
  | TNumber, VNum n => VBool (0 <? n)
  | TString, VStr s =>
      let objLowerCased := toLowerCase s in
      VBool (String.eqb objLowerCased "true" || String.eqb objLowerCased "yes")
  | _, _ =>
      if is_nullish obj
      then (if is_nullish defaultValue then VBool false else defaultValue)
      else VBool true
  end.

(** ** Strings *)

Fixpoint lastIndexOf_from (i : Z) (c : ascii) (s : string) (found : Z) : Z :=
  match s with
  | EmptyString => found
  | String d s' =>
      lastIndexOf_from (i + 1) c s' (if Ascii.eqb d c then i else found)
  end.

(** [s.lastIndexOf(c)] for a one-character needle; [-1] when absent. *)
Definition lastIndexOf (s : string) (c : ascii) : Z :=
  lastIndexOf_from 0 c s (-1).

Fixpoint string_drop (n : nat) (s : string) : string :=
  match n, s with
  | O, _ => s
  | S n', String _ s' => string_drop n' s'
  | S _, EmptyString => EmptyString
  end.

(** [s.substr(start)] and [s.substr(start, len)] for [start >= 0]; a
    negative [len] gives the empty string. *)
Definition substr_from (s : string) (start : Z) : string :=
  string_drop (Z.to_nat start) s.

Definition substr (s : string) (start len : Z) : string :=
  String.substring (Z.to_nat start) (Z.to_nat len) s.

(** *** [parseInt] *)

Definition is_whitespace (c : ascii) : bool :=
  let n := nat_of_ascii c in
  ((n =? 32) || ((9 <=? n) && (n <=? 13)))%nat.

Fixpoint skip_whitespace (s : string) : string :=
  match s with
  | String c s' => if is_whitespace c then skip_whitespace s' else s
  | EmptyString => s
  end.

Definition digit_value (radix : Z) (c : ascii) : option Z :=
  let n := Z.of_nat (nat_of_ascii c) in
  let d :=
    if (48 <=? n) && (n <=? 57) then Some (n - 48)
    else if (97 <=? n) && (n <=? 122) then Some (n - 87)
    else if (65 <=? n) && (n <=? 90) then Some (n - 55)
    else None in
  match d with
  | Some d => if d <? radix then Some d else None
  | None => None
  end.

(** The longest prefix of digits; [None] when there is none. *)
Fixpoint parse_digits (radix : Z) (s : string) (acc : option Z) : option Z :=
  match s with
  | String c s' =>
      match digit_value radix c with
      | Some d => parse_digits radix s' (Some (default 0 acc * radix + d))
      | None => acc
      end
  | EmptyString => acc
  end.

(** [parseInt(v)] with no radix: [None] stands for [NaN].  The integer the
    digits denote is returned as it is: it is the host's result as long as
    its magnitude is at most 2^53, beyond which the host rounds it to the
    nearest double. *)
Definition parseInt (v : value) : option Z :=
  let s := skip_whitespace (to_string v) in
  let '(negative, s) :=
    match s with
    | String "-" s' => (true, s')
    | String "+" s' => (false, s')
    | _ => (false, s)
    end in
  let '(radix, s) :=
    match s with
    | String "0" (String "x" s') | String "0" (String "X" s') => (16, s')
    | _ => (10, s)
    end in
  match parse_digits radix s None with
  | Some n => Some (if negative : bool then - n else n)
  | None => None
  end.

(** ** Outcomes of a computation that may throw or loop *)

Inductive error :=
| HostError (what : string)
| InvalidName (componentType fullName : string)
| MissingDefinition (componentType fullName : string)
| MissingParent (componentType parentName : string)
| InvalidDefinition (fullName why : string)
| UriCollision (page uri registered : string).

Inductive outcome (A : Type) :=
| Ret (a : A)
| Throw (e : error)
| Diverge.
Arguments Ret {A} a.
Arguments Throw {A} e.
Arguments Diverge {A}.

Definition obind {A B} (f : A → outcome B) (m : outcome A) : outcome B :=
  match m with
  | Ret a => f a
  | Throw e => Throw e
  | Diverge => Diverge
  end.

#[global] Instance outcome_bind : MBind outcome := @obind.
#[global] Instance outcome_ret : MRet outcome := @Ret.

(** A [for] loop over an array, threading the state [s]; [i] is the loop
    counter. *)
Fixpoint for_each {St A} (body : nat → A → St → outcome St)
    (i : nat) (l : list A) (s : St) : outcome St :=
  match l with
  | [] => Ret s
  | x :: l' =>
      match body i x s with
      | Ret s' => for_each body (S i) l' s'
      | Throw e => Throw e
      | Diverge => Diverge
      end
  end.

(** ** Components *)

(** [constants.js] is not among the sources: its entries are parameters. *)
Record Constants := {
  UI_COMPONENT_DEFINITION_VERSION : string;
  UI_COMPONENT_DEFINITION_INDEX : string;
  UI_COMPONENT_DEFINITION_EXTENDS : string;
  UI_COMPONENT_DEFINITION_DISABLED : string;
  PAGE_DEFINITION_URI : string;
  PAGE_DEFINITION_LAYOUT : string;
  DIV_DEFINITION_PUSHED_URIS : string;
  DIRECTORY_APP_COMPONENTS : string;
  DIRECTORY_APP_LAYOUTS : string;
  DIRECTORY_APP_DIVS : string;
  DIRECTORY_APP_PAGES : string;
  APP_CONF_CACHE_ENABLED : string;
  CACHE_KEY_LOOKUP_TABLE : string
}.

(** A reference to a component object: its position in the store, which is
    also its ordinal in the order of creation. *)
Abbreviation ref := nat.

Record UIComponent := {
  fullName : string;
  shortName : string;
  path : string;
  type : string;
  templateFilePath : option string;
  scriptFilePath : option string;
  definition : value;
  parents : list ref;
  children : list ref;
  index : option nat;
  disabled : value
}.

Abbreviation store := (list UIComponent).

(** Modelled from the spec: [models.UIComponent] is declared in [models.js],
    which is not among the sources.  A new component has no parents and no
    children (the code pushes onto both without creating them) and nothing
    else set. *)
Definition new_UIComponent : UIComponent :=
  {| fullName := ""; shortName := ""; path := ""; type := "";
     templateFilePath := None; scriptFilePath := None;
     definition := VNull; parents := []; children := [];
     index := None; disabled := VUndefined |}.

#[global] Instance UIComponent_inhabited : Inhabited UIComponent :=
  populate new_UIComponent.

Definition set_definition (d : value) (c : UIComponent) : UIComponent :=
  {| fullName := fullName c; shortName := shortName c; path := path c;
     type := type c; templateFilePath := templateFilePath c;
     scriptFilePath := scriptFilePath c; definition := d;
     parents := parents c; children := children c;
     index := index c; disabled := disabled c |}.

Definition push_parent (p : ref) (c : UIComponent) : UIComponent :=
  {| fullName := fullName c; shortName := shortName c; path := path c;
     type := type c; templateFilePath := templateFilePath c;
     scriptFilePath := scriptFilePath c; definition := definition c;
     parents := parents c ++ [p]; children := children c;
     index := index c; disabled := disabled c |}.

Definition push_child (k : ref) (c : UIComponent) : UIComponent :=
  {| fullName := fullName c; shortName := shortName c; path := path c;
     type := type c; templateFilePath := templateFilePath c;
     scriptFilePath := scriptFilePath c; definition := definition c;
     parents := parents c; children := children c ++ [k];
     index := index c; disabled := disabled c |}.

Definition set_index_disabled (i : nat) (d : value) (c : UIComponent)
  : UIComponent :=
  {| fullName := fullName c; shortName := shortName c; path := path c;
     type := type c; templateFilePath := templateFilePath c;
     scriptFilePath := scriptFilePath c; definition := definition c;
     parents := parents c; children := children c;
     index := Some i; disabled := d |}.

(** *** [compareRawUiComponents] *)

(** What an array slot or a searched item can be in the comparator: a
    component object or a string.  [===] holds between two references to one
    object and between equal strings, never across the two kinds. *)
Inductive item :=
| IComponent (r : ref)
| IString (s : string).

Definition strict_equals (x y : item) : bool :=
  match x, y with
  | IComponent r1, IComponent r2 => Nat.eqb r1 r2
  | IString s1, IString s2 => String.eqb s1 s2
  | _, _ => false
  end.

Fixpoint indexOf_from (i : Z) (l : list item) (x : item) : Z :=
  match l with
  | [] => -1
  | y :: l' => if strict_equals y x then i else indexOf_from (i + 1) l' x
  end.

(** [Array.prototype.indexOf]. *)
Definition indexOf (l : list item) (x : item) : Z := indexOf_from 0 l x.

Section Comparator.
Context (K : Constants).
(** [String.prototype.localeCompare], supplied by the host. *)
Context (localeCompare : string → string → Z).

(** [isNaN(tmpIndex) ? 1000000 : tmpIndex] *)
Definition priority (c : UIComponent) : Z :=
  let tmpIndex :=
    parseInt (get_prop (definition c) (UI_COMPONENT_DEFINITION_INDEX K)) in
  match tmpIndex with
  | None => 1000000
  | Some n => n
  end.

(** The definitions of [a] and [b] are not [null]: the inheritance loop
    has read a field of each before the array is sorted. *)
Definition compareRawUiComponents (a b : UIComponent) : Z :=
  let aIndex := priority a in
  let bIndex := priority b in
  if aIndex =? bIndex then
    if aIndex =? 1000000 then
      localeCompare (fullName a) (fullName b)
    else if indexOf (IComponent <$> children a) (IString (fullName b)) >=? 0
    then 1
    else if indexOf (IComponent <$> children b) (IString (fullName a)) >=? 0
    then -1
    else localeCompare (fullName a) (fullName b)
  else if aIndex >? bIndex then 1 else -1.
End Comparator.

(** ** The host file system *)

(** What the code asks of the host: of Jaggery's [File] and of [require],
    the names a directory lists ([None] when the listing fails), whether a
    path exists, whether it is a directory, and the document a JSON file
    parses to ([None] when it cannot be loaded); and of the language, the
    names under which a plain object ([{}]) finds a truthy member it has
    inherited from [Object.prototype] ([constructor], [toString], ...). *)
Record FileSystem := {
  listFiles : string → option (list string);
  isExists : string → bool;
  isDirectory : string → bool;
  require : string → option value;
  inherited : string → bool
}.

(** [file.isExists() && !file.isDirectory()] *)
Definition is_file (fs : FileSystem) (p : string) : bool :=
  isExists fs p && negb (isDirectory fs p).

Record Layout := {
  layout_fullName : string;
  layout_path : string
}.

Record validation := {
  success : bool;
  message : string
}.

Record LookupTable := {
  layouts : gmap string Layout;
  pages : gmap string ref;
  uriPagesMap : gmap string string;
  divs : gmap string ref;
  pushedDivs : gmap string (list string);
  uiComponents : gmap string ref;
  (** the component objects the references above point to *)
  components : store
}.

(** What the process-wide [application] store holds under a key. *)
Inductive appvalue :=
| AppTable (t : LookupTable)
| AppValue (v : value).

Definition app_truthy (o : option appvalue) : bool :=
  match o with
  | Some (AppTable _) => true
  | Some (AppValue v) => truthy v
  | None => false
  end.

(** The collections a discovery fills: the store of component objects, the
    map by full name and the list in discovery order. *)
Abbreviation collections := (store * gmap string ref * list ref)%type.

(** The states of the loops over the divs and over the pages: the store,
    [pushedDivs] or [uriPagesMap], and [allUiComponents]. *)
Abbreviation divs_state :=
  (store * gmap string (list string) * gmap string ref)%type.

Abbreviation pages_state :=
  (store * gmap string string * gmap string ref)%type.

Section Registry.
Context (K : Constants).
Context (localeCompare : string → string → Z).
(** [Array.prototype.sort] with a comparator; the algorithm is the host's. *)
Context (array_sort : (ref → ref → Z) → list ref → list ref).
Context (fs : FileSystem).

(** *** [getLayoutsData] *)

Definition layout_body (layoutsDir : string)
    (layoutsData : gmap string Layout) (layoutFileName : string)
  : gmap string Layout :=
  if isDirectory fs (layoutsDir +:+ "/" +:+ layoutFileName) then layoutsData
  else
    let index := lastIndexOf layoutFileName "." in
    if negb (String.eqb (substr_from layoutFileName (index + 1)) "hbs")
    then layoutsData
    else
      let layoutFullName := substr layoutFileName 0 index in
      <[layoutFullName :=
          {| layout_fullName := layoutFullName;
             layout_path := layoutsDir +:+ "/" +:+ layoutFileName |}]>
        layoutsData.

Definition getLayoutsData (layoutsDir : string)
  : outcome (gmap string Layout) :=
  match listFiles fs layoutsDir with
  | None => Throw (HostError "listFiles")
  | Some layoutsFiles => Ret (fold_left (layout_body layoutsDir) layoutsFiles ∅)
  end.

(** *** [populateComponentCollections] *)

Definition populate_body (componentsPath componentType : string)
    (i : nat) (componentFullName : string) (st : collections)
  : outcome collections :=
  let '(h, uiComponentsMap, uiComponentsList) := st in
  if negb (isDirectory fs (componentsPath +:+ "/" +:+ componentFullName))
  then Ret st
  else
    let componentShortName :=
      substr_from componentFullName
                  (lastIndexOf componentFullName "." + 1) in
    if String.eqb componentShortName "" then
      Throw (InvalidName componentType componentFullName)
    else
      let componentPath := componentsPath +:+ "/" +:+ componentFullName in
      let templateFile :=
        componentPath +:+ "/" +:+ componentShortName +:+ ".hbs" in
      let scriptFile := componentPath +:+ "/" +:+ componentShortName +:+ ".js" in
      let definitionFile :=
        componentPath +:+ "/" +:+ componentShortName +:+ ".json" in
      if negb (isExists fs definitionFile) || isDirectory fs definitionFile
      then Throw (MissingDefinition componentType componentFullName)
      else
        match require fs definitionFile with
        | None => Throw (HostError "require")
        | Some d =>
            let uiComponent :=
              {| fullName := componentFullName;
                 shortName := componentShortName;
                 path := componentPath;
                 type := componentType;
                 templateFilePath :=
                   if is_file fs templateFile then Some templateFile
                   else None;
                 scriptFilePath :=
                   if is_file fs scriptFile then Some scriptFile else None;
                 definition := d;
                 parents := parents new_UIComponent;
                 children := children new_UIComponent;
                 index := index new_UIComponent;
                 disabled := disabled new_UIComponent |} in
            let r : ref := length h in
            Ret (h ++ [uiComponent],
                 <[componentFullName := r]> uiComponentsMap,
                 uiComponentsList ++ [r])
        end.

Definition populateComponentCollections
    (componentsPath componentType : string) (st : collections)
  : outcome collections :=
  match listFiles fs componentsPath with
  | None => Throw (HostError "listFiles")
  | Some componentsDirectories =>
      for_each (populate_body componentsPath componentType)
               0 componentsDirectories st
  end.

(** *** [getUiComponentsData] *)

Definition collection_body (componentType componentsPath : string)
    (i : nat) (componentCollectionName : string) (st : collections)
  : outcome collections :=
  if negb (isDirectory fs (DIRECTORY_APP_COMPONENTS K +:+ "/"
                           +:+ componentCollectionName))
  then Ret st
  else
    populateComponentCollections
      (DIRECTORY_APP_COMPONENTS K +:+ "/" +:+ componentCollectionName
       +:+ componentsPath)
      componentType st.

(** The [while (parentComponentFullName)] loop; it runs for ever on a
    cyclic chain, which [fuel] running out stands for. *)
Fixpoint inherit_chain (fuel : nat) (componentType : string)
    (uiComponentsMap : gmap string ref) (component : ref)
    (parentComponentFullName : value) (h : store) : outcome store :=
  if truthy parentComponentFullName then
    match fuel with
    | O => Diverge
    | S fuel' =>
        match uiComponentsMap !! to_string parentComponentFullName with
        | None =>
            Throw (MissingParent componentType
                                 (to_string parentComponentFullName))
        | Some parentComponent =>
            let h := alter (push_child component) parentComponent h in
            let h := alter (push_parent parentComponent) component h in
            let parentDefinition := definition (h !!! parentComponent) in
            let h :=
              alter (fun c =>
                       set_definition
                         (extend (definition c) parentDefinition) c)
                    component h in
            let parentDefinition := definition (h !!! parentComponent) in
            if is_nullish parentDefinition then
              Throw (HostError "TypeError")
            else
              inherit_chain fuel' componentType uiComponentsMap component
                (get_prop parentDefinition
                          (UI_COMPONENT_DEFINITION_EXTENDS K))
                h
        end
    end
  else Ret h.

Definition inherit_body (fuel : nat) (componentType : string)
    (uiComponentsMap : gmap string ref)
    (i : nat) (component : ref) (h : store) : outcome store :=
  let componentDefinition := definition (h !!! component) in
  if is_nullish componentDefinition then Throw (HostError "TypeError")
  else
    inherit_chain fuel componentType uiComponentsMap component
      (get_prop componentDefinition (UI_COMPONENT_DEFINITION_EXTENDS K)) h.

Record ComponentsData := {
  cd_map : gmap string ref;
  cd_array : list ref
}.

Definition getUiComponentsData (fuel : nat)
    (componentType componentsPath : string) (h : store)
  : outcome (ComponentsData * store) :=
  match listFiles fs (DIRECTORY_APP_COMPONENTS K) with
  | None => Throw (HostError "listFiles")
  | Some componentsCollectionDirectories =>
      '(h, uiComponentsMap, uiComponentsList) ←
        for_each (collection_body componentType componentsPath)
                 0 componentsCollectionDirectories (h, ∅, []);
      h ← for_each (inherit_body fuel componentType uiComponentsMap)
                   0 uiComponentsList h;
      Ret ({| cd_map := uiComponentsMap;
              cd_array :=
                array_sort
                  (fun a b =>
                     compareRawUiComponents K localeCompare
                       (h !!! a) (h !!! b))
                  uiComponentsList |}, h)
  end.

(** *** Validation *)

Definition validateDivDefinition (div : UIComponent) : validation :=
  let divDefinition := definition div in
  if negb (truthy (get_prop divDefinition
                            (UI_COMPONENT_DEFINITION_VERSION K)))
  then {| success := false; message := "do not have a version" |}
  else
    let pushedUris :=
      get_prop divDefinition (DIV_DEFINITION_PUSHED_URIS K) in
    if truthy pushedUris && negb (isArray pushedUris)
    then {| success := false;
            message := "pushed URIs should be a string array" |}
    else {| success := true; message := "Valid div definition." |}.

(** [layoutsData[layoutFullName]] finds a layout of that name or, the
    map being a plain object, a member every object inherits. *)
Definition validatePageDefinition (page : UIComponent)
    (layoutsData : gmap string Layout) : validation :=
  let pageDefinition := definition page in
  if negb (truthy (get_prop pageDefinition
                            (UI_COMPONENT_DEFINITION_VERSION K)))
  then {| success := false; message := "do not have a version" |}
  else if negb (truthy (get_prop pageDefinition (PAGE_DEFINITION_URI K)))
  then {| success := false; message := "do not have a URI" |}
  else
    let layoutFullName :=
      get_prop pageDefinition (PAGE_DEFINITION_LAYOUT K) in
    if negb (truthy layoutFullName)
    then {| success := false; message := "do not have a layout" |}
    else if negb (bool_decide
                    (is_Some (layoutsData !! to_string layoutFullName))
                  || inherited fs (to_string layoutFullName))
    then {| success := false; message := "layout does not exists" |}
    else {| success := true; message := "Valid page definition." |}.

(** *** [utils.getLookupTable] *)

(** [pushedDivs[uriPattern].push(divFullName)], the list being created
    first when the pattern is new. *)
Definition push_div (divFullName : string)
    (pushedDivs : gmap string (list string)) (uriPattern : value)
  : gmap string (list string) :=
  let key := to_string uriPattern in
  <[key := default [] (pushedDivs !! key) ++ [divFullName]]> pushedDivs.

Definition div_body (i : nat) (div : ref) (st : divs_state)
  : outcome divs_state :=
  let '(h, pushedDivs, allUiComponents) := st in
  let divDefinition := definition (h !!! div) in
  let h :=
    alter (set_index_disabled i
             (parseBoolean
                (get_prop divDefinition
                          (UI_COMPONENT_DEFINITION_DISABLED K))
                VUndefined))
          div h in
  if truthy (disabled (h !!! div)) then Ret (h, pushedDivs, allUiComponents)
  else
    let allUiComponents :=
      <[fullName (h !!! div) := div]> allUiComponents in
    if negb (length (children (h !!! div)) =? 0)%nat
    then Ret (h, pushedDivs, allUiComponents)
    else
      let validationData := validateDivDefinition (h !!! div) in
      if negb (success validationData)
      then Throw (InvalidDefinition (fullName (h !!! div))
                                    (message validationData))
      else
        let uriPatterns :=
          get_prop divDefinition (DIV_DEFINITION_PUSHED_URIS K) in
        if truthy uriPatterns
        then Ret (h,
                  fold_left (push_div (fullName (h !!! div)))
                            (elements uriPatterns) pushedDivs,
                  allUiComponents)
        else Ret (h, pushedDivs, allUiComponents).

(** [i] is the counter the loop over the divs has left behind. *)
Definition page_body (layoutsData : gmap string Layout) (i : nat)
    (j : nat) (page : ref) (st : pages_state) : outcome pages_state :=
  let '(h, uriPagesMap, allUiComponents) := st in
  let pageDefinition := definition (h !!! page) in
  let h :=
    alter (set_index_disabled (i + j)
             (parseBoolean
                (get_prop pageDefinition
                          (UI_COMPONENT_DEFINITION_DISABLED K))
                VUndefined))
          page h in
  if truthy (disabled (h !!! page))
  then Ret (h, uriPagesMap, allUiComponents)
  else
    let allUiComponents :=
      <[fullName (h !!! page) := page]> allUiComponents in
    if negb (length (children (h !!! page)) =? 0)%nat
    then Ret (h, uriPagesMap, allUiComponents)
    else
      let validationData :=
        validatePageDefinition (h !!! page) layoutsData in
      if negb (success validationData)
      then Throw (InvalidDefinition (fullName (h !!! page))
                                    (message validationData))
      else
        let pageUri :=
          to_string (get_prop pageDefinition (PAGE_DEFINITION_URI K)) in
        if truthy (VStr (default "" (uriPagesMap !! pageUri)))
        then Throw (UriCollision (fullName (h !!! page)) pageUri
                                 (default "" (uriPagesMap !! pageUri)))
        else Ret (h, <[pageUri := fullName (h !!! page)]> uriPagesMap,
                  allUiComponents).

(** The build proper: everything [getLookupTable] does between the cache
    test and the cache write. *)
Definition buildLookupTable (fuel : nat) : outcome LookupTable :=
  layoutsData ← getLayoutsData (DIRECTORY_APP_LAYOUTS K);
  '(divsData, h) ←
    getUiComponentsData fuel "div" (DIRECTORY_APP_DIVS K) [];
  '(h, pushedDivs, allUiComponents) ←
    for_each div_body 0 (cd_array divsData) (h, ∅, ∅);
  '(pagesData, h) ←
    getUiComponentsData fuel "page" (DIRECTORY_APP_PAGES K) h;
  '(h, uriPagesMap, allUiComponents) ←
    for_each (page_body layoutsData (length (cd_array divsData)))
             0 (cd_array pagesData) (h, ∅, allUiComponents);
  Ret {| layouts := layoutsData;
         pages := cd_map pagesData;
         uriPagesMap := uriPagesMap;
         divs := cd_map divsData;
         pushedDivs := pushedDivs;
         uiComponents := allUiComponents;
         components := h |}.

(** The call returns its result together with the [application] store it
    leaves behind. *)
Definition getLookupTable (fuel : nat) (configs : value)
    (application : gmap string appvalue)
  : outcome appvalue * gmap string appvalue :=
  if is_nullish configs then (Throw (HostError "TypeError"), application)
  else
    let isCachingEnabled :=
      parseBoolean (get_prop configs (APP_CONF_CACHE_ENABLED K))
                   VUndefined in
    let cachedLookupTable :=
      if truthy isCachingEnabled
      then application !! CACHE_KEY_LOOKUP_TABLE K
      else None in
    match cachedLookupTable with
    | Some cached =>
        if app_truthy cachedLookupTable then (Ret cached, application)
        else
          match buildLookupTable fuel with
          | Ret lookupTable =>
              (Ret (AppTable lookupTable),
               <[CACHE_KEY_LOOKUP_TABLE K := AppTable lookupTable]>
                 application)
          | Throw e => (Throw e, application)
          | Diverge => (Diverge, application)
          end
    | None =>
        match buildLookupTable fuel with
        | Ret lookupTable =>
            (Ret (AppTable lookupTable),
             <[CACHE_KEY_LOOKUP_TABLE K := AppTable lookupTable]>
               application)
        | Throw e => (Throw e, application)
        | Diverge => (Diverge, application)
        end
    end.
End Registry.

(** ** [utils.getFurthestChild] and [utils.getFileInUiComponent] *)

Section FileLookup.
(** [UIComponent.prototype.equals] and [compareTo] are declared in
    [models.js], which is not among the sources: both are parameters.
    [compareTo] may be handed [null] (no furthest child yet).  *)
Context (equals : store → ref → ref → bool).
Context (compareTo : store → ref → option ref → outcome Z).
Context (fs : FileSystem).

(** The inner loop over [currentChild.parents]: the position of the first
    parent equal to [parentUiComponent], [-1] when there is none. *)
Fixpoint distance_from (j : Z) (h : store) (parentUiComponent : ref)
    (currentChildParents : list ref) : Z :=
  match currentChildParents with
  | [] => -1
  | p :: ps =>
      if equals h parentUiComponent p then j
      else distance_from (j + 1) h parentUiComponent ps
  end.

Definition furthest_body (h : store) (parentUiComponent : ref)
    (i : nat) (currentChild : ref) (st : option ref * Z)
  : outcome (option ref * Z) :=
  let '(furthestChild, furthestChildDistance) := st in
  let currentChildDistance :=
    distance_from 0 h parentUiComponent (parents (h !!! currentChild)) in
  if furthestChildDistance <? currentChildDistance then
    Ret (Some currentChild, currentChildDistance)
  else if furthestChildDistance =? currentChildDistance then
    c ← compareTo h currentChild furthestChild;
    if c =? 1 then Ret (Some currentChild, currentChildDistance)
    else if c =? 0 then
      (* the warning reads [furthestChild.fullName] *)
      match furthestChild with
      | Some _ => Ret st
      | None => Throw (HostError "TypeError")
      end
    else Ret st
  else Ret st.

(** [None] is the [null] the function returns when no child was chosen. *)
Definition getFurthestChild (h : store) (parentUiComponent : ref)
  : outcome (option ref) :=
  if (length (children (h !!! parentUiComponent)) =? 0)%nat
  then Ret (Some parentUiComponent)
  else
    '(furthestChild, _) ←
      for_each (furthest_body h parentUiComponent) 0
               (children (h !!! parentUiComponent)) (None, -1);
    Ret furthestChild.

(** The loop over [childUiComponent.parents]. *)
Fixpoint file_in_parents (h : store) (relativeFilePath : string)
    (parentUiComponents : list ref) : option string :=
  match parentUiComponents with
  | [] => None
  | parentUiComponent :: rest =>
      let parentFile := path (h !!! parentUiComponent) +:+ relativeFilePath in
      if isExists fs parentFile && negb (isDirectory fs parentFile)
      then Some parentFile
      else file_in_parents h relativeFilePath rest
  end.

Definition normalise_path (relativeFilePath : string) : string :=
  match relativeFilePath with
  | String "/" _ => relativeFilePath
  | _ => "/" +:+ relativeFilePath
  end.

(** The file is given by its path; [None] is [null]. *)
Definition getFileInUiComponent (h : store) (uiComponent : ref)
    (relativeFilePath : string) : outcome (option string) :=
  let relativeFilePath := normalise_path relativeFilePath in
  childUiComponent ← getFurthestChild h uiComponent;
  match childUiComponent with
  | None => Throw (HostError "TypeError")
  | Some childUiComponent =>
      let file := path (h !!! childUiComponent) +:+ relativeFilePath in
      if isExists fs file && negb (isDirectory fs file) then Ret (Some file)
      else
        Ret (file_in_parents h relativeFilePath
                             (parents (h !!! childUiComponent)))
  end.
End FileLookup.

(** ** A concrete host, for running the code on examples *)

Module Example.
(** Modelled from the spec: [constants.js] is not among the sources.  The
    keys are the field names the spec speaks of; the directories and the
    cache keys are names chosen for the examples. *)
Definition constants : Constants :=
  {| UI_COMPONENT_DEFINITION_VERSION := "version";
     UI_COMPONENT_DEFINITION_INDEX := "index";
     UI_COMPONENT_DEFINITION_EXTENDS := "extends";
     UI_COMPONENT_DEFINITION_DISABLED := "disabled";
     PAGE_DEFINITION_URI := "uri";
     PAGE_DEFINITION_LAYOUT := "layout";
     DIV_DEFINITION_PUSHED_URIS := "pushedUris";
     DIRECTORY_APP_COMPONENTS := "/components";
     DIRECTORY_APP_LAYOUTS := "/layouts";
     DIRECTORY_APP_DIVS := "/divs";
     DIRECTORY_APP_PAGES := "/pages";
     APP_CONF_CACHE_ENABLED := "cachingEnabled";
     CACHE_KEY_LOOKUP_TABLE := "_UUF_LOOKUP_TABLE" |}.

(** Comparison by character codes: the order a collation gives to ASCII
    names of one letter case. *)
Definition localeCompare (s t : string) : Z :=
  match String.compare s t with
  | Lt => -1
  | Eq => 0
  | Gt => 1
  end.

Fixpoint insert_sorted (cmp : ref → ref → Z) (x : ref) (l : list ref)
  : list ref :=
  match l with
  | [] => [x]
  | y :: l' =>
      if cmp x y <? 0 then x :: l else y :: insert_sorted cmp x l'
  end.

(** A stable insertion sort. *)
Definition array_sort (cmp : ref → ref → Z) (l : list ref) : list ref :=
  foldr (fun x acc => insert_sorted cmp x acc) [] l.

(** A file system given by its tree. *)
Inductive node :=
| File (content : option value)
| Dir (entries : list (string * node)).

Fixpoint flatten (prefix : string) (n : node) : list (string * node) :=
  (prefix, n) ::
  match n with
  | File _ => []
  | Dir entries =>
      (fix go (es : list (string * node)) : list (string * node) :=
         match es with
         | [] => []
         | (name, m) :: es' => flatten (prefix +:+ "/" +:+ name) m ++ go es'
         end) entries
  end.

(** The members of [Object.prototype] that the language standard names. *)
Definition object_prototype_members : list string :=
  ["constructor"; "toString"; "toLocaleString"; "valueOf";
   "hasOwnProperty"; "isPrototypeOf"; "propertyIsEnumerable"].

(** The file system whose root directory holds [entries]. *)
Definition mkfs (entries : list (string * node)) : FileSystem :=
  let table := flatten "" (Dir entries) in
  {| listFiles p :=
       match assoc_get table p with
       | Some (Dir es) => Some (es.*1)
       | _ => None
       end;
     isExists p := bool_decide (is_Some (assoc_get table p));
     isDirectory p :=
       match assoc_get table p with
       | Some (Dir _) => true
       | _ => false
       end;
     require p :=
       match assoc_get table p with
       | Some (File (Some v)) => Some v
       | _ => None
       end;
     inherited name := bool_decide (name ∈ object_prototype_members) |}.

(** A component directory [name] holding the definition [def]. *)
Definition component (name : string) (def : value) : string * node :=
  (name,
   Dir [(substr_from name (lastIndexOf name "." + 1) +:+ ".json",
         File (Some def))]).

(** Modelled from the spec: [equals] and [compareTo] of [models.js], which
    is not among the sources.  Two components are equal when they are one
    object, and they compare as the comparator of the ordering compares
    them; handed [null], [compareTo] fails. *)
Definition equals (h : store) (a b : ref) : bool := Nat.eqb a b.

Definition compareTo (h : store) (a : ref) (b : option ref) : outcome Z :=
  match b with
  | Some b => Ret (compareRawUiComponents constants localeCompare
                                          (h !!! a) (h !!! b))
  | None => Throw (HostError "TypeError")
  end.

Definition build (fs : FileSystem) : outcome LookupTable :=
  buildLookupTable constants localeCompare array_sort fs 100.
End Example.

(** ** Auxiliary definitions for the statements *)

(** The body of the [for ... in] loop of [extend], for one property. *)
Definition extend_property (child : value) (p : string * value) : value :=
  let '(propertyName, propertyValue) := p in
  if isArray propertyValue then set_prop child propertyName propertyValue
  else if jstype_eqb (typeof propertyValue) TObject then
    set_prop child propertyName
             (extend (get_prop child propertyName) propertyValue)
  else extend_scalar child propertyName propertyValue.

(** The names of the sub-directories of [dir], in listing order. *)
Definition component_dirs (fs : FileSystem) (dir : string) : list string :=
  List.filter (fun name => isDirectory fs (dir +:+ "/" +:+ name))
              (default [] (listFiles fs dir)).

(** The component directories found below every collection, in the order
    the discovery visits them. *)
Definition discovered_names (K : Constants) (fs : FileSystem)
    (componentsPath : string) : list string :=
  concat
    (map (fun collection =>
            component_dirs fs (DIRECTORY_APP_COMPONENTS K +:+ "/"
                               +:+ collection +:+ componentsPath))
         (component_dirs fs (DIRECTORY_APP_COMPONENTS K))).

(** The paths of those directories, in the same order. *)
Definition discovered_paths (K : Constants) (fs : FileSystem)
    (componentsPath : string) : list string :=
  concat
    (map (fun collection =>
            (fun name =>
               (DIRECTORY_APP_COMPONENTS K +:+ "/" +:+ collection
                +:+ componentsPath) +:+ "/" +:+ name)
            <$> component_dirs fs (DIRECTORY_APP_COMPONENTS K +:+ "/"
                                   +:+ collection +:+ componentsPath))
         (component_dirs fs (DIRECTORY_APP_COMPONENTS K))).

(** The full names of the components an array refers to. *)
Definition fullNames (h : store) (l : list ref) : list string :=
  (fun r => fullName (h !!! r)) <$> l.

(** The statement that every component's [index] is its ordinal in the
    order of discovery, which is its position in the store. *)
Definition index_is_discovery_ordinal (t : LookupTable) : Prop :=
  ∀ r c, components t !! r = Some c → index c = Some r.

(** The statement that a map of the table holds no disabled component. *)
Definition only_enabled (h : store) (m : gmap string ref) : Prop :=
  ∀ name r c, m !! name = Some r → h !! r = Some c →
              truthy (disabled c) = false.

Module Inputs.
Import Example.

Definition layouts_dir : string * node :=
  ("layouts", Dir [("main.hbs", File None)]).

(** A parent div with priority 5, a child div inheriting it, a disabled
    div with priority 1 and one page. *)
Definition fs_family : FileSystem :=
  mkfs [layouts_dir;
        ("components", Dir [
           ("root", Dir [
              ("divs", Dir [
                 component "a.x" (VRec [("version", VStr "1");
                                        ("index", VNum 5)]);
                 component "b.y" (VRec [("version", VStr "1");
                                        ("extends", VStr "a.x")]);
                 component "z.top" (VRec [("version", VStr "1");
                                          ("index", VNum 1);
                                          ("disabled", VBool true)])]);
              ("pages", Dir [
                 component "p.home" (VRec [("version", VStr "1");
                                           ("uri", VStr "/");
                                           ("layout", VStr "main")])])])])].

(** Two collections that both hold a div named [x.a]. *)
Definition fs_two_collections : FileSystem :=
  mkfs [layouts_dir;
        ("components", Dir [
           ("base", Dir [
              ("divs", Dir [component "x.a" (VRec [("version", VStr "1")])]);
              ("pages", Dir [])]);
           ("extra", Dir [
              ("divs", Dir [component "x.a" (VRec [("version", VStr "2")])]);
              ("pages", Dir [])])])].

(** A page whose parent does not exist. *)
Definition fs_missing_parent : FileSystem :=
  mkfs [layouts_dir;
        ("components", Dir [
           ("root", Dir [
              ("divs", Dir []);
              ("pages", Dir [
                 component "p.home" (VRec [("version", VStr "1");
                                           ("extends", VStr "p.none")])])])])].

(** A parent div with a template of its own and a child without one. *)
Definition fs_templates : FileSystem :=
  mkfs [layouts_dir;
        ("components", Dir [
           ("root", Dir [
              ("divs", Dir [
                 ("a.x", Dir [("x.json",
                               File (Some (VRec [("version", VStr "1")])));
                              ("x.hbs", File None)]);
                 component "b.y" (VRec [("extends", VStr "a.x")])]);
              ("pages", Dir [])])])].

(** The store the discovery of the divs of [fs_templates] leaves. *)
Definition templates_store : store :=
  match getUiComponentsData constants localeCompare array_sort fs_templates
                            100 "div" "/divs" [] with
  | Ret (_, h) => h
  | _ => []
  end.

Definition stale_cache : gmap string appvalue :=
  {[ CACHE_KEY_LOOKUP_TABLE constants := AppValue (VStr "previous table") ]}.

(** A div with one child and a definition that has no version. *)
Definition overridden_div : UIComponent :=
  {| fullName := "a.x"; shortName := "x"; path := "/components/root/divs/a.x";
     type := "div"; templateFilePath := None; scriptFilePath := None;
     definition := VRec [("pushedUris", VStr "/a")];
     parents := []; children := [1%nat];
     index := None; disabled := VUndefined |}.

Definition overridden_store : store :=
  [overridden_div;
   {| fullName := "b.y"; shortName := "y";
      path := "/components/root/divs/b.y";
      type := "div"; templateFilePath := None; scriptFilePath := None;
      definition := VRec [("extends", VStr "a.x");
                          ("pushedUris", VStr "/a")];
      parents := [0%nat]; children := [];
      index := None; disabled := VUndefined |}].

(** A div whose [disabled] field is the string "1". *)
Definition flagged_div : UIComponent :=
  {| fullName := "c.w"; shortName := "w"; path := "/components/root/divs/c.w";
     type := "div"; templateFilePath := None; scriptFilePath := None;
     definition := VRec [("version", VStr "1"); ("disabled", VStr "1")];
     parents := []; children := [];
     index := None; disabled := VUndefined |}.

Definition cx (name : string) (idx : Z) : UIComponent :=
  set_definition (VRec [("index", VNum idx)])
    {| fullName := name; shortName := name; path := name; type := "div";
       templateFilePath := None; scriptFilePath := None;
       definition := VNull; parents := []; children := [];
       index := None; disabled := VUndefined |}.
End Inputs.

Module Tables.
Import Example Inputs.

(** The table built from [fs_family] and the store its divs are found in. *)
Definition family_table : LookupTable :=
  match build fs_family with
  | Ret t => t
  | _ =>
      {| layouts := ∅; pages := ∅; uriPagesMap := ∅; divs := ∅;
         pushedDivs := ∅; uiComponents := ∅; components := [] |}
  end.

(** What the discovery of the divs of [fs_two_collections] returns. *)
Definition two_collections_divs : ComponentsData * store :=
  match getUiComponentsData constants localeCompare array_sort
                            fs_two_collections 100 "div" "/divs" [] with
  | Ret x => x
  | _ => ({| cd_map := ∅; cd_array := [] |}, [])
  end.
End Tables.

Module Scenarios.
Import Example Inputs.

(** Two divs pushed for [/app/*], the second with priority "5", and a file
    that is no component. *)
Definition fs_pushed : FileSystem :=
  mkfs [layouts_dir;
        ("components", Dir [
           ("root", Dir [
              ("divs", Dir [
                 component "n.A" (VRec [("version", VStr "1");
                                        ("pushedUris",
                                         VArr [VStr "/app/*"; VStr "/x"])]);
                 component "n.B" (VRec [("version", VStr "1");
                                        ("index", VStr "5");
                                        ("pushedUris",
                                         VArr [VStr "/app/*"])]);
                 ("README.md", File None)]);
              ("pages", Dir [])])])].

(** Two pages of one URI. *)
Definition fs_same_uri : FileSystem :=
  mkfs [layouts_dir;
        ("components", Dir [
           ("root", Dir [
              ("divs", Dir []);
              ("pages", Dir [
                 component "p.one" (VRec [("version", VStr "1");
                                          ("uri", VStr "/");
                                          ("layout", VStr "main")]);
                 component "p.two" (VRec [("version", VStr "1");
                                          ("uri", VStr "/");
                                          ("layout", VStr "main")])])])])].

(** A div that extends itself. *)
Definition fs_cycle : FileSystem :=
  mkfs [layouts_dir;
        ("components", Dir [
           ("root", Dir [
              ("divs", Dir [component "n.C" (VRec [("extends", VStr "n.C")])]);
              ("pages", Dir [])])])].

Definition pushed_of (o : outcome LookupTable)
  : option (list (string * list string)) :=
  match o with
  | Ret t => Some (map_to_list (pushedDivs t))
  | _ => None
  end.
End Scenarios.

(** What a discovery that started from the store [h0] has gathered once it
    has met the component directories [names]: the store has grown by one
    component per name, the list refers to them in order, and every key of
    the map leads to a new component of that full name. *)
Definition discovered (h0 : store) (names : list string) (st : collections)
  : Prop :=
  ∃ new,
    st.1.1 = h0 ++ new ∧
    st.2 = seq (length h0) (length new) ∧
    fullName <$> new = names ∧
    (∀ k r, st.1.2 !! k = Some r →
            (length h0 ≤ r)%nat ∧
            ∃ c, st.1.1 !! r = Some c ∧ fullName c = k) ∧
    (∀ k, is_Some (st.1.2 !! k) ↔ k ∈ names).

(** Every entry of the map leads to the latest of the components added from
    [n0] on that bear its key as their full name. *)
Definition keeps_latest (n0 : nat) (h : store) (m : gmap string ref) : Prop :=
  ∀ k r, m !! k = Some r →
         ∀ r' c', (n0 ≤ r')%nat → h !! r' = Some c' → fullName c' = k →
                  (r' ≤ r)%nat.

(** What the same discovery has gathered, by place: the components added
    to [h0] are those of the directories [paths], in that order, and the
    map keeps the latest component of every name. *)
Definition discovered_at (h0 : store) (paths : list string) (st : collections)
  : Prop :=
  (∃ new, st.1.1 = h0 ++ new ∧ path <$> new = paths) ∧
  keeps_latest (length h0) st.1.1 st.1.2.

(** [h'] has the components of [h], each with the path it had. *)
Definition same_paths (h h' : store) : Prop :=
  ∀ r c, h !! r = Some c → ∃ c', h' !! r = Some c' ∧ path c' = path c.

(** [h'] has the components of [h], those before [n0] untouched and the
    others with the names they had. *)
Definition same_frame (n0 : nat) (h h' : store) : Prop :=
  length h' = length h ∧
  (∀ r, (r < n0)%nat → h' !! r = h !! r) ∧
  (∀ r c, h !! r = Some c →
          ∃ c', h' !! r = Some c' ∧ fullName c' = fullName c).

(** [c'] is [c] but for [index] and [disabled]. *)
Definition same_links (c c' : UIComponent) : Prop :=
  fullName c' = fullName c ∧ children c' = children c ∧
  parents c' = parents c ∧ definition c' = definition c.

(** Every child a component lists has that component among its parents. *)
Definition links_ok (h : store) : Prop :=
  ∀ p cp c, h !! p = Some cp → c ∈ children cp →
            ∃ cc, h !! c = Some cc ∧ p ∈ parents cc.

(** ** Further definitions for the statements *)

(** [typeof v !== 'object'] and not an array: what the last branch of the
    loop of [extend] handles. *)
Definition is_scalar (v : value) : bool :=
  negb (isArray v) && negb (jstype_eqb (typeof v) TObject).

(** [parseInt] on the string its argument has been turned into. *)
Definition parseInt_string (s : string) : option Z :=
  let s := skip_whitespace s in
  let '(negative, s) :=
    match s with
    | String "-" s' => (true, s')
    | String "+" s' => (false, s')
    | _ => (false, s)
    end in
  let '(radix, s) :=
    match s with
    | String "0" (String "x" s') | String "0" (String "X" s') => (16, s')
    | _ => (10, s)
    end in
  match parse_digits radix s None with
  | Some n => Some (if negative : bool then - n else n)
  | None => None
  end.

(** The number a sequence of decimal digits denotes, read from the left
    with [acc] for the digits already read. *)
Fixpoint uint_value (d : Decimal.uint) (acc : Z) : Z :=
  match d with
  | Decimal.Nil => acc
  | Decimal.D0 d => uint_value d (acc * 10 + 0)
  | Decimal.D1 d => uint_value d (acc * 10 + 1)
  | Decimal.D2 d => uint_value d (acc * 10 + 2)
  | Decimal.D3 d => uint_value d (acc * 10 + 3)
  | Decimal.D4 d => uint_value d (acc * 10 + 4)
  | Decimal.D5 d => uint_value d (acc * 10 + 5)
  | Decimal.D6 d => uint_value d (acc * 10 + 6)
  | Decimal.D7 d => uint_value d (acc * 10 + 7)
  | Decimal.D8 d => uint_value d (acc * 10 + 8)
  | Decimal.D9 d => uint_value d (acc * 10 + 9)
  end.

(** ** Auxiliary definitions for the loops of [getLookupTable] *)

(** The [disabled] flag the definition of a component asks for. *)
Definition definition_disabled (K : Constants) (c : UIComponent) : value :=
  parseBoolean (get_prop (definition c) (UI_COMPONENT_DEFINITION_DISABLED K))
               VUndefined.

(** What one round of a loop of [getLookupTable] does to the registry
    ([pushedDivs] or [uriPagesMap]) for the component [r], once the round is
    known to return: a disabled component and one with children leave it as
    it is.  [dis] reads the flag of a component. *)
Definition loop_registers {Reg : Type} (dis : UIComponent → value)
    (step : UIComponent → Reg → Reg) (h : store) (reg : Reg) (r : ref)
  : Reg :=
  let c := h !!! r in
  if truthy (dis c) || negb (length (children c) =? 0)%nat then reg
  else step c reg.

(** What one round does to [allUiComponents]. *)
Definition loop_enters (dis : UIComponent → value) (h : store)
    (all : gmap string ref) (r : ref) : gmap string ref :=
  let c := h !!! r in
  if truthy (dis c) then all else <[fullName c := r]> all.

(** The entries a valid, enabled div without children adds to
    [pushedDivs]. *)
Definition div_step (K : Constants) (c : UIComponent)
    (pushedDivs : gmap string (list string)) : gmap string (list string) :=
  let uriPatterns := get_prop (definition c) (DIV_DEFINITION_PUSHED_URIS K) in
  if truthy uriPatterns
  then fold_left (push_div (fullName c)) (elements uriPatterns) pushedDivs
  else pushedDivs.

(** The entry a valid, enabled page without children adds to
    [uriPagesMap]. *)
Definition page_step (K : Constants) (c : UIComponent)
    (uriPagesMap : gmap string string) : gmap string string :=
  <[to_string (get_prop (definition c) (PAGE_DEFINITION_URI K))
    := fullName c]> uriPagesMap.

(** A component the loops register: enabled and without children. *)
Definition is_registered (c : UIComponent) : bool :=
  negb (truthy (disabled c)) && (length (children c) =? 0)%nat.

(** The names a div puts under the pattern [pat] of [pushedDivs]: its own,
    once for every time its definition lists the pattern. *)
Definition pushed_by (K : Constants) (c : UIComponent) (pat : string)
  : list string :=
  let uriPatterns := get_prop (definition c) (DIV_DEFINITION_PUSHED_URIS K) in
  if is_registered c && truthy uriPatterns
  then (fun _ => fullName c)
         <$> filter (fun u => to_string u = pat) (elements uriPatterns)
  else [].

(** ** Auxiliary definitions for the components of a table *)

(** What [populateComponentCollections] has seen on disk when it made the
    component [c] from a directory of [componentsPath]. *)
Definition placed (fs : FileSystem) (componentsPath componentType : string)
    (c : UIComponent) : Prop :=
  type c = componentType ∧
  path c = componentsPath +:+ "/" +:+ fullName c ∧
  isDirectory fs (path c) = true ∧
  shortName c = substr_from (fullName c) (lastIndexOf (fullName c) "." + 1) ∧
  shortName c ≠ "" ∧
  is_file fs (path c +:+ "/" +:+ shortName c +:+ ".json") = true ∧
  templateFilePath c
  = (if is_file fs (path c +:+ "/" +:+ shortName c +:+ ".hbs")
     then Some (path c +:+ "/" +:+ shortName c +:+ ".hbs") else None) ∧
  scriptFilePath c
  = (if is_file fs (path c +:+ "/" +:+ shortName c +:+ ".js")
     then Some (path c +:+ "/" +:+ shortName c +:+ ".js") else None).

(** [c'] is [c] but for its definition, its links, its index and its
    flag. *)
Definition same_static (c c' : UIComponent) : Prop :=
  fullName c' = fullName c ∧ shortName c' = shortName c ∧
  path c' = path c ∧ type c' = type c ∧
  templateFilePath c' = templateFilePath c ∧
  scriptFilePath c' = scriptFilePath c.

(** [Q] holds of every component of the store, at its reference. *)
Definition store_all (Q : ref → UIComponent → Prop) (h : store) : Prop :=
  ∀ r c, h !! r = Some c → Q r c.

(** The character [ch] does not occur in [s]. *)
Definition no_char (ch : ascii) (s : string) : Prop :=
  ¬ In ch (list_ascii_of_string s).

(** A file name [getLayoutsData] takes for the layout [name]: the name with
    the extension [.hbs], or the bare [hbs] for the layout of no name. *)
Definition layout_file (file name : string) : Prop :=
  file = name +:+ ".hbs" ∨ (file = "hbs" ∧ name = "").

(** Every parent a component lists has that component among its
    children. *)
Definition links_back (h : store) : Prop :=
  ∀ c cc p, h !! c = Some cc → p ∈ parents cc →
            ∃ cp, h !! p = Some cp ∧ c ∈ children cp.

(** The integers a number of the host holds exactly: those of magnitude up
    to 2^53.  On these [parseInt] and [String] are what this file takes
    them to be. *)
Definition exact_number (n : Z) : Prop :=
  -9007199254740992 ≤ n ≤ 9007199254740992.

Module Chains.
Import Example Inputs.


End Chains.

(** ** A collation that does not tell canonically equivalent names apart *)

Module Canonical.
(** The bytes of the combining acute accent (U+0301) and of the letter
    e with that accent (U+00E9) in a name held as UTF-8. *)
Definition combining_acute : string :=
  String (ascii_of_nat 204) (String (ascii_of_nat 129) EmptyString).
Definition e_acute : string :=
  String (ascii_of_nat 195) (String (ascii_of_nat 169) EmptyString).

(** The composed form of a name: the letter e followed by the combining
    accent becomes the one character of the same reading. *)
Fixpoint compose (s : string) : string :=
  match s with
  | EmptyString => EmptyString
  | String c1 s1 =>
      match s1 with
      | String c2 (String c3 s3) =>
          if Ascii.eqb c1 "e" && Ascii.eqb c2 (ascii_of_nat 204)
             && Ascii.eqb c3 (ascii_of_nat 129)
          then e_acute +:+ compose s3
          else String c1 (compose s1)
      | _ => String c1 (compose s1)
      end
  end.

(** [localeCompare] of a host that returns 0 on canonically equivalent
    strings, as ECMAScript asks of it: the composed forms are compared. *)
Definition localeCompare (s t : string) : Z :=
  Example.localeCompare (compose s) (compose t).

(** Two divs of index 5 whose directory names read the same and are
    different strings: one holds the accented letter as one character,
    the other as the letter and the combining accent. *)
Definition composed_div : UIComponent :=
  Inputs.cx ("x.caf" +:+ e_acute) 5.
Definition decomposed_div : UIComponent :=
  Inputs.cx ("x.cafe" +:+ combining_acute) 5.
End Canonical.

(** ** Configurations and the current user *)

(** The entries of [constants.js] these functions read: parameters, as
    those of the registry are. *)
Record ConfConstants := {
  FILE_UUF_CONF : string;
  CACHE_KEY_UUF_CONF : string;
  CACHE_KEY_UUF_CONF_FILE_LMD : string;
  FILE_APP_CONF : string;
  CACHE_KEY_APP_CONF : string;
  CACHE_KEY_APP_CONF_FILE_LMD : string;
  APP_CONF_PERMISSION_ROOT : string;
  CACHE_KEY_USER : string
}.

(** What these functions ask of the host beyond the file system: the time a
    file was last modified; the text of a file ([None] when it cannot be
    opened or read); a system property; [String.prototype.replace] with a
    global pattern that matches the given text literally; [parse] ([None]
    when it throws); and the user manager of a tenant with its
    [getAllowedUIResources], which returns an array ([None] where the
    constructor or the call throws). *)
Record Host := {
  getLastModified : string → value;
  readAll : string → option string;
  getProperty : string → value;
  replace_all : string → value → string → string;
  parse : string → option value;
  UserManager : value → option (value → value → option (list value))
}.

(** [parseInt(application.get(key))]: a missing entry reads as [null], and
    a lookup table prints as an object does. *)
Definition app_parseInt (o : option appvalue) : option Z :=
  match o with
  | Some (AppValue v) => parseInt v
  | Some (AppTable _) => None
  | None => parseInt VNull
  end.

(** [a > b] on numbers either of which may be [NaN] ([None]). *)
Definition js_gt (a b : option Z) : bool :=
  match a, b with
  | Some x, Some y => x >? y
  | _, _ => false
  end.

Section Configurations.
Context (C : ConfConstants).
Context (fs : FileSystem).
Context (H : Host).

(** The call returns its result together with the [application] store it
    leaves behind. *)
Definition getConfigurations (application : gmap string appvalue)
  : outcome appvalue * gmap string appvalue :=
  if negb (isExists fs (FILE_UUF_CONF C)) || isDirectory fs (FILE_UUF_CONF C)
  then (Throw (HostError
                 ("Unified UI framework configurations file '"
                  +:+ FILE_UUF_CONF C +:+ "' does not exists.")),
        application)
  else
    let cachedConf := application !! CACHE_KEY_UUF_CONF C in
    let updateCache :=
      if app_truthy cachedConf then
        let cachedConfFileLMD :=
          app_parseInt (application !! CACHE_KEY_UUF_CONF_FILE_LMD C) in
        let confFileLMD :=
          parseInt (getLastModified H (FILE_UUF_CONF C)) in
        js_gt confFileLMD cachedConfFileLMD
      else true in
    if updateCache then
      match require fs (FILE_UUF_CONF C) with
      | None => (Throw (HostError "require"), application)
      | Some conf =>
          (Ret (AppValue conf),
           <[CACHE_KEY_UUF_CONF_FILE_LMD C :=
               AppValue (VStr (to_string
                                 (getLastModified H (FILE_UUF_CONF C))))]>
             (<[CACHE_KEY_UUF_CONF C := AppValue conf]> application))
      end
    else
      match cachedConf with
      | Some cached => (Ret cached, application)
      | None => (Ret (AppValue VNull), application)
      end.

Definition getAppConfigurations (application : gmap string appvalue)
  : outcome appvalue * gmap string appvalue :=
  if negb (isExists fs (FILE_APP_CONF C)) || isDirectory fs (FILE_APP_CONF C)
  then (Throw (HostError
                 ("Application configurations file '"
                  +:+ FILE_APP_CONF C +:+ "' does not exists.")),
        application)
  else
    let cachedAppConf := application !! CACHE_KEY_APP_CONF C in
    let updateCache :=
      if app_truthy cachedAppConf then
        let cachedAppConfFileLMD :=
          app_parseInt (application !! CACHE_KEY_APP_CONF_FILE_LMD C) in
        let appConfFileLMD :=
          parseInt (getLastModified H (FILE_APP_CONF C)) in
        js_gt appConfFileLMD cachedAppConfFileLMD
      else true in
    if updateCache then
      match readAll H (FILE_APP_CONF C) with
      | None => (Throw (HostError "readAll"), application)
      | Some content =>
          let content :=
            replace_all H "${server.ip}"
                        (getProperty H "carbon.local.ip") content in
          let content :=
            replace_all H "${server.http_port}"
                        (getProperty H "carbon.http.port") content in
          let content :=
            replace_all H "${server.https_port}"
                        (getProperty H "carbon.https.port") content in
          match parse H content with
          | None => (Throw (HostError "parse"), application)
          | Some appConf =>
              (Ret (AppValue appConf),
               <[CACHE_KEY_APP_CONF_FILE_LMD C :=
                   AppValue (VStr (to_string
                                     (getLastModified H (FILE_APP_CONF C))))]>
                 (<[CACHE_KEY_APP_CONF C := AppValue appConf]> application))
          end
      end
    else
      match cachedAppConf with
      | Some cached => (Ret cached, application)
      | None => (Ret (AppValue VNull), application)
      end.

(** [session.get] gives [null] for a key that is not there. *)
Definition getCurrentUser (session : gmap string value) : value :=
  let user := default VNull (session !! CACHE_KEY_USER C) in
  if truthy user && truthy (get_prop user "username") then user
  else VNull.

(** [permissionsMap[permissions[i]] = "ui-execute"] *)
Definition permissions_body (permissionsMap permission : value) : value :=
  set_prop permissionsMap (to_string permission) (VStr "ui-execute").

(** The call leaves the [application] store and the [session] behind. *)
Definition setCurrentUser (username domain tenantId : value)
    (application : gmap string appvalue) (session : gmap string value)
  : outcome unit * gmap string appvalue * gmap string value :=
  match UserManager H tenantId with
  | None => (Throw (HostError "UserManager"), application, session)
  | Some getAllowedUIResources =>
      let '(appConf, application) := getAppConfigurations application in
      match appConf with
      | Throw e => (Throw e, application, session)
      | Diverge => (Diverge, application, session)
      | Ret appConf =>
          let conf :=
            match appConf with
            | AppValue conf => conf
            | AppTable _ => VRec []
            end in
          if is_nullish conf
          then (Throw (HostError "TypeError"), application, session)
          else
            let permissionRootPath :=
              get_prop conf (APP_CONF_PERMISSION_ROOT C) in
            let permissionRootPath :=
              if negb (truthy permissionRootPath) then VStr "/"
              else permissionRootPath in
            match getAllowedUIResources username permissionRootPath with
            | None =>
                (Throw (HostError "getAllowedUIResources"),
                 application, session)
            | Some permissions =>
                let permissionsMap :=
                  fold_left permissions_body permissions (VRec []) in
                let user :=
                  VRec [("username", username); ("domain", domain);
                        ("tenantId", tenantId);
                        ("permissions", permissionsMap)] in
                (Ret tt, application,
                 <[CACHE_KEY_USER C := user]> session)
            end
      end
  end.
End Configurations.

Module ExampleConf.
(** Modelled from the spec: [constants.js] is not among the sources; the
    file names and the keys are names chosen for the examples. *)
Definition conf_constants : ConfConstants :=
  {| FILE_UUF_CONF := "/conf/uuf.json";
     CACHE_KEY_UUF_CONF := "_UUF_CONF";
     CACHE_KEY_UUF_CONF_FILE_LMD := "_UUF_CONF_FILE_LMD";
     FILE_APP_CONF := "/conf/app.json";
     CACHE_KEY_APP_CONF := "_UUF_APP_CONF";
     CACHE_KEY_APP_CONF_FILE_LMD := "_UUF_APP_CONF_FILE_LMD";
     APP_CONF_PERMISSION_ROOT := "permissionRoot";
     CACHE_KEY_USER := "_UUF_USER" |}.

(** A file system with the two configuration files. *)
Definition fs (uuf_conf : value) : FileSystem :=
  Example.mkfs
    [("conf", Example.Dir [("uuf.json", Example.File (Some uuf_conf));
                           ("app.json", Example.File None)])].

(** A host whose files were all modified at [lmd], whose application
    configuration file parses to [app_conf] whatever its text, and where
    the user [alice] may use two resources. *)
Definition host (lmd : Z) (app_conf : value) : Host :=
  {| getLastModified _ := VNum lmd;
     readAll _ := Some "{}";
     getProperty _ := VStr "localhost";
     replace_all _ _ content := content;
     parse _ := Some app_conf;
     UserManager _ :=
       Some (fun username _ =>
               if String.eqb (to_string username) "alice"
               then Some [VStr "/login"; VStr "/apps"]
               else Some []) |}.
End ExampleConf.

Module Found.
(** The components of the table built from [Inputs.fs_family]: the div
    [a.x], its child [b.y], the disabled div [z.top] and the page
    [p.home]. *)
Definition parent_div : UIComponent :=
  components Tables.family_table !!! 0%nat.
Definition child_div : UIComponent :=
  components Tables.family_table !!! 1%nat.
Definition disabled_div : UIComponent :=
  components Tables.family_table !!! 2%nat.
Definition home_page : UIComponent :=
  components Tables.family_table !!! 3%nat.

(** The table built from [Scenarios.fs_pushed]. *)
Definition pushed_table : LookupTable :=
  match Example.build Scenarios.fs_pushed with
  | Ret t => t
  | _ =>
      {| layouts := ∅; pages := ∅; uriPagesMap := ∅; divs := ∅;
         pushedDivs := ∅; uiComponents := ∅; components := [] |}
  end.

(** A configuration document, and what [setCurrentUser] leaves when
    [alice] logs in on a host whose application configuration names
    [/apps] as the permission root. *)
Definition conf : value := VRec [("appName", VStr "store")].

Definition app_conf : value := VRec [("permissionRoot", VStr "/apps")].

Definition alice_login
  : outcome unit * gmap string appvalue * gmap string value :=
  setCurrentUser ExampleConf.conf_constants (ExampleConf.fs conf)
                 (ExampleConf.host 100 app_conf)
                 (VStr "alice") (VStr "carbon.super") (VNum 1) ∅ ∅.
End Found.

(** * Properties *)

(** ** Loops *)

Lemma bind_Ret_inv {A B} (m : outcome A) (f : A → outcome B) (b : B) :
  m ≫= f = Ret b → ∃ a, m = Ret a ∧ f a = Ret b.
Proof. destruct m; cbn; intros; eauto; discriminate. Qed.

(** An invariant [P] of the processed prefix and the state holds at the end
    of a loop that returns. *)
Lemma for_each_ind {St A} (body : nat → A → St → outcome St)
    (P : list A → St → Prop) (l pre : list A) (s s' : St) :
  for_each body (length pre) l s = Ret s' →
  P pre s →
  (∀ pre' x s1 s2,
      (pre' ++ [x]) `prefix_of` (pre ++ l) → P pre' s1 →
      body (length pre') x s1 = Ret s2 → P (pre' ++ [x]) s2) →
  P (pre ++ l) s'.
Proof.
  revert pre s. induction l as [|x l IH]; intros pre s Hrun Hpre Hstep.
  - cbn in Hrun. injection Hrun as <-. by rewrite app_nil_r.
  - cbn in Hrun. destruct (body (length pre) x s) as [s1| |] eqn:Hb; try done.
    replace (pre ++ x :: l) with ((pre ++ [x]) ++ l) in *
      by (by rewrite <- app_assoc).
    apply (IH (pre ++ [x]) s1).
    + by rewrite length_app, Nat.add_1_r.
    + apply (Hstep pre x s); [|done..].
      by apply prefix_app_r.
    + done.
Qed.

(** A loop whose body returns on every state the invariant allows returns. *)
Lemma for_each_returns {St A} (body : nat → A → St → outcome St)
    (P : list A → St → Prop) (l pre : list A) (s : St) :
  P pre s →
  (∀ pre' x s1,
      (pre' ++ [x]) `prefix_of` (pre ++ l) → P pre' s1 →
      ∃ s2, body (length pre') x s1 = Ret s2 ∧ P (pre' ++ [x]) s2) →
  ∃ s', for_each body (length pre) l s = Ret s' ∧ P (pre ++ l) s'.
Proof.
  revert pre s. induction l as [|x l IH]; intros pre s Hpre Hstep.
  - exists s. by rewrite app_nil_r.
  - cbn. destruct (Hstep pre x s) as (s1 & Hb & Hs1); [|done|].
    { exists l. by rewrite <- app_assoc. }
    rewrite Hb.
    replace (pre ++ x :: l) with ((pre ++ [x]) ++ l) in *
      by (by rewrite <- app_assoc).
    replace (S (length pre)) with (length (pre ++ [x]))
      by (by rewrite length_app, Nat.add_1_r).
    by apply IH.
Qed.

Lemma prefix_snoc_elem {A} (pre : list A) x l :
  (pre ++ [x]) `prefix_of` l → x ∈ l ∧ l !! length pre = Some x.
Proof.
  intros [k ->]. split.
  - rewrite !elem_of_app, list_elem_of_singleton. auto.
  - rewrite <- app_assoc. by apply list_lookup_middle.
Qed.

Lemma prefix_snoc_NoDup {A} (pre : list A) x l :
  NoDup l → (pre ++ [x]) `prefix_of` l → x ∉ pre.
Proof.
  intros Hnd [k ->]. rewrite <- app_assoc in Hnd.
  apply NoDup_app in Hnd as (_ & Hd & _). intros Hx.
  apply (Hd x Hx). left.
Qed.


(** ** The inheritance merge *)


Lemma extend_VObj child cls props :
  extend child (VObj cls props) =
  fold_left extend_property props (if truthy child then child else VRec []).
Proof.
  cbn [extend]. generalize (if truthy child then child else VRec []).
  induction props as [|[k v] props IH]; intros c; [done|].
  cbn [fold_left extend_property]. apply IH.
Qed.

Lemma assoc_get_set_eq {A} (ps : list (string * A)) k v :
  assoc_get (assoc_set ps k v) k = Some v.
Proof.
  induction ps as [|[k' v'] ps IH]; cbn.
  - by rewrite String.eqb_refl.
  - destruct (String.eqb k' k) eqn:E; cbn; [by rewrite String.eqb_refl|].
    by rewrite E.
Qed.

Lemma assoc_get_set_ne {A} (ps : list (string * A)) k k' v :
  k ≠ k' → assoc_get (assoc_set ps k v) k' = assoc_get ps k'.
Proof.
  intros Hne. induction ps as [|[k0 v0] ps IH]; cbn.
  - destruct (String.eqb k k') eqn:E; [|done].
    apply String.eqb_eq in E. done.
  - destruct (String.eqb k0 k) eqn:E; cbn.
    + apply String.eqb_eq in E; subst k0.
      destruct (String.eqb k k') eqn:E'; [|done].
      apply String.eqb_eq in E'. done.
    + by rewrite IH.
Qed.

Lemma extend_property_obj cls ps p :
  ∃ ps', extend_property (VObj cls ps) p = VObj cls ps'.
Proof.
  destruct p as [k v]. unfold extend_property, extend_scalar.
  repeat case_match; cbn; eauto.
Qed.

Lemma extend_property_other cls ps k k' v :
  k ≠ k' →
  get_prop (extend_property (VObj cls ps) (k, v)) k' = get_prop (VObj cls ps) k'.
Proof.
  intros Hne. unfold extend_property, extend_scalar.
  repeat case_match; cbn; by rewrite ?assoc_get_set_ne.
Qed.

Lemma extend_props_other cls ps props k :
  k ∉ props.*1 →
  get_prop (fold_left extend_property props (VObj cls ps)) k
  = get_prop (VObj cls ps) k.
Proof.
  revert ps. induction props as [|[k' v] props IH]; intros ps Hk; [done|].
  cbn [fold_left]. cbn in Hk. apply not_elem_of_cons in Hk as [Hne Hk].
  destruct (extend_property_obj cls ps (k', v)) as [ps' E].
  rewrite E, IH by done. rewrite <- E. by apply extend_property_other.
Qed.

(** C1.  The merge does not keep a sequence the child defines: whenever the
    parent holds a sequence under a field, the merged definition holds the
    parent's sequence under it, whatever the child had there (its own
    sequence, empty or not, included). *)
Theorem extend_parent_sequence_replaces_child
    (ccls pcls : objclass) (cprops pprops : list (string * value))
    (k : string) (arr : value) :
  NoDup pprops.*1 →
  assoc_get pprops k = Some arr →
  isArray arr = true →
  get_prop (extend (VObj ccls cprops) (VObj pcls pprops)) k = arr.
Proof.
  intros Hnd Hk Harr. rewrite extend_VObj. cbn [truthy].
  revert cprops Hnd Hk.
  induction pprops as [|[k' v] pprops IH]; intros cprops Hnd Hk; [done|].
  cbn in Hk, Hnd. apply NoDup_cons in Hnd as [Hk' Hnd].
  cbn [fold_left].
  destruct (extend_property_obj ccls cprops (k', v)) as [ps' E].
  destruct (String.eqb k' k) eqn:Ek.
  - apply String.eqb_eq in Ek; subst k'. injection Hk as ->.
    rewrite E, extend_props_other by done. rewrite <- E.
    unfold extend_property. rewrite Harr. cbn. by rewrite assoc_get_set_eq.
  - rewrite E. by apply IH.
Qed.

(** The merge at a child with an empty sequence and a parent with a
    non-empty one. *)
Lemma extend_parent_sequence_replaces_child_witness :
  get_prop (extend (VRec [("version", VStr "1.0"); ("pushedUris", VArr [])])
                   (VRec [("pushedUris", VArr [VStr "/a"])]))
           "pushedUris"
  = VArr [VStr "/a"].
Proof.
  apply (extend_parent_sequence_replaces_child
           ClsObject ClsObject
           [("version", VStr "1.0"); ("pushedUris", VArr [])]
           [("pushedUris", VArr [VStr "/a"])] "pushedUris" (VArr [VStr "/a"])).
  - cbn. apply NoDup_singleton.
  - reflexivity.
  - reflexivity.
Defined.


(** ** The comparator *)

Lemma indexOf_from_component_string i (l : list ref) (s : string) :
  indexOf_from i (IComponent <$> l) (IString s) = -1.
Proof. revert i. induction l as [|r l IH]; intros i; cbn; [done|apply IH]. Qed.

(** A component object is never [===] to a full name, so both searches of
    [children] fail and the comparator falls through to the names. *)
Lemma compareRawUiComponents_unfold K localeCompare a b :
  compareRawUiComponents K localeCompare a b =
  if priority K a =? priority K b
  then localeCompare (fullName a) (fullName b)
  else if priority K a >? priority K b then 1 else -1.
Proof.
  unfold compareRawUiComponents, indexOf.
  rewrite !indexOf_from_component_string. cbn.
  by repeat case_match.
Qed.

Section ComparatorOrder.
Context (K : Constants) (localeCompare : string → string → Z).
Hypothesis localeCompare_antisym :
  ∀ s t, Z.sgn (localeCompare s t) = - Z.sgn (localeCompare t s).
Hypothesis localeCompare_trans :
  ∀ s t u, localeCompare s t < 0 → localeCompare t u < 0 →
           localeCompare s u < 0.

Local Abbreviation cmp := (compareRawUiComponents K localeCompare).

(** C5 (as amended).  Over a collation whose sign turns with its
    arguments and whose [<] is transitive, the comparator orders the
    components: of [a < b], [a > b] and [a == b] exactly one holds,
    whichever of the two is asked first; swapping the arguments negates
    the sign; [<] is transitive.  The result is [0] exactly when the
    priorities are equal and [localeCompare] returns [0] on the full
    names, as it does for components of one priority and one full name. *)
Theorem compareRawUiComponents_total_order (a b c : UIComponent) :
  ((cmp a b < 0 ∧ cmp b a > 0) ∨
   (cmp a b > 0 ∧ cmp b a < 0) ∨
   (cmp a b = 0 ∧ cmp b a = 0)) ∧
  Z.sgn (cmp a b) = - Z.sgn (cmp b a) ∧
  (cmp a b < 0 → cmp b c < 0 → cmp a c < 0) ∧
  (cmp a b = 0 ↔
   priority K a = priority K b ∧
   localeCompare (fullName a) (fullName b) = 0) ∧
  (priority K a = priority K b → fullName a = fullName b → cmp a b = 0).
Proof.
  assert (Z.sgn (cmp a b) = - Z.sgn (cmp b a)) as Hanti.
  { rewrite !compareRawUiComponents_unfold.
    destruct (Z.eqb_spec (priority K a) (priority K b)) as [E|E].
    + rewrite E, Z.eqb_refl. apply localeCompare_antisym.
    + destruct (Z.eqb_spec (priority K b) (priority K a)); [congruence|].
      destruct (Z.gtb_spec (priority K a) (priority K b)),
               (Z.gtb_spec (priority K b) (priority K a)); cbn; lia. }
  assert (cmp a b = 0 ↔
          priority K a = priority K b ∧
          localeCompare (fullName a) (fullName b) = 0) as Hzero.
  { rewrite compareRawUiComponents_unfold.
    destruct (Z.eqb_spec (priority K a) (priority K b)); [tauto|].
    destruct (Z.gtb_spec (priority K a) (priority K b)); split; lia. }
  split_and!; [lia|done| |done|].
  - rewrite !compareRawUiComponents_unfold.
    destruct (Z.eqb_spec (priority K a) (priority K b)) as [E1|E1],
             (Z.eqb_spec (priority K b) (priority K c)) as [E2|E2],
             (Z.eqb_spec (priority K a) (priority K c)) as [E3|E3];
      try (exfalso; congruence);
      repeat match goal with
             | |- context [?x >? ?y] => destruct (Z.gtb_spec x y)
             end; try lia.
    apply localeCompare_trans.
  - intros Hp Hn. apply Hzero. split; [done|]. rewrite Hn.
    pose proof (localeCompare_antisym (fullName b) (fullName b)). lia.
Qed.
End ComparatorOrder.

Lemma ascii_compare_lt_trans a b c :
  Ascii.compare a b = Lt → Ascii.compare b c = Lt → Ascii.compare a c = Lt.
Proof.
  unfold Ascii.compare. rewrite !N.compare_lt_iff. lia.
Qed.

Lemma string_compare_lt_trans s t u :
  String.compare s t = Lt → String.compare t u = Lt → String.compare s u = Lt.
Proof.
  revert t u. induction s as [|a s IH]; intros [|b t] [|c u]; cbn; try done.
  destruct (Ascii.compare a b) eqn:Eab; try done.
  - apply Ascii.compare_eq_iff in Eab as ->.
    destruct (Ascii.compare b c) eqn:Ebc; try done. apply IH.
  - destruct (Ascii.compare b c) eqn:Ebc; try done.
    + apply Ascii.compare_eq_iff in Ebc as <-. by rewrite Eab.
    + by rewrite (ascii_compare_lt_trans a b c).
Qed.

Lemma example_localeCompare_antisym s t :
  Z.sgn (Example.localeCompare s t) = - Z.sgn (Example.localeCompare t s).
Proof.
  unfold Example.localeCompare. rewrite (String.compare_antisym t s).
  by destruct (String.compare s t).
Qed.

Lemma example_localeCompare_trans s t u :
  Example.localeCompare s t < 0 → Example.localeCompare t u < 0 →
  Example.localeCompare s u < 0.
Proof.
  unfold Example.localeCompare.
  destruct (String.compare s t) eqn:E1; try lia.
  destruct (String.compare t u) eqn:E2; try lia.
  by rewrite (string_compare_lt_trans s t u).
Qed.

Lemma example_localeCompare_eq s t : Example.localeCompare s t = 0 → s = t.
Proof.
  unfold Example.localeCompare.
  destruct (String.compare s t) eqn:E; try lia.
  intros _. by apply String.compare_eq_iff.
Qed.

Lemma canonical_localeCompare_antisym s t :
  Z.sgn (Canonical.localeCompare s t) = - Z.sgn (Canonical.localeCompare t s).
Proof. apply example_localeCompare_antisym. Qed.

Lemma canonical_localeCompare_trans s t u :
  Canonical.localeCompare s t < 0 → Canonical.localeCompare t u < 0 →
  Canonical.localeCompare s u < 0.
Proof. apply example_localeCompare_trans. Qed.

(** Three divs, two of them with the same priority. *)
Lemma compareRawUiComponents_total_order_witness :
  let cmp := compareRawUiComponents Example.constants Example.localeCompare in
  let a := Inputs.cx "a.x" 5 in
  let b := Inputs.cx "b.y" 5 in
  let c := Inputs.cx "c.z" 7 in
  ((cmp a b < 0 ∧ cmp b a > 0) ∨
   (cmp a b > 0 ∧ cmp b a < 0) ∨
   (cmp a b = 0 ∧ cmp b a = 0)) ∧
  Z.sgn (cmp a b) = - Z.sgn (cmp b a) ∧
  (cmp a b < 0 → cmp b c < 0 → cmp a c < 0) ∧
  (cmp a b = 0 ↔
   priority Example.constants a = priority Example.constants b ∧
   Example.localeCompare (fullName a) (fullName b) = 0) ∧
  (priority Example.constants a = priority Example.constants b →
   fullName a = fullName b → cmp a b = 0).
Proof.
  exact (compareRawUiComponents_total_order
           Example.constants Example.localeCompare
           example_localeCompare_antisym example_localeCompare_trans
           (Inputs.cx "a.x" 5) (Inputs.cx "b.y" 5) (Inputs.cx "c.z" 7)).
Defined.

(** C5, refuted as stated.  A collation may return [0] on two different
    names: [localeCompare] does so on canonically equivalent strings.  Over
    such a collation, with its sign turning with the arguments and its [<]
    transitive as before, the comparator returns [0] on two divs of one
    priority whose full names are different strings. *)
Lemma equal_comparison_of_different_names :
  (∀ s t, Z.sgn (Canonical.localeCompare s t)
          = - Z.sgn (Canonical.localeCompare t s)) ∧
  (∀ s t u, Canonical.localeCompare s t < 0 →
            Canonical.localeCompare t u < 0 →
            Canonical.localeCompare s u < 0) ∧
  compareRawUiComponents Example.constants Canonical.localeCompare
    Canonical.composed_div Canonical.decomposed_div = 0 ∧
  fullName Canonical.composed_div ≠ fullName Canonical.decomposed_div.
Proof.
  split_and!.
  - apply canonical_localeCompare_antisym.
  - apply canonical_localeCompare_trans.
  - vm_compute. reflexivity.
  - vm_compute. discriminate.
Qed.

(** C2.  A child is not sorted before its parent.  The comparator never
    looks at more than the priorities and the full names: with equal
    priorities its result is that of [localeCompare] on the names, whether
    or not one component is among the other's [children].  In the registry
    built from a parent div [a.x] of priority 5 and its child [b.y] (which
    inherits the priority), the parent lists the child among its [children],
    the comparator puts the parent first, and so does the sorted array. *)
Theorem child_sorted_after_parent :
  (∀ K localeCompare a b,
      compareRawUiComponents K localeCompare a b =
      if priority K a =? priority K b
      then localeCompare (fullName a) (fullName b)
      else if priority K a >? priority K b then 1 else -1) ∧
  ∃ h a b,
    (match Example.build Inputs.fs_family with
     | Ret t => components t
     | _ => []
     end) = h ∧
    h !! 0%nat = Some a ∧ h !! 1%nat = Some b ∧
    fullName a = "a.x" ∧ fullName b = "b.y" ∧
    children a = [1%nat] ∧ parents b = [0%nat] ∧
    priority Example.constants a = 5 ∧ priority Example.constants b = 5 ∧
    compareRawUiComponents Example.constants Example.localeCompare a b = -1 ∧
    index a = Some 1%nat ∧ index b = Some 2%nat.
Proof.
  split; [apply compareRawUiComponents_unfold|].
  eexists _, _, _. split; [vm_compute; reflexivity|].
  repeat split.
Qed.

(** ** The cache *)

(** C8.  A call of [getLookupTable] that raises an error leaves the
    [application] store, and with it the cached lookup table, as it was. *)
Theorem getLookupTable_error_keeps_cache
    (K : Constants) (localeCompare : string → string → Z)
    (array_sort : (ref → ref → Z) → list ref → list ref)
    (fs : FileSystem) (fuel : nat) (configs : value)
    (application : gmap string appvalue) (e : error) :
  (getLookupTable K localeCompare array_sort fs fuel configs application).1
    = Throw e →
  (getLookupTable K localeCompare array_sort fs fuel configs application).2
    = application.
Proof.
  unfold getLookupTable.
  repeat case_match; cbn; congruence.
Qed.

(** The build fails on a missing parent while a value is cached. *)
Lemma getLookupTable_error_keeps_cache_witness :
  (getLookupTable Example.constants Example.localeCompare Example.array_sort
                  Inputs.fs_missing_parent 100 (VRec []) Inputs.stale_cache).2
  = Inputs.stale_cache.
Proof.
  apply (getLookupTable_error_keeps_cache _ _ _ _ _ _ _
           (MissingParent "page" "p.none")).
  vm_compute. reflexivity.
Defined.

(** ** File lookup *)

Section FileLookupProperties.
Context (equals : store → ref → ref → bool).
Context (compareTo : store → ref → option ref → outcome Z).
Context (fs : FileSystem).




Lemma distance_from_found j h u ps :
  equals h u u = true → u ∈ ps → j ≤ distance_from equals j h u ps.
Proof.
  intros Hrefl. revert j. induction ps as [|p ps IH]; intros j Hu.
  - by apply elem_of_nil in Hu.
  - cbn. destruct (equals h u p) eqn:E; [lia|].
    apply elem_of_cons in Hu as [->|Hu]; [congruence|].
    specialize (IH (j + 1) Hu). lia.
Qed.



(** Where every child lists the component among its parents, [equals]
    holds of a component and itself and [compareTo] returns, the search
    returns a component. *)
Lemma getFurthestChild_returns (h : store) (u : ref) :
  (∀ r, equals h r r = true) →
  (∀ a b, ∃ z, compareTo h a (Some b) = Ret z) →
  (∀ c, c ∈ children (h !!! u) → u ∈ parents (h !!! c)) →
  ∃ d, getFurthestChild equals compareTo h u = Ret (Some d).
Proof.
  intros Hrefl Hcmp Hwf. unfold getFurthestChild.
  destruct (children (h !!! u)) as [|k ks] eqn:Hch; [by eexists|].
  cbn [length Nat.eqb]. rewrite <- Hch in *.
  destruct (for_each_returns (furthest_body equals compareTo h u)
              (fun pre st =>
                 (pre = [] ∧ st = (None, -1)) ∨
                 (∃ d, st.1 = Some d ∧ 0 ≤ st.2))
              (children (h !!! u)) [] (None, -1))
    as ([fc fcd] & Hrun & Hinv).
  - by left.
  - intros pre x [fc fcd] [Hx _]%prefix_snoc_elem Hinv. cbn in Hx.
    unfold furthest_body.
    pose proof (distance_from_found 0 h u (parents (h !!! x))
                  (Hrefl u) (Hwf x Hx)) as Hdist.
    set (dist := distance_from equals 0 h u (parents (h !!! x))) in *.
    destruct (Z.ltb_spec fcd dist) as [Hlt|Hge].
    { eexists. split; [done|]. right. by eexists. }
    destruct Hinv as [[_ [= -> ->]]|(d & Hd & Hpos)]; [lia|].
    cbn in Hd, Hpos. subst fc.
    destruct (Z.eqb_spec fcd dist) as [Heq|Hne].
    + destruct (Hcmp x d) as [z ->]. cbn.
      destruct (z =? 1), (z =? 0); eexists; (split; [done|]); right;
        by eexists.
    + eexists. split; [done|]. right. by eexists.
  - cbn in Hrun. rewrite Hrun. cbn.
    destruct Hinv as [[Hnil _]|(d & Hd & _)].
    + by rewrite Hch in Hnil.
    + cbn in Hd. subst fc. by eexists.
Qed.

End FileLookupProperties.

Lemma example_compareTo_returns h a b :
  ∃ z, Example.compareTo h a (Some b) = Ret z.
Proof. by eexists. Qed.


(** ** Stores *)

Lemma same_frame_refl n0 h : same_frame n0 h h.
Proof. repeat split; eauto. Qed.

Lemma same_frame_trans n0 h1 h2 h3 :
  same_frame n0 h1 h2 → same_frame n0 h2 h3 → same_frame n0 h1 h3.
Proof.
  intros (L1 & F1 & N1) (L2 & F2 & N2). split; [congruence|]. split.
  - intros r Hr. by rewrite F2, F1.
  - intros r c Hc. destruct (N1 r c Hc) as (c1 & Hc1 & E1).
    destruct (N2 r c1 Hc1) as (c2 & Hc2 & E2). exists c2. split; congruence.
Qed.

Lemma same_frame_alter n0 (h : store) i (f : UIComponent → UIComponent) :
  (n0 ≤ i)%nat → (∀ c, fullName (f c) = fullName c) →
  same_frame n0 h (alter f i h).
Proof.
  intros Hi Hf. split; [apply length_alter|]. split.
  - intros r Hr. apply list_lookup_alter_ne. lia.
  - intros r c Hc. rewrite list_lookup_alter. case_decide as E.
    + subst r. rewrite Hc. cbn. eauto.
    + eauto.
Qed.

Section Build.
Context (K : Constants).
Context (localeCompare : string → string → Z).
Context (array_sort : (ref → ref → Z) → list ref → list ref).
Context (fs : FileSystem).

(** *** Discovery *)

Lemma discovered_start h0 : discovered h0 [] (h0, ∅, []).
Proof.
  exists []. cbn. rewrite app_nil_r. do 3 (split; [done|]). split.
  - intros k r Hk. by rewrite lookup_empty in Hk.
  - intros k. split.
    + intros [r Hk]. by rewrite lookup_empty in Hk.
    + by intros Hk%elem_of_nil.
Qed.

Lemma discovered_push h0 names (h : store) m l comp :
  discovered h0 names (h, m, l) →
  discovered h0 (names ++ [fullName comp])
             (h ++ [comp], <[fullName comp := length h]> m, l ++ [length h]).
Proof.
  intros (new & Hh & Hl & Hn & Hm & Hdom). cbn in Hh, Hl, Hm, Hdom.
  exists (new ++ [comp]). cbn. subst h l.
  split; [by rewrite app_assoc|].
  split; [by rewrite !length_app, Nat.add_1_r, seq_S|].
  split; [by rewrite fmap_app, Hn|]. split.
  - intros k r Hk. destruct (decide (fullName comp = k)) as [E|Hne].
    + rewrite E, lookup_insert_eq in Hk. injection Hk as <-. split.
      * rewrite length_app. lia.
      * exists comp. split; [|done]. by apply list_lookup_middle.
    + rewrite lookup_insert_ne in Hk by done.
      apply Hm in Hk as (Hr & c & Hc & Hk). split; [done|].
      exists c. split; [|done].
      rewrite lookup_app_l; [done|]. by apply lookup_lt_Some in Hc.
  - intros k. rewrite elem_of_app, list_elem_of_singleton. split.
    + intros Hk. destruct (decide (fullName comp = k)) as [E|Hne];
        [by right|].
      rewrite lookup_insert_ne in Hk by done. left. by apply Hdom.
    + intros Hk. destruct (decide (fullName comp = k)) as [E|Hne].
      * by rewrite E, lookup_insert_eq.
      * rewrite lookup_insert_ne by done. apply Hdom.
        by destruct Hk.
Qed.

Lemma populate_body_discovered h0 names cp ty i name st st' :
  discovered h0 names st →
  populate_body fs cp ty i name st = Ret st' →
  discovered h0
    (names ++ if isDirectory fs (cp +:+ "/" +:+ name) then [name] else [])
    st'.
Proof.
  destruct st as [[h m] l]. intros Hd. unfold populate_body.
  destruct (isDirectory fs (cp +:+ "/" +:+ name)) eqn:Hdir; cbn.
  2:{ intros [= <-]. by rewrite app_nil_r. }
  repeat case_match; try done; intros [= <-];
    match goal with
    | |- discovered _ _ (_ ++ [?c], _, _) =>
        apply (discovered_push h0 names h m l c Hd)
    end.
Qed.

Lemma populateComponentCollections_discovered h0 names cp ty st st' :
  discovered h0 names st →
  populateComponentCollections fs cp ty st = Ret st' →
  discovered h0 (names ++ component_dirs fs cp) st'.
Proof.
  intros Hd. unfold populateComponentCollections, component_dirs.
  destruct (listFiles fs cp) as [dirs|]; [|done]. cbn. intros Hrun.
  apply (for_each_ind _
           (fun pre s =>
              discovered h0
                (names ++ List.filter
                   (fun name => isDirectory fs (cp +:+ "/" +:+ name)) pre) s)
           dirs [] st st' Hrun).
  - cbn. by rewrite app_nil_r.
  - intros pre x s1 s2 _ Hs1 Hb.
    apply (populate_body_discovered _ _ _ _ _ _ _ _ Hs1) in Hb.
    rewrite List.filter_app. cbn.
    destruct (isDirectory fs (cp +:+ "/" +:+ x));
      by rewrite ?app_nil_r, <- ?app_assoc in *.
Qed.

Lemma collection_body_discovered h0 names ty cp i coll st st' :
  discovered h0 names st →
  collection_body K fs ty cp i coll st = Ret st' →
  discovered h0
    (names ++
     if isDirectory fs (DIRECTORY_APP_COMPONENTS K +:+ "/" +:+ coll)
     then component_dirs fs (DIRECTORY_APP_COMPONENTS K +:+ "/" +:+ coll
                             +:+ cp)
     else [])
    st'.
Proof.
  intros Hd. unfold collection_body.
  destruct (isDirectory fs _); cbn.
  - by apply populateComponentCollections_discovered.
  - intros [= <-]. by rewrite app_nil_r.
Qed.

Lemma discovery_discovered h0 ty cp dirs st' :
  listFiles fs (DIRECTORY_APP_COMPONENTS K) = Some dirs →
  for_each (collection_body K fs ty cp) 0 dirs (h0, ∅, []) = Ret st' →
  discovered h0 (discovered_names K fs cp) st'.
Proof.
  intros Hls Hrun. unfold discovered_names, component_dirs at 2.
  rewrite Hls. cbn [default].
  apply (for_each_ind _
           (fun pre s =>
              discovered h0
                (concat
                   (map (fun collection =>
                           component_dirs fs
                             (DIRECTORY_APP_COMPONENTS K +:+ "/"
                              +:+ collection +:+ cp))
                        (List.filter
                           (fun name =>
                              isDirectory fs
                                (DIRECTORY_APP_COMPONENTS K +:+ "/"
                                 +:+ name)) pre))) s)
           dirs [] _ st' Hrun).
  - apply discovered_start.
  - intros pre x s1 s2 _ Hs1 Hb.
    apply (collection_body_discovered _ _ _ _ _ _ _ _ Hs1) in Hb.
    rewrite List.filter_app, map_app, concat_app. cbn.
    destruct (isDirectory fs (DIRECTORY_APP_COMPONENTS K +:+ "/" +:+ x));
      cbn; by rewrite ?app_nil_r in *.
Qed.

Lemma discovered_at_start h0 : discovered_at h0 [] (h0, ∅, []).
Proof.
  split.
  - exists []. by rewrite app_nil_r.
  - intros k r Hk. cbn in Hk. by rewrite lookup_empty in Hk.
Qed.

Lemma discovered_at_push h0 paths (h : store) m l comp :
  discovered_at h0 paths (h, m, l) →
  discovered_at h0 (paths ++ [path comp])
                (h ++ [comp], <[fullName comp := length h]> m,
                 l ++ [length h]).
Proof.
  intros [(new & Hh & Hp) Hlatest]. cbn in Hh, Hlatest. split; cbn.
  - exists (new ++ [comp]). subst h.
    split; [by rewrite app_assoc|by rewrite fmap_app, Hp].
  - intros k r Hk r' c' Hr' Hc' Hname.
    pose proof (lookup_lt_Some _ _ _ Hc') as Hlt.
    rewrite length_app in Hlt. cbn in Hlt.
    destruct (decide (fullName comp = k)) as [E|Hne].
    + rewrite E, lookup_insert_eq in Hk. injection Hk as <-. lia.
    + rewrite lookup_insert_ne in Hk by done.
      destruct (decide (r' = length h)) as [->|Hr].
      * rewrite list_lookup_middle in Hc' by done. congruence.
      * rewrite lookup_app_l in Hc' by lia.
        by apply (Hlatest k r Hk r' c').
Qed.

Lemma populate_body_discovered_at h0 paths cp ty i name st st' :
  discovered_at h0 paths st →
  populate_body fs cp ty i name st = Ret st' →
  discovered_at h0
    (paths ++ if isDirectory fs (cp +:+ "/" +:+ name)
              then [cp +:+ "/" +:+ name] else [])
    st'.
Proof.
  destruct st as [[h m] l]. intros Hd. unfold populate_body.
  destruct (isDirectory fs (cp +:+ "/" +:+ name)) eqn:Hdir; cbn.
  2:{ intros [= <-]. by rewrite app_nil_r. }
  repeat case_match; try done; intros [= <-];
    match goal with
    | |- discovered_at _ _ (_ ++ [?c], _, _) =>
        apply (discovered_at_push h0 paths h m l c Hd)
    end.
Qed.

Lemma populateComponentCollections_discovered_at h0 paths cp ty st st' :
  discovered_at h0 paths st →
  populateComponentCollections fs cp ty st = Ret st' →
  discovered_at h0
    (paths ++ ((fun name => cp +:+ "/" +:+ name) <$> component_dirs fs cp))
    st'.
Proof.
  intros Hd. unfold populateComponentCollections, component_dirs.
  destruct (listFiles fs cp) as [dirs|]; [|done]. cbn. intros Hrun.
  apply (for_each_ind _
           (fun pre s =>
              discovered_at h0
                (paths ++
                 ((fun name => cp +:+ "/" +:+ name) <$>
                  List.filter
                    (fun name => isDirectory fs (cp +:+ "/" +:+ name)) pre))
                s)
           dirs [] st st' Hrun).
  - cbn. by rewrite app_nil_r.
  - intros pre x s1 s2 _ Hs1 Hb.
    apply (populate_body_discovered_at _ _ _ _ _ _ _ _ Hs1) in Hb.
    rewrite List.filter_app, fmap_app. cbn.
    destruct (isDirectory fs (cp +:+ "/" +:+ x));
      by rewrite ?app_nil_r, <- ?app_assoc in *.
Qed.

Lemma collection_body_discovered_at h0 paths ty cp i coll st st' :
  discovered_at h0 paths st →
  collection_body K fs ty cp i coll st = Ret st' →
  discovered_at h0
    (paths ++
     if isDirectory fs (DIRECTORY_APP_COMPONENTS K +:+ "/" +:+ coll)
     then (fun name =>
             (DIRECTORY_APP_COMPONENTS K +:+ "/" +:+ coll +:+ cp)
             +:+ "/" +:+ name)
          <$> component_dirs fs (DIRECTORY_APP_COMPONENTS K +:+ "/" +:+ coll
                                 +:+ cp)
     else [])
    st'.
Proof.
  intros Hd. unfold collection_body.
  destruct (isDirectory fs _); cbn.
  - by apply populateComponentCollections_discovered_at.
  - intros [= <-]. by rewrite app_nil_r.
Qed.

Lemma discovery_discovered_at h0 ty cp dirs st' :
  listFiles fs (DIRECTORY_APP_COMPONENTS K) = Some dirs →
  for_each (collection_body K fs ty cp) 0 dirs (h0, ∅, []) = Ret st' →
  discovered_at h0 (discovered_paths K fs cp) st'.
Proof.
  intros Hls Hrun. unfold discovered_paths, component_dirs at 2.
  rewrite Hls. cbn [default].
  apply (for_each_ind _
           (fun pre s =>
              discovered_at h0
                (concat
                   (map (fun collection =>
                           (fun name =>
                              (DIRECTORY_APP_COMPONENTS K +:+ "/"
                               +:+ collection +:+ cp) +:+ "/" +:+ name)
                           <$> component_dirs fs
                                 (DIRECTORY_APP_COMPONENTS K +:+ "/"
                                  +:+ collection +:+ cp))
                        (List.filter
                           (fun name =>
                              isDirectory fs
                                (DIRECTORY_APP_COMPONENTS K +:+ "/"
                                 +:+ name)) pre))) s)
           dirs [] _ st' Hrun).
  - apply discovered_at_start.
  - intros pre x s1 s2 _ Hs1 Hb.
    apply (collection_body_discovered_at _ _ _ _ _ _ _ _ Hs1) in Hb.
    rewrite List.filter_app, map_app, concat_app. cbn.
    destruct (isDirectory fs (DIRECTORY_APP_COMPONENTS K +:+ "/" +:+ x));
      cbn; by rewrite ?app_nil_r in *.
Qed.

(** *** Inheritance chaining *)

Lemma inherit_chain_frame n0 fuel ty (m : gmap string ref) c pn h h' :
  (∀ k r, m !! k = Some r → (n0 ≤ r)%nat) → (n0 ≤ c)%nat →
  inherit_chain K fuel ty m c pn h = Ret h' →
  same_frame n0 h h'.
Proof.
  intros Hm Hc. revert pn h.
  induction fuel as [|fuel IH]; intros pn h; cbn [inherit_chain].
  - destruct (truthy pn); [done|]. intros [= <-]. apply same_frame_refl.
  - destruct (truthy pn); [|intros [= <-]; apply same_frame_refl].
    destruct (m !! to_string pn) as [p|] eqn:Hp; [|done].
    cbv zeta. case_match; [done|]. intros Hrun%IH.
    eapply same_frame_trans; [|exact Hrun].
    eapply same_frame_trans; [eapply same_frame_trans|].
    + apply (same_frame_alter n0 h p (push_child c)); [by eapply Hm|done].
    + apply (same_frame_alter n0 _ c (push_parent p)); done.
    + apply same_frame_alter; done.
Qed.

Lemma inherit_loop_frame n0 fuel ty (m : gmap string ref) (l : list ref)
    h h' :
  (∀ k r, m !! k = Some r → (n0 ≤ r)%nat) →
  (∀ c, c ∈ l → (n0 ≤ c)%nat) →
  for_each (inherit_body K fuel ty m) 0 l h = Ret h' →
  same_frame n0 h h'.
Proof.
  intros Hm Hl Hrun.
  apply (for_each_ind _ (fun _ s => same_frame n0 h s) l [] h h' Hrun).
  - apply same_frame_refl.
  - intros pre x s1 s2 [Hx _]%prefix_snoc_elem Hs1 Hb.
    eapply same_frame_trans; [exact Hs1|].
    unfold inherit_body in Hb. case_match; [done|].
    eapply inherit_chain_frame; [done| |exact Hb]. by apply Hl.
Qed.

Lemma same_paths_alter (h : store) i (f : UIComponent → UIComponent) :
  (∀ c, path (f c) = path c) → same_paths h (alter f i h).
Proof.
  intros Hf r c Hc. rewrite list_lookup_alter. case_decide as E.
  - subst r. rewrite Hc. cbn. eauto.
  - eauto.
Qed.

Lemma same_paths_trans h1 h2 h3 :
  same_paths h1 h2 → same_paths h2 h3 → same_paths h1 h3.
Proof.
  intros N1 N2 r c Hc. destruct (N1 r c Hc) as (c1 & Hc1 & E1).
  destruct (N2 r c1 Hc1) as (c2 & Hc2 & E2). exists c2. split; congruence.
Qed.

Lemma inherit_chain_paths fuel ty (m : gmap string ref) c pn h h' :
  inherit_chain K fuel ty m c pn h = Ret h' → same_paths h h'.
Proof.
  revert pn h.
  induction fuel as [|fuel IH]; intros pn h; cbn [inherit_chain].
  - destruct (truthy pn); [done|]. intros [= <-] r x Hx. eauto.
  - destruct (truthy pn); [|intros [= <-] r x Hx; eauto].
    destruct (m !! to_string pn) as [p|] eqn:Hp; [|done].
    cbv zeta. case_match; [done|]. intros Hrun%IH.
    eapply same_paths_trans; [|exact Hrun].
    eapply same_paths_trans; [eapply same_paths_trans|];
      by apply same_paths_alter.
Qed.

Lemma inherit_loop_paths fuel ty (m : gmap string ref) (l : list ref) h h' :
  for_each (inherit_body K fuel ty m) 0 l h = Ret h' → same_paths h h'.
Proof.
  intros Hrun.
  apply (for_each_ind _ (fun _ s => same_paths h s) l [] h h' Hrun).
  - intros r x Hx. eauto.
  - intros pre x s1 s2 _ Hs1 Hb.
    eapply same_paths_trans; [exact Hs1|].
    unfold inherit_body in Hb. case_match; [done|].
    by eapply inherit_chain_paths.
Qed.

Lemma fullNames_new (h0 new h' : store) :
  (∀ r c, (h0 ++ new) !! r = Some c →
          ∃ c', h' !! r = Some c' ∧ fullName c' = fullName c) →
  fullNames h' (seq (length h0) (length new)) = fullName <$> new.
Proof.
  intros Hn. apply list_eq. intros i. unfold fullNames.
  rewrite !list_lookup_fmap.
  destruct (new !! i) as [c|] eqn:Hc.
  - pose proof (lookup_lt_Some _ _ _ Hc) as Hi.
    assert (seq (length h0) (length new) !! i = Some (length h0 + i)%nat)
      as -> by (by apply lookup_seq).
    cbn. destruct (Hn (length h0 + i)%nat c) as (c' & Hc' & E).
    { rewrite lookup_app_r by lia.
      by replace (length h0 + i - length h0)%nat with i by lia. }
    by rewrite (list_lookup_total_correct _ _ _ Hc'), E.
  - apply lookup_ge_None in Hc.
    rewrite (lookup_ge_None_2 (seq _ _)); [done|]. by rewrite length_seq.
Qed.

(** What [getUiComponentsData] returns: [n] components added to the
    store, the earlier ones untouched; the array is the sorted list of the
    new references; the new components bear the discovered names, in
    discovery order; the map leads from every discovered name to a new
    component of that name. *)
Lemma getUiComponentsData_spec fuel ty cp h0 cd h' :
  getUiComponentsData K localeCompare array_sort fs fuel ty cp h0
    = Ret (cd, h') →
  ∃ n,
    length h' = (length h0 + n)%nat ∧
    (∀ r, (r < length h0)%nat → h' !! r = h0 !! r) ∧
    cd_array cd =
      array_sort
        (fun a b =>
           compareRawUiComponents K localeCompare (h' !!! a) (h' !!! b))
        (seq (length h0) n) ∧
    fullNames h' (seq (length h0) n) = discovered_names K fs cp ∧
    (∀ k r, cd_map cd !! k = Some r →
            (length h0 ≤ r < length h')%nat ∧
            ∃ c, h' !! r = Some c ∧ fullName c = k) ∧
    (∀ k, is_Some (cd_map cd !! k) ↔ k ∈ discovered_names K fs cp).
Proof.
  unfold getUiComponentsData.
  destruct (listFiles fs (DIRECTORY_APP_COMPONENTS K)) as [dirs|] eqn:Hls;
    [|done].
  intros ([[h1 m] l] & Hdisc & Hrest)%bind_Ret_inv.
  apply bind_Ret_inv in Hrest as (h2 & Hinh & [= <- <-]).
  apply (discovery_discovered _ _ _ _ _ Hls) in Hdisc
    as (new & Hh1 & Hl & Hnames & Hm & Hdom).
  cbn in Hh1, Hl, Hm, Hdom. subst h1 l.
  apply (inherit_loop_frame (length h0)) in Hinh as (Hlen & Hold & Hnew).
  2:{ intros k r Hk. by apply Hm in Hk as [? _]. }
  2:{ intros c Hc%elem_of_seq. lia. }
  exists (length new). cbn [cd_array cd_map].
  split; [by rewrite Hlen, length_app|]. split.
  { intros r Hr. rewrite Hold by done. by apply lookup_app_l. }
  split; [done|]. split.
  { rewrite <- Hnames. by apply fullNames_new. }
  split; [|done].
  intros k r Hk. apply Hm in Hk as (Hr & c & Hc & Hname).
  destruct (Hnew r c Hc) as (c' & Hc' & E). split.
  - split; [done|]. by apply lookup_lt_Some in Hc'.
  - exists c'. split; [done|congruence].
Qed.

(** Where [getUiComponentsData] puts what it finds: the component of the
    [i]-th discovered directory stands in the store at the [i]-th place
    after the earlier components, and the map keeps, for every name, the
    component that was discovered last. *)
Lemma getUiComponentsData_places fuel ty cp h0 cd h' :
  getUiComponentsData K localeCompare array_sort fs fuel ty cp h0
    = Ret (cd, h') →
  length h' = (length h0 + length (discovered_paths K fs cp))%nat ∧
  (∀ i p, discovered_paths K fs cp !! i = Some p →
          ∃ c, h' !! (length h0 + i)%nat = Some c ∧ path c = p) ∧
  keeps_latest (length h0) h' (cd_map cd).
Proof.
  unfold getUiComponentsData.
  destruct (listFiles fs (DIRECTORY_APP_COMPONENTS K)) as [dirs|] eqn:Hls;
    [|done].
  intros ([[h1 m] l] & Hdisc & Hrest)%bind_Ret_inv.
  apply bind_Ret_inv in Hrest as (h2 & Hinh & [= <- <-]).
  pose proof (discovery_discovered _ _ _ _ _ Hls Hdisc)
    as (new0 & Hh0 & Hl & _ & Hm & _).
  apply (discovery_discovered_at _ _ _ _ _ Hls) in Hdisc
    as [(new & Hh1 & Hpaths) Hlatest].
  cbn in Hh0, Hl, Hm, Hh1, Hlatest. subst h1 l.
  pose proof (inherit_loop_paths _ _ _ _ _ _ Hinh) as Hsame.
  apply (inherit_loop_frame (length h0)) in Hinh as (Hlen & Hold & Hnew).
  2:{ intros k r Hk. by apply Hm in Hk as [? _]. }
  2:{ intros c Hc%elem_of_seq. lia. }
  cbn [cd_map]. split_and!.
  - by rewrite Hlen, length_app, <- Hpaths, length_fmap.
  - intros i p Hi. rewrite <- Hpaths, list_lookup_fmap in Hi.
    destruct (new !! i) as [c|] eqn:Hc; [|done]. injection Hi as <-.
    apply (Hsame (length h0 + i)%nat c).
    rewrite lookup_app_r by lia.
    by replace (length h0 + i - length h0)%nat with i by lia.
  - intros k r Hk r' c' Hr' Hc' Hname.
    pose proof (lookup_lt_Some _ _ _ Hc') as Hlt. rewrite Hlen in Hlt.
    destruct (lookup_lt_is_Some_2 _ _ Hlt) as [c Hc].
    destruct (Hnew r' c Hc) as (c2 & Hc2 & E).
    apply (Hlatest k r Hk r' c Hr' Hc). congruence.
Qed.

(** *** The loops over the divs and over the pages *)

Lemma alter_lookup_total (f : UIComponent → UIComponent) (h : store) x c :
  h !! x = Some c → alter f x h !!! x = f c.
Proof.
  intros Hc. apply list_lookup_total_correct.
  rewrite list_lookup_alter. case_decide; [|done]. by rewrite Hc.
Qed.

Lemma div_body_step i x (h : store) pd all st' c :
  h !! x = Some c →
  div_body K i x (h, pd, all) = Ret st' →
  let d := parseBoolean
             (get_prop (definition c) (UI_COMPONENT_DEFINITION_DISABLED K))
             VUndefined in
  st'.1.1 = alter (set_index_disabled i d) x h ∧
  ((truthy d = true ∧ st'.1.2 = pd ∧ st'.2 = all) ∨
   (truthy d = false ∧ st'.2 = <[fullName c := x]> all ∧
    (st'.1.2 = pd ∨
     (children c = [] ∧
      ∃ els, st'.1.2 = fold_left (push_div (fullName c)) els pd)))).
Proof.
  intros Hc. unfold div_body.
  rewrite (list_lookup_total_correct _ _ _ Hc).
  rewrite (alter_lookup_total _ _ _ _ Hc). cbn.
  destruct (truthy (parseBoolean _ _)) eqn:Hd.
  { intros [= <-]. cbn. auto. }
  destruct (children c) as [|k ks] eqn:Hch; cbn.
  2:{ intros [= <-]. cbn. auto 6. }
  repeat case_match; try done; intros [= <-]; cbn;
    (split; [done|]); right; (split; [done|]); (split; [done|]); eauto.
Qed.

Lemma page_body_step layoutsData off j x (h : store) um all st' c :
  h !! x = Some c →
  page_body K fs layoutsData off j x (h, um, all) = Ret st' →
  let d := parseBoolean
             (get_prop (definition c) (UI_COMPONENT_DEFINITION_DISABLED K))
             VUndefined in
  st'.1.1 = alter (set_index_disabled (off + j) d) x h ∧
  ((truthy d = true ∧ st'.1.2 = um ∧ st'.2 = all) ∨
   (truthy d = false ∧ st'.2 = <[fullName c := x]> all ∧
    (st'.1.2 = um ∨
     (children c = [] ∧ ∃ uri, st'.1.2 = <[uri := fullName c]> um)))).
Proof.
  intros Hc. unfold page_body.
  rewrite (list_lookup_total_correct _ _ _ Hc).
  rewrite (alter_lookup_total _ _ _ _ Hc). cbn.
  destruct (truthy (parseBoolean _ _)) eqn:Hd.
  { intros [= <-]. cbn. auto. }
  destruct (children c) as [|k ks] eqn:Hch; cbn.
  2:{ intros [= <-]. cbn. auto 6. }
  repeat case_match; try done; intros [= <-]; cbn;
    (split; [done|]); right; (split; [done|]); (split; [done|]); eauto.
Qed.
End Build.

(** The two loops of [getLookupTable] have one shape: the component gets its
    [index] and [disabled] flag; a disabled one is passed over; an enabled one
    enters [allUiComponents]; and only one without children may go on to be
    registered. *)
Section RegistrationLoop.
Context {Reg : Type}.
Context (body : nat → ref → store * Reg * gmap string ref →
                outcome (store * Reg * gmap string ref)).
Context (off : nat) (dis : UIComponent → value).
Context (mentions : Reg → string → Prop).
Context (registers : string → Reg → Reg → Prop).

Hypothesis body_step :
  ∀ i x (h : store) reg all st' c,
    h !! x = Some c → body i x (h, reg, all) = Ret st' →
    st'.1.1 = alter (set_index_disabled (off + i) (dis c)) x h ∧
    ((truthy (dis c) = true ∧ st'.1.2 = reg ∧ st'.2 = all) ∨
     (truthy (dis c) = false ∧ st'.2 = <[fullName c := x]> all ∧
      (st'.1.2 = reg ∨
       (children c = [] ∧ registers (fullName c) reg st'.1.2)))).

Hypothesis registers_mentions :
  ∀ name reg reg' n,
    registers name reg reg' → mentions reg' n → mentions reg n ∨ n = name.

Lemma registration_loop (h0 : store) reg0 all0 (arr : list ref) st' :
  NoDup arr → (∀ r, r ∈ arr → (r < length h0)%nat) →
  (∀ n, ¬ mentions reg0 n) →
  for_each body 0 arr (h0, reg0, all0) = Ret st' →
  (length st'.1.1 = length h0 ∧
   ∀ r c, h0 !! r = Some c →
          ∃ c', st'.1.1 !! r = Some c' ∧ same_links c c') ∧
  (∀ r, r ∉ arr → st'.1.1 !! r = h0 !! r) ∧
  (∀ i r, arr !! i = Some r →
          ∃ c, st'.1.1 !! r = Some c ∧ index c = Some (off + i)%nat) ∧
  (∀ n, mentions st'.1.2 n →
        ∃ r c, r ∈ arr ∧ st'.1.1 !! r = Some c ∧ fullName c = n ∧
               children c = [] ∧ truthy (disabled c) = false) ∧
  (∀ n r, st'.2 !! n = Some r →
          all0 !! n = Some r ∨
          (r ∈ arr ∧ ∃ c, st'.1.1 !! r = Some c ∧ fullName c = n ∧
                          truthy (disabled c) = false)).
Proof.
  intros Hnd Hrange Hreg0 Hrun.
  apply (for_each_ind body
           (fun pre st =>
              (length st.1.1 = length h0 ∧
               ∀ r c, h0 !! r = Some c →
                      ∃ c', st.1.1 !! r = Some c' ∧ same_links c c') ∧
              (∀ r, r ∉ pre → st.1.1 !! r = h0 !! r) ∧
              (∀ i r, pre !! i = Some r →
                      ∃ c, st.1.1 !! r = Some c ∧
                           index c = Some (off + i)%nat) ∧
              (∀ n, mentions st.1.2 n →
                    ∃ r c, r ∈ pre ∧ st.1.1 !! r = Some c ∧ fullName c = n ∧
                           children c = [] ∧ truthy (disabled c) = false) ∧
              (∀ n r, st.2 !! n = Some r →
                      all0 !! n = Some r ∨
                      (r ∈ pre ∧ ∃ c, st.1.1 !! r = Some c ∧ fullName c = n ∧
                                      truthy (disabled c) = false)))
           arr [] _ st' Hrun).
  - cbn. split; [split; [done|]|split; [done|split; [|split]]].
    + intros r c Hc. exists c. by repeat split.
    + intros i r Hi. by rewrite lookup_nil in Hi.
    + intros n Hn. by apply Hreg0 in Hn.
    + intros n r Hn. by left.
  - clear Hrun st'. intros pre x [[h1 reg1] all1] st2 Hpre Hinv Hb.
    cbn [fst snd] in Hinv.
    destruct Hinv as ((Hlen & Hlinks) & Huntouched & Hindex & Hment & Hall).
    pose proof (prefix_snoc_NoDup _ _ _ Hnd Hpre) as Hxpre.
    apply prefix_snoc_elem in Hpre as [Hxarr _]. cbn in Hxarr.
    assert (is_Some (h1 !! x)) as [c Hc].
    { apply lookup_lt_is_Some_2. rewrite Hlen. by apply Hrange. }
    destruct (body_step _ _ _ _ _ _ _ Hc Hb) as (Hh2 & Hcases).
    destruct st2 as [[h2 reg2] all2]. cbn [fst snd] in *.
    set (c' := set_index_disabled (off + length pre) (dis c) c) in *.
    assert (h2 !! x = Some c') as Hx2.
    { rewrite Hh2, list_lookup_alter. case_decide; [|done]. by rewrite Hc. }
    assert (∀ r, r ≠ x → h2 !! r = h1 !! r) as Hother.
    { intros r Hr. rewrite Hh2. by apply list_lookup_alter_ne. }
    assert (∀ r, r ∈ pre → h2 !! r = h1 !! r) as Hpre_same.
    { intros r Hr. apply Hother. by intros ->. }
    split; [split|split; [|split; [|split]]].
    + by rewrite Hh2, length_alter.
    + intros r c0 Hc0. destruct (Hlinks r c0 Hc0) as (c1 & Hc1 & Hsl).
      destruct (decide (r = x)) as [->|Hne].
      * exists c'. split; [done|].
        assert (c1 = c) as -> by congruence. exact Hsl.
      * exists c1. by rewrite Hother.
    + intros r [Hr1 Hr2%not_elem_of_cons]%not_elem_of_app.
      rewrite Hother by tauto. by apply Huntouched.
    + intros i r Hi. apply lookup_app_Some in Hi as [Hi|[Hge Hi]].
      * rewrite Hpre_same by (by eapply list_elem_of_lookup_2).
        by apply Hindex.
      * apply list_lookup_singleton_Some in Hi as [Hi <-].
        exists c'. split; [done|]. cbn. do 2 f_equal. lia.
    + intros n Hn.
      assert (mentions reg1 n ∨
              (n = fullName c ∧ children c = [] ∧ truthy (dis c) = false))
        as [Hold|(-> & Hch & Hdis)].
      { destruct Hcases as [(_ & -> & _)|(Hdis & _ & [->|[Hch Hreg]])];
          [by left..|].
        destruct (registers_mentions _ _ _ _ Hreg Hn); [by left|].
        by right. }
      * destruct (Hment n Hold) as (r & c1 & Hr & Hc1 & Hrest).
        exists r, c1. rewrite elem_of_app, Hpre_same by done. tauto.
      * exists x, c'. rewrite elem_of_app, list_elem_of_singleton.
        by repeat split; [right|..].
    + intros n r Hn.
      assert (all1 !! n = Some r ∨
              (r = x ∧ n = fullName c ∧ truthy (dis c) = false))
        as [Hold|(-> & -> & Hdis)].
      { destruct Hcases as [(_ & _ & ->)|(Hdis & -> & _)]; [by left|].
        destruct (decide (fullName c = n)) as [<-|Hne].
        - rewrite lookup_insert_eq in Hn. injection Hn as <-. by right.
        - rewrite lookup_insert_ne in Hn by done. by left. }
      * destruct (Hall n r Hold) as [?|(Hr & c1 & Hc1 & Hrest)];
          [by left|right].
        rewrite elem_of_app, Hpre_same by done. eauto.
      * right. rewrite elem_of_app, list_elem_of_singleton.
        split; [by right|]. by exists c'.
Qed.
End RegistrationLoop.

Lemma push_div_mentions name (els : list value)
    (pd : gmap string (list string)) pat names n :
  fold_left (push_div name) els pd !! pat = Some names → n ∈ names →
  (∃ pat' names', pd !! pat' = Some names' ∧ n ∈ names') ∨ n = name.
Proof.
  revert pd. induction els as [|e els IH]; intros pd Hp Hn; cbn in Hp.
  - left. eauto.
  - destruct (IH _ Hp Hn) as [(pat' & names' & Hp' & Hn')|]; [|by right].
    unfold push_div in Hp'.
    destruct (decide (to_string e = pat')) as [<-|Hne].
    + rewrite lookup_insert_eq in Hp'. injection Hp' as <-.
      apply elem_of_app in Hn' as [Hn'|Hn'%list_elem_of_singleton];
        [|by right].
      destruct (pd !! to_string e) as [old|] eqn:Hold; cbn in Hn'.
      * left. eauto.
      * by apply elem_of_nil in Hn'.
    + rewrite lookup_insert_ne in Hp' by done. left. eauto.
Qed.

(** ** The registry build *)

Lemma example_insert_sorted_perm cmp x l :
  Example.insert_sorted cmp x l ≡ₚ x :: l.
Proof.
  induction l as [|y l IH]; cbn; [done|].
  case_match; [done|]. rewrite IH. apply Permutation_swap.
Qed.

Lemma example_array_sort_perm cmp l : Example.array_sort cmp l ≡ₚ l.
Proof.
  unfold Example.array_sort. induction l as [|x l IH]; cbn; [done|].
  by rewrite example_insert_sorted_perm, IH.
Qed.

Section BuildProperties.
Context (K : Constants).
Context (localeCompare : string → string → Z).
Context (array_sort : (ref → ref → Z) → list ref → list ref).
Context (fs : FileSystem).

(** All that is asked of the host's sort: it rearranges the array. *)
Hypothesis array_sort_perm : ∀ cmp l, array_sort cmp l ≡ₚ l.

Lemma sorted_array_facts fuel ty cp h0 cd h' :
  getUiComponentsData K localeCompare array_sort fs fuel ty cp h0
    = Ret (cd, h') →
  NoDup (cd_array cd) ∧
  (∀ r, r ∈ cd_array cd ↔ (length h0 ≤ r < length h')%nat) ∧
  (length h0 + length (cd_array cd))%nat = length h' ∧
  cd_array cd ≡ₚ seq (length h0) (length (cd_array cd)).
Proof.
  intros (n & Hlen & _ & Harr & _)%getUiComponentsData_spec.
  assert (cd_array cd ≡ₚ seq (length h0) n) as Hperm
    by (rewrite Harr; apply array_sort_perm).
  assert (length (cd_array cd) = n) as Hn
    by (by rewrite Hperm, length_seq).
  split; [rewrite Hperm; apply NoDup_seq|]. split; [|split].
  - intros r. rewrite Hperm, elem_of_seq. lia.
  - lia.
  - by rewrite Hn.
Qed.

Lemma buildLookupTable_inv fuel t :
  buildLookupTable K localeCompare array_sort fs fuel = Ret t →
  ∃ layoutsData divsData hd h1 all1 pagesData hp,
    getUiComponentsData K localeCompare array_sort fs fuel "div"
      (DIRECTORY_APP_DIVS K) [] = Ret (divsData, hd) ∧
    for_each (div_body K) 0 (cd_array divsData) (hd, ∅, ∅)
      = Ret (h1, pushedDivs t, all1) ∧
    getUiComponentsData K localeCompare array_sort fs fuel "page"
      (DIRECTORY_APP_PAGES K) h1 = Ret (pagesData, hp) ∧
    for_each (page_body K fs layoutsData (length (cd_array divsData))) 0
             (cd_array pagesData) (hp, ∅, all1)
      = Ret (components t, uriPagesMap t, uiComponents t) ∧
    divs t = cd_map divsData ∧ pages t = cd_map pagesData.
Proof.
  unfold buildLookupTable.
  intros (layoutsData & _ & H)%bind_Ret_inv.
  apply bind_Ret_inv in H as ([divsData hd] & Hd & H).
  apply bind_Ret_inv in H as ([[h1 pd] all1] & Hdl & H).
  apply bind_Ret_inv in H as ([pagesData hp] & Hp & H).
  apply bind_Ret_inv in H as ([[h um] all] & Hpl & [= <-]).
  by exists layoutsData, divsData, hd, h1, all1, pagesData, hp.
Qed.

(** What a successful build establishes, in terms of the two sorted arrays
    [getUiComponentsData] has returned. *)
Lemma build_facts fuel t :
  buildLookupTable K localeCompare array_sort fs fuel = Ret t →
  ∃ divsData hd pagesData h1 hp,
    getUiComponentsData K localeCompare array_sort fs fuel "div"
      (DIRECTORY_APP_DIVS K) [] = Ret (divsData, hd) ∧
    getUiComponentsData K localeCompare array_sort fs fuel "page"
      (DIRECTORY_APP_PAGES K) h1 = Ret (pagesData, hp) ∧
    (∀ i r, cd_array divsData !! i = Some r →
            ∃ c, components t !! r = Some c ∧ index c = Some i) ∧
    (∀ j r, cd_array pagesData !! j = Some r →
            ∃ c, components t !! r = Some c ∧
                 index c = Some (length (cd_array divsData) + j)%nat) ∧
    (∀ r, (r < length (components t))%nat →
          r ∈ cd_array divsData ∨ r ∈ cd_array pagesData) ∧
    (∀ pat names n, pushedDivs t !! pat = Some names → n ∈ names →
                    ∃ r c, r ∈ cd_array divsData ∧
                           components t !! r = Some c ∧ fullName c = n ∧
                           children c = [] ∧ truthy (disabled c) = false) ∧
    (∀ uri n, uriPagesMap t !! uri = Some n →
              ∃ r c, r ∈ cd_array pagesData ∧
                     components t !! r = Some c ∧ fullName c = n ∧
                     children c = [] ∧ truthy (disabled c) = false) ∧
    (∀ n r, uiComponents t !! n = Some r →
            ∃ c, components t !! r = Some c ∧ fullName c = n ∧
                 truthy (disabled c) = false) ∧
    (∀ n r, divs t !! n = Some r →
            r ∈ cd_array divsData ∧
            ∃ c, components t !! r = Some c ∧ fullName c = n) ∧
    (∀ n r, pages t !! n = Some r →
            r ∈ cd_array pagesData ∧
            ∃ c, components t !! r = Some c ∧ fullName c = n) ∧
    fullNames (components t) (cd_array divsData)
      ≡ₚ discovered_names K fs (DIRECTORY_APP_DIVS K) ∧
    fullNames (components t) (cd_array pagesData)
      ≡ₚ discovered_names K fs (DIRECTORY_APP_PAGES K) ∧
    divs t = cd_map divsData ∧ pages t = cd_map pagesData.
Proof.
  intros (layoutsData & dd & hd & h1 & all1 & pdta & hp
          & Hd & Hdl & Hp & Hpl & Edivs & Epages)%buildLookupTable_inv.
  exists dd, hd, pdta, h1, hp. split; [done|]. split; [done|].
  destruct (sorted_array_facts _ _ _ _ _ _ Hd)
    as (Hnd_d & Hin_d & Hlen_d & Hperm_d).
  destruct (sorted_array_facts _ _ _ _ _ _ Hp)
    as (Hnd_p & Hin_p & Hlen_p & Hperm_p).
  destruct (getUiComponentsData_spec _ _ _ _ _ _ _ _ _ _ Hd)
    as (nd & Hnd & _ & _ & Hnames_d & Hmap_d & _).
  destruct (getUiComponentsData_spec _ _ _ _ _ _ _ _ _ _ Hp)
    as (np & Hnp & Hframe & _ & Hnames_p & Hmap_p & _).
  assert (length (cd_array dd) = nd) as <- by (cbn in *; lia).
  assert (length (cd_array pdta) = np) as <- by lia.
  cbn [length] in Hin_d, Hlen_d, Hperm_d.
  (* the loop over the divs *)
  assert (∀ r, r ∈ cd_array dd → (r < length hd)%nat) as Hrange_d
    by (intros r Hr%Hin_d; lia).
  assert (∀ name (reg reg' : gmap string (list string)) n,
            (∃ els, reg' = fold_left (push_div name) els reg) →
            (∃ pat names, reg' !! pat = Some names ∧ n ∈ names) →
            (∃ pat names, reg !! pat = Some names ∧ n ∈ names) ∨ n = name)
    as Hregs_d.
  { intros name reg reg' n [els ->] (pat & names & Hpat & Hn).
    by apply (push_div_mentions name els reg pat names n). }
  assert (∀ n, ¬ ∃ pat names,
              (∅ : gmap string (list string)) !! pat = Some names
              ∧ n ∈ names) as Hnone_d.
  { intros n (pat & names & Hpat & _). by rewrite lookup_empty in Hpat. }
  destruct (registration_loop (div_body K) 0
              (fun c => parseBoolean
                 (get_prop (definition c)
                           (UI_COMPONENT_DEFINITION_DISABLED K))
                 VUndefined)
              (fun pd n => ∃ pat names, pd !! pat = Some names ∧ n ∈ names)
              (fun name pd pd' =>
                 ∃ els, pd' = fold_left (push_div name) els pd)
              (div_body_step K) Hregs_d
              hd ∅ ∅ (cd_array dd) _ Hnd_d Hrange_d Hnone_d Hdl)
    as ((Hlen1 & Hlinks1) & _ & Hindex1 & Hment1 & Hall1).
  cbn [fst snd] in *.
  (* the loop over the pages *)
  assert (∀ r, r ∈ cd_array pdta → (r < length hp)%nat) as Hrange_p
    by (intros r Hr%Hin_p; lia).
  assert (∀ name (reg reg' : gmap string string) n,
            (∃ uri, reg' = <[uri := name]> reg) →
            (∃ uri, reg' !! uri = Some n) →
            (∃ uri, reg !! uri = Some n) ∨ n = name) as Hregs_p.
  { intros name reg reg' n [uri ->] [uri' Hn].
    destruct (decide (uri = uri')) as [->|Hne].
    - rewrite lookup_insert_eq in Hn. injection Hn as <-. by right.
    - rewrite lookup_insert_ne in Hn by done. left. eauto. }
  assert (∀ n, ¬ ∃ uri, (∅ : gmap string string) !! uri = Some n)
    as Hnone_p.
  { intros n [uri Huri]. by rewrite lookup_empty in Huri. }
  destruct (registration_loop
              (page_body K fs layoutsData (length (cd_array dd)))
              (length (cd_array dd))
              (fun c => parseBoolean
                 (get_prop (definition c)
                           (UI_COMPONENT_DEFINITION_DISABLED K))
                 VUndefined)
              (fun um n => ∃ uri, um !! uri = Some n)
              (fun name um um' => ∃ uri, um' = <[uri := name]> um)
              (page_body_step K fs layoutsData (length (cd_array dd)))
              Hregs_p
              hp ∅ all1 (cd_array pdta) _ Hnd_p Hrange_p Hnone_p Hpl)
    as ((Hlen2 & Hlinks2) & Huntouched2 & Hindex2 & Hment2 & Hall2).
  cbn [fst snd] in *.
  (* a div component is not touched after the loop over the divs *)
  assert (∀ r, (r < length h1)%nat → components t !! r = h1 !! r) as Hkeep.
  { intros r Hr. rewrite Huntouched2, Hframe; [done..|].
    rewrite Hin_p. lia. }
  split_and!.
  - intros i r Hi. destruct (Hindex1 i r Hi) as (c & Hc & Hidx).
    exists c. rewrite Hkeep; [done|]. by apply lookup_lt_Some in Hc.
  - done.
  - intros r Hr. rewrite Hin_d, Hin_p. lia.
  - intros pat names n Hpat Hn.
    destruct (Hment1 n) as (r & c & Hr & Hc & Hrest); [by eauto|].
    exists r, c. split; [done|].
    rewrite Hkeep; [done|]. by apply lookup_lt_Some in Hc.
  - intros uri n Huri.
    destruct (Hment2 n) as (r & c & Hr & Hc & Hrest); [by eauto|].
    by exists r, c.
  - intros n r Hn. destruct (Hall2 n r Hn) as [Hn1|(_ & c & Hc)].
    + destruct (Hall1 n r Hn1) as [Hn0|(_ & c & Hc & Hrest)].
      * by rewrite lookup_empty in Hn0.
      * exists c. rewrite Hkeep; [done|]. by apply lookup_lt_Some in Hc.
    + by exists c.
  - intros n r Hn. rewrite Edivs in Hn.
    apply Hmap_d in Hn as (Hr & c & Hc & Hname).
    split; [by apply Hin_d|].
    destruct (Hlinks1 r c Hc) as (c' & Hc' & Hsame & _).
    exists c'. rewrite Hkeep; [split; congruence|].
    by apply lookup_lt_Some in Hc'.
  - intros n r Hn. rewrite Epages in Hn.
    apply Hmap_p in Hn as (Hr & c & Hc & Hname).
    split; [by apply Hin_p|].
    destruct (Hlinks2 r c Hc) as (c' & Hc' & Hsame & _).
    exists c'. split; congruence.
  - rewrite <- Hnames_d. unfold fullNames.
    rewrite (list_fmap_ext (fun r => fullName (components t !!! r))
                           (fun r => fullName (hd !!! r)) (cd_array dd)).
    { by apply fmap_Permutation. }
    intros i r Hr%list_elem_of_lookup_2. apply Hin_d in Hr.
    destruct (lookup_lt_is_Some_2 hd r ltac:(lia)) as [c Hc].
    destruct (Hlinks1 r c Hc) as (c' & Hc' & Hsame & _).
    rewrite (list_lookup_total_correct _ _ _ Hc).
    rewrite (list_lookup_total_correct (components t) r c'); [done|].
    rewrite Hkeep; [done|]. by apply lookup_lt_Some in Hc'.
  - rewrite <- Hnames_p. unfold fullNames.
    rewrite (list_fmap_ext (fun r => fullName (components t !!! r))
                           (fun r => fullName (hp !!! r)) (cd_array pdta)).
    { by apply fmap_Permutation. }
    intros i r Hr%list_elem_of_lookup_2. apply Hin_p in Hr.
    destruct (lookup_lt_is_Some_2 hp r ltac:(lia)) as [c Hc].
    destruct (Hlinks2 r c Hc) as (c' & Hc' & Hsame & _).
    rewrite (list_lookup_total_correct _ _ _ Hc).
    by rewrite (list_lookup_total_correct _ _ _ Hc').
  - done.
  - done.
Qed.
End BuildProperties.

(** ** Parents and children in a built registry *)

Lemma links_ok_nil : links_ok [].
Proof. intros p cp c Hp. by rewrite lookup_nil in Hp. Qed.

Lemma links_ok_push (h : store) comp :
  children comp = [] → links_ok h → links_ok (h ++ [comp]).
Proof.
  intros Hch Hok p cp c Hp Hc.
  apply lookup_app_Some in Hp as [Hp|[_ Hp]].
  - destruct (Hok p cp c Hp Hc) as (cc & Hcc & Hin). exists cc.
    split; [|done]. rewrite lookup_app_l; [done|].
    by apply lookup_lt_Some in Hcc.
  - apply list_lookup_singleton_Some in Hp as [_ <-].
    rewrite Hch in Hc. by apply elem_of_nil in Hc.
Qed.

Lemma links_ok_alter (f : UIComponent → UIComponent) x (h : store) :
  (∀ c, children (f c) = children c ∧ parents (f c) = parents c) →
  links_ok h → links_ok (alter f x h).
Proof.
  intros Hf Hok p cp c Hp Hc.
  assert (∃ cp0, h !! p = Some cp0 ∧ children cp = children cp0)
    as (cp0 & Hp0 & Ech).
  { rewrite list_lookup_alter in Hp. case_decide as E; [|by eauto].
    subst p. destruct (h !! x) as [cp0|]; [|done]. injection Hp as <-.
    exists cp0. split; [done|]. apply Hf. }
  rewrite Ech in Hc. destruct (Hok p cp0 c Hp0 Hc) as (cc & Hcc & Hin).
  rewrite list_lookup_alter. case_decide as E.
  - subst c. rewrite Hcc. cbn. eexists. split; [done|].
    by rewrite (proj2 (Hf cc)).
  - eauto.
Qed.

(** One turn of the inheritance loop: [p] gains the child [c] and [c] the
    parent [p]. *)
Lemma chain_step_lookup (h : store) p c (g : UIComponent → UIComponent)
    q cq0 :
  (∀ x, children (g x) = children x ∧ parents (g x) = parents x) →
  h !! q = Some cq0 →
  ∃ cq,
    alter g c (alter (push_parent p) c (alter (push_child c) p h)) !! q
      = Some cq ∧
    children cq = children cq0 ++ (if decide (p = q) then [c] else []) ∧
    parents cq = parents cq0 ++ (if decide (c = q) then [p] else []).
Proof.
  intros Hg Hq. rewrite !list_lookup_alter.
  destruct (decide (c = q)) as [->|Hcq], (decide (p = q)) as [->|Hpq];
    rewrite ?list_lookup_alter; repeat case_decide; try congruence;
    rewrite Hq; cbn; eexists; (split; [done|]);
    rewrite ?(proj1 (Hg _)), ?(proj2 (Hg _)); cbn;
    by rewrite ?app_nil_r.
Qed.

Lemma chain_step_links (h : store) p c (g : UIComponent → UIComponent) :
  (∀ x, children (g x) = children x ∧ parents (g x) = parents x) →
  (c < length h)%nat →
  links_ok h →
  links_ok (alter g c (alter (push_parent p) c (alter (push_child c) p h))).
Proof.
  intros Hg Hc Hok q cq x Hq Hx.
  set (h3 := alter g c (alter (push_parent p) c (alter (push_child c) p h)))
    in *.
  assert (length h3 = length h) as Hlen
    by (unfold h3; by rewrite !length_alter).
  assert (is_Some (h !! q)) as [cq0 Hq0].
  { apply lookup_lt_is_Some_2. rewrite <- Hlen. by eapply lookup_lt_Some. }
  destruct (chain_step_lookup h p c g q cq0 Hg Hq0) as (cq' & Hq' & Ech & _).
  fold h3 in Hq'. assert (cq' = cq) as -> by congruence.
  rewrite Ech in Hx. apply elem_of_app in Hx as [Hx|Hx].
  - destruct (Hok q cq0 x Hq0 Hx) as (cx0 & Hcx0 & Hin).
    destruct (chain_step_lookup h p c g x cx0 Hg Hcx0) as (cx & Hcx & _ & Epa).
    exists cx. split; [done|]. rewrite Epa, elem_of_app. by left.
  - case_decide as E; [|by apply elem_of_nil in Hx].
    apply list_elem_of_singleton in Hx as ->. subst q.
    destruct (lookup_lt_is_Some_2 h c Hc) as [cc0 Hcc0].
    destruct (chain_step_lookup h p c g c cc0 Hg Hcc0) as (cc & Hcc & _ & Epa).
    exists cc. split; [done|]. rewrite Epa, elem_of_app. right.
    case_decide; [|done]. left.
Qed.

Section Links.
Context (K : Constants).
Context (localeCompare : string → string → Z).
Context (array_sort : (ref → ref → Z) → list ref → list ref).
Context (fs : FileSystem).

Lemma populate_body_links cp ty i name (st st' : collections) :
  populate_body fs cp ty i name st = Ret st' →
  links_ok st.1.1 → links_ok st'.1.1.
Proof.
  destruct st as [[h m] l]. unfold populate_body.
  repeat case_match; try done; intros [= <-]; cbn; try done;
    intros Hok; by apply links_ok_push.
Qed.

Lemma collection_body_links ty cp i coll (st st' : collections) :
  collection_body K fs ty cp i coll st = Ret st' →
  links_ok st.1.1 → links_ok st'.1.1.
Proof.
  unfold collection_body. destruct (negb _); [by intros [= <-]|].
  unfold populateComponentCollections.
  destruct (listFiles fs _) as [dirs|]; [|done].
  intros Hrun Hok.
  apply (for_each_ind _ (fun _ s => links_ok s.1.1) _ [] st st' Hrun Hok).
  intros pre x s1 s2 _ Hs1 Hb. by eapply populate_body_links.
Qed.

Lemma inherit_chain_links fuel ty (m : gmap string ref) c pn h h' :
  (∀ k r, m !! k = Some r → (r < length h)%nat) → (c < length h)%nat →
  links_ok h →
  inherit_chain K fuel ty m c pn h = Ret h' →
  length h' = length h ∧ links_ok h'.
Proof.
  revert pn h. induction fuel as [|fuel IH]; intros pn h Hm Hc Hok;
    cbn [inherit_chain].
  - destruct (truthy pn); [done|]. by intros [= <-].
  - destruct (truthy pn); [|by intros [= <-]].
    destruct (m !! to_string pn) as [p|] eqn:Hp; [|done].
    cbv zeta. case_match; [done|]. intros Hrun. apply IH in Hrun.
    + by rewrite !length_alter in Hrun.
    + intros k r Hk. rewrite !length_alter. by eapply Hm.
    + by rewrite !length_alter.
    + by apply chain_step_links.
Qed.

Lemma getUiComponentsData_links fuel ty cp h0 cd h' :
  getUiComponentsData K localeCompare array_sort fs fuel ty cp h0
    = Ret (cd, h') →
  links_ok h0 → links_ok h'.
Proof.
  unfold getUiComponentsData.
  destruct (listFiles fs (DIRECTORY_APP_COMPONENTS K)) as [dirs|] eqn:Hls;
    [|done].
  intros ([[h1 m] l] & Hdisc & Hrest)%bind_Ret_inv Hok.
  apply bind_Ret_inv in Hrest as (h2 & Hinh & [= <- <-]).
  assert (links_ok h1) as Hok1.
  { apply (for_each_ind _ (fun _ s => links_ok s.1.1) _ [] _ _ Hdisc Hok).
    intros pre x s1 s2 _ Hs1 Hb. by eapply collection_body_links. }
  apply (discovery_discovered K fs _ _ _ _ _ Hls) in Hdisc
    as (new & Hh1 & Hl & _ & Hm & _).
  cbn in Hh1, Hl, Hm.
  apply (for_each_ind _
           (fun _ h => length h = length h1 ∧ links_ok h) _ [] _ _ Hinh);
    [done|].
  intros pre x s1 s2 [Hx _]%prefix_snoc_elem [Hlen Hs1] Hb.
  unfold inherit_body in Hb. case_match; [done|].
  apply inherit_chain_links in Hb as [Hlen2 Hok2];
    [split; [congruence|done]|..].
  - intros k r Hk. apply Hm in Hk as (_ & c & Hc & _).
    rewrite Hlen. by eapply lookup_lt_Some.
  - cbn in Hx. rewrite Hl in Hx. apply elem_of_seq in Hx.
    rewrite Hlen, Hh1, length_app. lia.
  - done.
Qed.

Lemma div_body_store i x (h : store) pd all st' :
  div_body K i x (h, pd, all) = Ret st' →
  ∃ v, st'.1.1 = alter (set_index_disabled i v) x h.
Proof.
  unfold div_body. repeat case_match; try done; intros [= <-]; by eexists.
Qed.

Lemma page_body_store layoutsData off j x (h : store) um all st' :
  page_body K fs layoutsData off j x (h, um, all) = Ret st' →
  ∃ v, st'.1.1 = alter (set_index_disabled (off + j) v) x h.
Proof.
  unfold page_body. repeat case_match; try done; intros [= <-]; by eexists.
Qed.

(** In the store of a built table every child lists its parent. *)
Lemma buildLookupTable_links fuel t :
  buildLookupTable K localeCompare array_sort fs fuel = Ret t →
  links_ok (components t).
Proof.
  unfold buildLookupTable.
  intros (layoutsData & _ & H)%bind_Ret_inv.
  apply bind_Ret_inv in H as ([divsData hd] & Hd & H).
  apply bind_Ret_inv in H as ([[h1 pd] all1] & Hdl & H).
  apply bind_Ret_inv in H as ([pagesData hp] & Hp & H).
  apply bind_Ret_inv in H as ([[h um] all] & Hpl & [= <-]). cbn.
  apply getUiComponentsData_links in Hd; [|apply links_ok_nil].
  assert (links_ok h1) as Hok1.
  { apply (for_each_ind _ (fun _ s => links_ok s.1.1) _ [] _ _ Hdl Hd).
    intros pre x [[s1 ?] ?] s2 _ Hs1 [v Hb]%div_body_store.
    rewrite Hb. by apply links_ok_alter. }
  apply getUiComponentsData_links in Hp; [|done].
  apply (for_each_ind _ (fun _ s => links_ok s.1.1) _ [] _ _ Hpl Hp).
  intros pre x [[s1 ?] ?] s2 _ Hs1 [v Hb]%page_body_store.
  rewrite Hb. by apply links_ok_alter.
Qed.
End Links.

(** The premise the file lookup needs, from [links_ok]. *)
Lemma links_ok_children (h : store) u c :
  links_ok h → c ∈ children (h !!! u) → u ∈ parents (h !!! c).
Proof.
  intros Hok Hc. destruct (h !! u) as [cu|] eqn:Hu.
  - rewrite (list_lookup_total_correct _ _ _ Hu) in Hc.
    destruct (Hok u cu c Hu Hc) as (cc & Hcc & Hin).
    by rewrite (list_lookup_total_correct _ _ _ Hcc).
  - rewrite list_lookup_total_alt, Hu in Hc. by apply elem_of_nil in Hc.
Qed.

(** ** The definitions the sort reads *)

Lemma extend_property_not_nullish o p :
  is_nullish o = false → is_nullish (extend_property o p) = false.
Proof.
  destruct p as [k v]. unfold extend_property, extend_scalar.
  by destruct o; repeat case_match.
Qed.

(** [extend] never returns [null] or [undefined]. *)
Lemma extend_not_nullish child parent :
  is_nullish (extend child parent) = false.
Proof.
  assert (is_nullish (if truthy child then child else VRec []) = false) as H0
    by (destruct child as [| |[]| | |]; cbn; by repeat case_match).
  destruct parent as [| | | |s|cls props]; try done.
  - cbn [extend]. revert H0.
    generalize (if truthy child then child else VRec []).
    generalize 0%nat.
    induction s as [|a s IH]; intros n o Ho; cbn; [done|].
    apply IH. unfold extend_scalar. by destruct o; repeat case_match.
  - rewrite extend_VObj. revert H0.
    generalize (if truthy child then child else VRec []).
    induction props as [|p props IH]; intros o Ho; cbn; [done|].
    apply IH. by apply extend_property_not_nullish.
Qed.

Lemma lookup_total_alter_preserve {B} (g : UIComponent → B)
    (f : UIComponent → UIComponent) (h : store) i r :
  (∀ c, g (f c) = g c) → g (alter f i h !!! r) = g (h !!! r).
Proof.
  intros Hf. rewrite !list_lookup_total_alt, list_lookup_alter.
  case_decide as E; [|done]. subst r. destruct (h !! i); cbn; [apply Hf|done].
Qed.

Section Definitions.
Context (K : Constants).
Context (localeCompare : string → string → Z).
Context (array_sort : (ref → ref → Z) → list ref → list ref).
Context (fs : FileSystem).
Hypothesis array_sort_perm : ∀ cmp l, array_sort cmp l ≡ₚ l.

Lemma inherit_chain_definition fuel ty (m : gmap string ref) c pn h h' r :
  inherit_chain K fuel ty m c pn h = Ret h' →
  is_nullish (definition (h !!! r)) = false →
  is_nullish (definition (h' !!! r)) = false.
Proof.
  revert pn h. induction fuel as [|fuel IH]; intros pn h;
    cbn [inherit_chain].
  - destruct (truthy pn); [done|]. by intros [= <-].
  - destruct (truthy pn); [|by intros [= <-]].
    destruct (m !! to_string pn) as [p|] eqn:Hp; [|done].
    cbv zeta. case_match; [done|]. intros Hrun Hr.
    apply (IH _ _ Hrun). clear Hrun IH.
    rewrite list_lookup_total_alt, list_lookup_alter.
    case_decide as E.
    + subst r.
      destruct (alter (push_parent p) c (alter (push_child c) p h) !! c)
        as [cc|] eqn:Hcc; cbn.
      * apply extend_not_nullish.
      * apply lookup_ge_None in Hcc. rewrite !length_alter in Hcc.
        rewrite list_lookup_total_alt, (lookup_ge_None_2 h c) in Hr; done.
    + rewrite <- list_lookup_total_alt.
      by rewrite !(lookup_total_alter_preserve definition).
Qed.

(** Every definition the comparator is handed by the sort is an actual
    value: the inheritance loop has read the [extends] field of each. *)
Lemma getUiComponentsData_definitions fuel ty cp h0 cd h' r :
  getUiComponentsData K localeCompare array_sort fs fuel ty cp h0
    = Ret (cd, h') →
  r ∈ cd_array cd →
  is_nullish (definition (h' !!! r)) = false.
Proof.
  unfold getUiComponentsData.
  destruct (listFiles fs (DIRECTORY_APP_COMPONENTS K)) as [dirs|]; [|done].
  intros ([[h1 m] l] & _ & Hrest)%bind_Ret_inv.
  apply bind_Ret_inv in Hrest as (h2 & Hinh & [= <- <-]).
  cbn [cd_array]. rewrite array_sort_perm. revert r.
  apply (for_each_ind _
           (fun pre h =>
              ∀ r, r ∈ pre → is_nullish (definition (h !!! r)) = false)
           l [] h1 h2 Hinh).
  - intros r Hr. by apply elem_of_nil in Hr.
  - intros pre x s1 s2 _ Hs1 Hb r Hr. unfold inherit_body in Hb.
    destruct (is_nullish (definition (s1 !!! x))) eqn:Hx; [done|].
    apply (inherit_chain_definition _ _ _ _ _ _ _ _ Hb).
    apply elem_of_app in Hr as [Hr|Hr%list_elem_of_singleton];
      [by apply Hs1|by subst r].
Qed.
End Definitions.

Section RegistryTheorems.
Context (K : Constants).
Context (localeCompare : string → string → Z).
Context (array_sort : (ref → ref → Z) → list ref → list ref).
Context (fs : FileSystem).
Hypothesis array_sort_perm : ∀ cmp l, array_sort cmp l ≡ₚ l.

(** C4 (as amended).  The map never holds two entries of one full name:
    every entry leads to a listed component that bears the key as its full
    name.  The components stand in the store in the order of discovery,
    each with the name and the path of its directory, and an entry of the
    map leads to the one that was discovered last under its name: the
    component of a later collection replaces that of an earlier one.  The
    list holds one entry for every component directory that was
    discovered, so its full names are pairwise distinct whenever no two
    collections hold a component directory of the same name. *)
Theorem discovery_full_names fuel ty cp h0 cd h' :
  getUiComponentsData K localeCompare array_sort fs fuel ty cp h0
    = Ret (cd, h') →
  (∀ k r, cd_map cd !! k = Some r →
          r ∈ cd_array cd ∧ ∃ c, h' !! r = Some c ∧ fullName c = k) ∧
  (∀ k1 k2 r1 r2 c1 c2,
      cd_map cd !! k1 = Some r1 → cd_map cd !! k2 = Some r2 →
      h' !! r1 = Some c1 → h' !! r2 = Some c2 →
      fullName c1 = fullName c2 → k1 = k2 ∧ r1 = r2) ∧
  (∀ i k, discovered_names K fs cp !! i = Some k →
          ∃ c, h' !! (length h0 + i)%nat = Some c ∧ fullName c = k ∧
               discovered_paths K fs cp !! i = Some (path c)) ∧
  (∀ k r, cd_map cd !! k = Some r →
          ∃ i, r = (length h0 + i)%nat ∧
               discovered_names K fs cp !! i = Some k ∧
               ∀ j, discovered_names K fs cp !! j = Some k → (j ≤ i)%nat) ∧
  fullNames h' (cd_array cd) ≡ₚ discovered_names K fs cp ∧
  (NoDup (discovered_names K fs cp) → NoDup (fullNames h' (cd_array cd))).
Proof.
  intros Hrun.
  destruct (sorted_array_facts K localeCompare array_sort fs array_sort_perm
              _ _ _ _ _ _ Hrun) as (_ & Hin & _ & _).
  destruct (getUiComponentsData_spec _ _ _ _ _ _ _ _ _ _ Hrun)
    as (n & Hlen & _ & Harr & Hnames & Hmap & _).
  destruct (getUiComponentsData_places _ _ _ _ _ _ _ _ _ _ Hrun)
    as (Hlen' & Hplaces & Hlatest).
  assert (fullNames h' (cd_array cd) ≡ₚ discovered_names K fs cp) as Hperm.
  { rewrite <- Hnames. unfold fullNames. apply fmap_Permutation.
    rewrite Harr. apply array_sort_perm. }
  assert (∀ i k, discovered_names K fs cp !! i = Some k →
                 ∃ c, h' !! (length h0 + i)%nat = Some c ∧ fullName c = k ∧
                      discovered_paths K fs cp !! i = Some (path c))
    as Hordered.
  { intros i k Hi. rewrite <- Hnames in Hi. unfold fullNames in Hi.
    rewrite list_lookup_fmap in Hi.
    destruct (seq (length h0) n !! i) as [r|] eqn:Hr; [|done].
    apply lookup_seq in Hr as [-> Hlt]. injection Hi as <-.
    destruct (lookup_lt_is_Some_2 (discovered_paths K fs cp) i) as [p Hp];
      [lia|].
    destruct (Hplaces i p Hp) as (c & Hc & <-). exists c.
    by rewrite (list_lookup_total_correct _ _ _ Hc). }
  assert (∀ i, (i < n)%nat →
               discovered_names K fs cp !! i
               = Some (fullName (h' !!! (length h0 + i)%nat))) as Hat.
  { intros i Hi. rewrite <- Hnames. unfold fullNames.
    rewrite list_lookup_fmap.
    by rewrite (proj2 (lookup_seq _ _ _ _) (conj eq_refl Hi)). }
  split_and!.
  - intros k r Hk. destruct (Hmap k r Hk) as (Hr & Hc). split; [|done].
    by apply Hin.
  - intros k1 k2 r1 r2 c1 c2 Hk1 Hk2 Hc1 Hc2 Hsame.
    destruct (Hmap k1 r1 Hk1) as (_ & c1' & Hc1' & <-).
    destruct (Hmap k2 r2 Hk2) as (_ & c2' & Hc2' & <-).
    assert (fullName c1' = fullName c2') as E by congruence.
    split; [done|]. rewrite E in Hk1. congruence.
  - done.
  - intros k r Hk. destruct (Hmap k r Hk) as (Hr & c & Hc & Hname).
    exists (r - length h0)%nat. split; [lia|]. split.
    + rewrite Hat by lia.
      replace (length h0 + (r - length h0))%nat with r by lia.
      by rewrite (list_lookup_total_correct _ _ _ Hc), Hname.
    + intros j Hj. destruct (Hordered j k Hj) as (c' & Hc' & Hname' & _).
      pose proof (Hlatest k r Hk (length h0 + j)%nat c' ltac:(lia) Hc'
                    Hname').
      lia.
  - done.
  - intros Hnd. by rewrite Hperm.
Qed.

(** C3 (as amended).  The [index] of every component of a built table is
    its position in the sorted array of its type, the pages being counted on
    from the number of divs. *)
Theorem index_is_sorted_position fuel t :
  buildLookupTable K localeCompare array_sort fs fuel = Ret t →
  ∃ divsData hd pagesData h1 hp,
    getUiComponentsData K localeCompare array_sort fs fuel "div"
      (DIRECTORY_APP_DIVS K) [] = Ret (divsData, hd) ∧
    getUiComponentsData K localeCompare array_sort fs fuel "page"
      (DIRECTORY_APP_PAGES K) h1 = Ret (pagesData, hp) ∧
    ∀ r c, components t !! r = Some c →
      (∃ i, cd_array divsData !! i = Some r ∧ index c = Some i) ∨
      (∃ j, cd_array pagesData !! j = Some r ∧
            index c = Some (length (cd_array divsData) + j)%nat).
Proof.
  intros (dd & hd & pdta & h1 & hp & Hd & Hp & Hidx_d & Hidx_p & Hcover & _)
    %(build_facts K localeCompare array_sort fs array_sort_perm).
  exists dd, hd, pdta, h1, hp. split; [done|]. split; [done|].
  intros r c Hc.
  destruct (Hcover r) as [Hr|Hr]; [by eapply lookup_lt_Some|..];
    apply list_elem_of_lookup in Hr as [i Hi].
  - left. exists i. split; [done|].
    destruct (Hidx_d i r Hi) as (c' & Hc' & Hidx). congruence.
  - right. exists i. split; [done|].
    destruct (Hidx_p i r Hi) as (c' & Hc' & Hidx). congruence.
Qed.

(** C6 (as amended).  In a built table [divs] holds every discovered div and
    [pages] every discovered page, enabled or not, each under its full name;
    it is [uiComponents] that holds enabled components only. *)
Theorem maps_hold_every_discovered_component fuel t :
  buildLookupTable K localeCompare array_sort fs fuel = Ret t →
  (∀ n, is_Some (divs t !! n) ↔
        n ∈ discovered_names K fs (DIRECTORY_APP_DIVS K)) ∧
  (∀ n, is_Some (pages t !! n) ↔
        n ∈ discovered_names K fs (DIRECTORY_APP_PAGES K)) ∧
  (∀ n r, divs t !! n = Some r →
          ∃ c, components t !! r = Some c ∧ fullName c = n) ∧
  (∀ n r, pages t !! n = Some r →
          ∃ c, components t !! r = Some c ∧ fullName c = n) ∧
  only_enabled (components t) (uiComponents t).
Proof.
  intros (dd & hd & pdta & h1 & hp & Hd & Hp & _ & _ & _ & _ & _
          & Hall & Hdivs & Hpages & _ & _ & Edivs & Epages)
    %(build_facts K localeCompare array_sort fs array_sort_perm).
  destruct (getUiComponentsData_spec _ _ _ _ _ _ _ _ _ _ Hd)
    as (_ & _ & _ & _ & _ & _ & Hdom_d).
  destruct (getUiComponentsData_spec _ _ _ _ _ _ _ _ _ _ Hp)
    as (_ & _ & _ & _ & _ & _ & Hdom_p).
  split_and!.
  - by rewrite Edivs.
  - by rewrite Epages.
  - intros n r Hn. by apply Hdivs.
  - intros n r Hn. by apply Hpages.
  - intros n r c Hn Hc. destruct (Hall n r Hn) as (c' & Hc' & _ & Hen).
    congruence.
Qed.

Lemma fullNames_inj (h : store) (l : list ref) r r' :
  NoDup (fullNames h l) → r ∈ l → r' ∈ l →
  fullName (h !!! r) = fullName (h !!! r') → r = r'.
Proof.
  intros Hnd [i Hi]%list_elem_of_lookup [j Hj]%list_elem_of_lookup Hsame.
  assert (i = j) as ->; [|congruence].
  apply (NoDup_lookup _ i j (fullName (h !!! r)) Hnd); unfold fullNames;
    rewrite list_lookup_fmap; [by rewrite Hi|by rewrite Hj, Hsame].
Qed.

(** C7.  A component that is enabled and has children is passed over by
    the loop: whatever its definition, the step neither fails nor changes
    [pushedDivs] or [uriPagesMap].  In a built table every name in a list
    of [pushedDivs] and every name in [uriPagesMap] is the full name of an
    enabled component without children; and where the discovered names of
    a type are pairwise distinct, no component of [divs] or [pages] that
    has children is named in [pushedDivs] or in [uriPagesMap]. *)
Theorem overridden_components_are_skipped fuel t :
  buildLookupTable K localeCompare array_sort fs fuel = Ret t →
  (∀ i div (h : store) pd all c,
      h !! div = Some c → children c ≠ [] →
      truthy (parseBoolean
                (get_prop (definition c)
                          (UI_COMPONENT_DEFINITION_DISABLED K))
                VUndefined) = false →
      div_body K i div (h, pd, all)
      = Ret (alter (set_index_disabled i
                      (parseBoolean
                         (get_prop (definition c)
                                   (UI_COMPONENT_DEFINITION_DISABLED K))
                         VUndefined)) div h,
             pd, <[fullName c := div]> all)) ∧
  (∀ layoutsData i j page (h : store) um all c,
      h !! page = Some c → children c ≠ [] →
      truthy (parseBoolean
                (get_prop (definition c)
                          (UI_COMPONENT_DEFINITION_DISABLED K))
                VUndefined) = false →
      page_body K fs layoutsData i j page (h, um, all)
      = Ret (alter (set_index_disabled (i + j)
                      (parseBoolean
                         (get_prop (definition c)
                                   (UI_COMPONENT_DEFINITION_DISABLED K))
                         VUndefined)) page h,
             um, <[fullName c := page]> all)) ∧
  (∀ pat names n, pushedDivs t !! pat = Some names → n ∈ names →
                  ∃ r c, components t !! r = Some c ∧ fullName c = n ∧
                         children c = [] ∧ truthy (disabled c) = false) ∧
  (∀ uri n, uriPagesMap t !! uri = Some n →
            ∃ r c, components t !! r = Some c ∧ fullName c = n ∧
                   children c = [] ∧ truthy (disabled c) = false) ∧
  (NoDup (discovered_names K fs (DIRECTORY_APP_DIVS K)) →
   ∀ n r c, divs t !! n = Some r → components t !! r = Some c →
            children c ≠ [] →
            ∀ pat names, pushedDivs t !! pat = Some names → n ∉ names) ∧
  (NoDup (discovered_names K fs (DIRECTORY_APP_PAGES K)) →
   ∀ n r c, pages t !! n = Some r → components t !! r = Some c →
            children c ≠ [] →
            ∀ uri, uriPagesMap t !! uri ≠ Some n).
Proof.
  intros (dd & hd & pdta & h1 & hp & _ & _ & _ & _ & _ & Hpush & Huri & _
          & Hdivs & Hpages & Hnames_d & Hnames_p & _)
    %(build_facts K localeCompare array_sort fs array_sort_perm).
  split_and!.
  - intros i div h pd all c Hc Hch Hen. unfold div_body.
    rewrite (list_lookup_total_correct _ _ _ Hc).
    rewrite (alter_lookup_total _ _ _ _ Hc). cbn. rewrite Hen.
    by destruct (children c).
  - intros layoutsData i j page h um all c Hc Hch Hen. unfold page_body.
    rewrite (list_lookup_total_correct _ _ _ Hc).
    rewrite (alter_lookup_total _ _ _ _ Hc). cbn. rewrite Hen.
    by destruct (children c).
  - intros pat names n Hpat Hn.
    destruct (Hpush pat names n Hpat Hn) as (r & c & _ & Hrest).
    by exists r, c.
  - intros uri n Hn.
    destruct (Huri uri n Hn) as (r & c & _ & Hrest). by exists r, c.
  - intros Hnd n r c Hn Hc Hch pat names Hpat Hin.
    destruct (Hpush pat names n Hpat Hin)
      as (r' & c' & Hr' & Hc' & Hname' & Hch' & _).
    destruct (Hdivs n r Hn) as (Hr & c0 & Hc0 & Hname).
    assert (c0 = c) as -> by congruence.
    rewrite <- Hnames_d in Hnd.
    assert (r = r') as ->; [|congruence].
    apply (fullNames_inj _ _ _ _ Hnd Hr Hr').
    rewrite (list_lookup_total_correct _ _ _ Hc).
    rewrite (list_lookup_total_correct _ _ _ Hc'). congruence.
  - intros Hnd n r c Hn Hc Hch uri Huri'.
    destruct (Huri uri n Huri')
      as (r' & c' & Hr' & Hc' & Hname' & Hch' & _).
    destruct (Hpages n r Hn) as (Hr & c0 & Hc0 & Hname).
    assert (c0 = c) as -> by congruence.
    rewrite <- Hnames_p in Hnd.
    assert (r = r') as ->; [|congruence].
    apply (fullNames_inj _ _ _ _ Hnd Hr Hr').
    rewrite (list_lookup_total_correct _ _ _ Hc).
    rewrite (list_lookup_total_correct _ _ _ Hc'). congruence.
Qed.
End RegistryTheorems.

(** ** [parseBoolean] and the [disabled] field *)

(** C10.  [parseBoolean] returns a boolean as it is, [n > 0] for a number,
    for a string whether its lower-cased form is "true" or "yes", the
    default for [null] and [undefined] ([false] when the default is itself
    missing) and [true] for any other value.  The strings "1" and "disabled"
    therefore give [false], and a div or a page whose definition has one of
    them as its [disabled] field is taken as enabled: the loop records it as
    not disabled and enters it into [allUiComponents]. *)
Theorem parseBoolean_cases :
  (∀ b d, parseBoolean (VBool b) d = VBool b) ∧
  (∀ n d, parseBoolean (VNum n) d = VBool (bool_decide (n > 0))) ∧
  (∀ s d, parseBoolean (VStr s) d =
          VBool (bool_decide (toLowerCase s = "true" ∨ toLowerCase s = "yes"))) ∧
  (∀ d, parseBoolean VNull d = if is_nullish d then VBool false else d) ∧
  (∀ d, parseBoolean VUndefined d = if is_nullish d then VBool false else d) ∧
  parseBoolean VNull VUndefined = VBool false ∧
  parseBoolean VUndefined VUndefined = VBool false ∧
  (∀ cls ps d, parseBoolean (VObj cls ps) d = VBool true) ∧
  parseBoolean (VStr "1") VUndefined = VBool false ∧
  parseBoolean (VStr "disabled") VUndefined = VBool false ∧
  (∀ K i div (h : store) pd all c st',
      h !! div = Some c →
      get_prop (definition c) (UI_COMPONENT_DEFINITION_DISABLED K) = VStr "1"
      ∨ get_prop (definition c) (UI_COMPONENT_DEFINITION_DISABLED K)
        = VStr "disabled" →
      div_body K i div (h, pd, all) = Ret st' →
      st'.2 !! fullName c = Some div ∧
      ∃ c', st'.1.1 !! div = Some c' ∧ disabled c' = VBool false) ∧
  (∀ K fs layoutsData i j page (h : store) um all c st',
      h !! page = Some c →
      get_prop (definition c) (UI_COMPONENT_DEFINITION_DISABLED K) = VStr "1"
      ∨ get_prop (definition c) (UI_COMPONENT_DEFINITION_DISABLED K)
        = VStr "disabled" →
      page_body K fs layoutsData i j page (h, um, all) = Ret st' →
      st'.2 !! fullName c = Some page ∧
      ∃ c', st'.1.1 !! page = Some c' ∧ disabled c' = VBool false).
Proof.
  split_and!; try done.
  - intros n d. cbn. f_equal.
    destruct (Z.ltb_spec 0 n); symmetry;
      [apply bool_decide_eq_true | apply bool_decide_eq_false]; lia.
  - intros s d. cbn. f_equal.
    destruct (String.eqb_spec (toLowerCase s) "true") as [->|H1]; [done|].
    destruct (String.eqb_spec (toLowerCase s) "yes") as [->|H2]; [done|].
    symmetry. apply bool_decide_eq_false. tauto.
  - intros K i div h pd all c st' Hc Hflag Hb.
    destruct (div_body_step K i div h pd all st' c Hc Hb) as [Hstore Hcases].
    assert (parseBoolean
              (get_prop (definition c) (UI_COMPONENT_DEFINITION_DISABLED K))
              VUndefined = VBool false) as Hd
      by (by destruct Hflag as [-> | ->]).
    rewrite Hd in Hstore, Hcases.
    destruct Hcases as [([=] & _)|(_ & -> & _)]. split.
    + apply lookup_insert_eq.
    + exists (set_index_disabled i (VBool false) c). split; [|done].
      rewrite Hstore, list_lookup_alter. case_decide; [|done].
      by rewrite Hc.
  - intros K fs layoutsData i j page h um all c st' Hc Hflag Hb.
    destruct (page_body_step K fs layoutsData i j page h um all st' c Hc Hb)
      as [Hstore Hcases].
    assert (parseBoolean
              (get_prop (definition c) (UI_COMPONENT_DEFINITION_DISABLED K))
              VUndefined = VBool false) as Hd
      by (by destruct Hflag as [-> | ->]).
    rewrite Hd in Hstore, Hcases.
    destruct Hcases as [([=] & _)|(_ & -> & _)]. split.
    + apply lookup_insert_eq.
    + exists (set_index_disabled (i + j) (VBool false) c). split; [|done].
      rewrite Hstore, list_lookup_alter. case_decide; [|done].
      by rewrite Hc.
Qed.

(** A div whose definition says [disabled: "1"] goes through the loop as an
    enabled one. *)
Lemma parseBoolean_cases_witness :
  ∃ st',
    div_body Example.constants 0 0 ([Inputs.flagged_div], ∅, ∅) = Ret st' ∧
    st'.2 !! "c.w" = Some 0%nat ∧
    ∃ c', st'.1.1 !! 0%nat = Some c' ∧ disabled c' = VBool false.
Proof.
  eexists. split; [vm_compute; reflexivity|].
  apply (proj1 (proj2 (proj2 (proj2 (proj2 (proj2 (proj2 (proj2 (proj2
           (proj2 (proj2 parseBoolean_cases))))))))))
           Example.constants 0%nat 0%nat [Inputs.flagged_div] ∅ ∅
           Inputs.flagged_div).
  - reflexivity.
  - left. reflexivity.
  - vm_compute. reflexivity.
Defined.

(** ** The theorems at work on concrete registries *)

Lemma family_table_built :
  buildLookupTable Example.constants Example.localeCompare Example.array_sort
                   Inputs.fs_family 100
  = Ret Tables.family_table.
Proof. vm_compute. reflexivity. Qed.

Lemma two_collections_divs_found :
  getUiComponentsData Example.constants Example.localeCompare
    Example.array_sort Inputs.fs_two_collections 100 "div" "/divs" []
  = Ret (Tables.two_collections_divs.1, Tables.two_collections_divs.2).
Proof. vm_compute. reflexivity. Qed.

(** Of the two divs [x.a] of [fs_two_collections] the map keeps the second,
    that of the collection [extra]. *)
Lemma discovery_full_names_witness :
  (∃ i, 1%nat = (length ([] : store) + i)%nat ∧
        discovered_names Example.constants Inputs.fs_two_collections "/divs"
          !! i = Some "x.a" ∧
        ∀ j, discovered_names Example.constants Inputs.fs_two_collections
               "/divs" !! j = Some "x.a" → (j ≤ i)%nat) ∧
  ∃ c, Tables.two_collections_divs.2 !! 1%nat = Some c ∧
       fullName c = "x.a" ∧ path c = "/components/extra/divs/x.a".
Proof.
  destruct (discovery_full_names Example.constants Example.localeCompare
              Example.array_sort Inputs.fs_two_collections
              example_array_sort_perm 100 "div" "/divs" []
              Tables.two_collections_divs.1 Tables.two_collections_divs.2
              two_collections_divs_found)
    as (_ & _ & Hordered & Hlatest & _).
  split.
  - apply (Hlatest "x.a" 1%nat). vm_compute. reflexivity.
  - destruct (Hordered 1%nat "x.a") as (c & Hc & Hname & Hpath);
      [vm_compute; reflexivity|].
    exists c. split_and!; [done..|].
    assert (discovered_paths Example.constants Inputs.fs_two_collections
              "/divs" !! 1%nat = Some "/components/extra/divs/x.a") as Hp
      by (vm_compute; reflexivity).
    rewrite Hp in Hpath. by injection Hpath as <-.
Defined.

(** C4, refuted as stated: two collections that both hold a div [x.a] give a
    list with two entries of that full name. *)
Lemma duplicate_full_name_in_list :
  ∃ cd h,
    getUiComponentsData Example.constants Example.localeCompare
      Example.array_sort Inputs.fs_two_collections 100 "div" "/divs" []
    = Ret (cd, h) ∧
    fullNames h (cd_array cd) = ["x.a"; "x.a"] ∧
    ¬ NoDup (fullNames h (cd_array cd)).
Proof.
  eexists _, _. split; [vm_compute; reflexivity|].
  split; [vm_compute; reflexivity|].
  intros Hnd. vm_compute in Hnd.
  apply NoDup_cons in Hnd as [Hnotin _]. apply Hnotin. left.
Qed.

Lemma index_is_sorted_position_witness :
  ∃ divsData hd pagesData h1 hp,
    getUiComponentsData Example.constants Example.localeCompare
      Example.array_sort Inputs.fs_family 100 "div"
      (DIRECTORY_APP_DIVS Example.constants) []
    = Ret (divsData, hd) ∧
    getUiComponentsData Example.constants Example.localeCompare
      Example.array_sort Inputs.fs_family 100 "page"
      (DIRECTORY_APP_PAGES Example.constants) h1
    = Ret (pagesData, hp) ∧
    ∀ r c, components Tables.family_table !! r = Some c →
      (∃ i, cd_array divsData !! i = Some r ∧ index c = Some i) ∨
      (∃ j, cd_array pagesData !! j = Some r ∧
            index c = Some (length (cd_array divsData) + j)%nat).
Proof.
  exact (index_is_sorted_position Example.constants Example.localeCompare
           Example.array_sort Inputs.fs_family example_array_sort_perm
           100 Tables.family_table family_table_built).
Defined.

(** C3, refuted as stated: the div [z.top] is discovered third (it is
    component 2 of the store) and gets index 0, being sorted first. *)
Lemma index_not_discovery_ordinal :
  ∃ t c,
    Example.build Inputs.fs_family = Ret t ∧
    components t !! 2%nat = Some c ∧ fullName c = "z.top" ∧
    index c = Some 0%nat ∧
    ¬ index_is_discovery_ordinal t.
Proof.
  eexists _, _. split; [vm_compute; reflexivity|].
  do 3 (split; [reflexivity|]).
  intros Hord. specialize (Hord 2%nat _ eq_refl). discriminate Hord.
Qed.

(** The disabled div [z.top] is in [divs]. *)
Lemma maps_hold_every_discovered_component_witness :
  is_Some (divs Tables.family_table !! "z.top").
Proof.
  apply (proj1 (maps_hold_every_discovered_component
                  Example.constants Example.localeCompare Example.array_sort
                  Inputs.fs_family example_array_sort_perm
                  100 Tables.family_table family_table_built)).
  apply (bool_decide_unpack _). vm_compute. exact I.
Defined.

(** C6, refuted as stated: [divs] holds the div [z.top], which its
    definition disables. *)
Lemma disabled_div_in_divs_map :
  ∃ t r c,
    Example.build Inputs.fs_family = Ret t ∧
    divs t !! "z.top" = Some r ∧ components t !! r = Some c ∧
    get_prop (definition c) "disabled" = VBool true ∧
    disabled c = VBool true ∧
    ¬ only_enabled (components t) (divs t).
Proof.
  eexists _, _, _. split; [vm_compute; reflexivity|].
  split; [vm_compute; reflexivity|].
  do 3 (split; [reflexivity|]).
  intros Hen. specialize (Hen "z.top" 2%nat _ eq_refl eq_refl).
  discriminate Hen.
Qed.

(** A parent div with a child and no version is passed over without being
    validated, and the one page registered from [fs_family] has no
    children. *)
Lemma overridden_components_are_skipped_witness :
  div_body Example.constants 0 0 (Inputs.overridden_store, ∅, ∅)
  = Ret (alter (set_index_disabled 0
                  (parseBoolean
                     (get_prop (definition Inputs.overridden_div)
                               (UI_COMPONENT_DEFINITION_DISABLED
                                  Example.constants))
                     VUndefined)) 0%nat Inputs.overridden_store,
         ∅, <[fullName Inputs.overridden_div := 0%nat]> ∅) ∧
  ∃ r c, components Tables.family_table !! r = Some c ∧
         fullName c = "p.home" ∧ children c = [] ∧
         truthy (disabled c) = false.
Proof.
  pose proof (overridden_components_are_skipped
                Example.constants Example.localeCompare Example.array_sort
                Inputs.fs_family example_array_sort_perm
                100 Tables.family_table family_table_built)
    as (Hdiv & _ & _ & Huri & _).
  split.
  - apply (Hdiv 0%nat 0%nat Inputs.overridden_store ∅ ∅
                Inputs.overridden_div).
    + reflexivity.
    + discriminate.
    + reflexivity.
  - apply (Huri "/" "p.home"). vm_compute. reflexivity.
Defined.

(** ** Scenarios *)

(** A div with a priority is listed before one without, and each pushed
    pattern lists its divs in that order. *)
Example scenario_pushed_divs :
  Scenarios.pushed_of (Example.build Scenarios.fs_pushed)
  = Some [("/app/*", ["n.B"; "n.A"]); ("/x", ["n.A"])].
Proof. vm_compute. reflexivity. Qed.

(** Two pages of one URI: the build fails, naming both. *)
Example scenario_uri_collision :
  Example.build Scenarios.fs_same_uri = Throw (UriCollision "p.two" "/" "p.one").
Proof. vm_compute. reflexivity. Qed.

(** A missing parent: the build fails, naming it. *)
Example scenario_missing_parent :
  Example.build Inputs.fs_missing_parent = Throw (MissingParent "page" "p.none").
Proof. vm_compute. reflexivity. Qed.

(** A div that extends itself: the walk up the chain uses up its fuel. *)
Example scenario_cycle :
  Example.build Scenarios.fs_cycle = Diverge.
Proof. vm_compute. reflexivity. Qed.

(** * Further properties *)

(** ** [extend] field by field *)

Lemma assoc_get_is_Some {A} (ps : list (string * A)) k :
  is_Some (assoc_get ps k) ↔ k ∈ ps.*1.
Proof.
  induction ps as [|[k' v] ps IH]; cbn.
  - split; [by intros [? ?]|by intros ?%elem_of_nil].
  - rewrite elem_of_cons. destruct (String.eqb_spec k' k) as [->|Hne].
    + split; [by left|by eexists].
    + rewrite IH. split; [by right|]. by intros [?|?].
Qed.

Lemma assoc_get_elem {A} (ps : list (string * A)) k v :
  assoc_get ps k = Some v → (k, v) ∈ ps.
Proof.
  induction ps as [|[k' v'] ps IH]; cbn; [done|].
  destruct (String.eqb_spec k' k) as [->|Hne].
  - intros [= ->]. left.
  - intros H. right. by apply IH.
Qed.

Lemma hasOwnProperty_set cls ps k k' v :
  hasOwnProperty (VObj cls ps) k = true →
  hasOwnProperty (set_prop (VObj cls ps) k' v) k = true.
Proof.
  cbn. rewrite !bool_decide_eq_true. intros Hk.
  destruct (decide (k' = k)) as [->|Hne].
  - by rewrite assoc_get_set_eq.
  - by rewrite assoc_get_set_ne.
Qed.

Lemma extend_property_keeps_key cls ps p k :
  hasOwnProperty (VObj cls ps) k = true →
  hasOwnProperty (extend_property (VObj cls ps) p) k = true.
Proof.
  intros Hk. destruct p as [k' v]. unfold extend_property, extend_scalar.
  repeat case_match; try done; by apply hasOwnProperty_set.
Qed.

Lemma extend_property_adds_key cls ps k v :
  hasOwnProperty (extend_property (VObj cls ps) (k, v)) k = true.
Proof.
  unfold extend_property, extend_scalar.
  destruct (isArray v); [|destruct (jstype_eqb _ _)].
  - cbn. rewrite assoc_get_set_eq. by apply bool_decide_eq_true.
  - cbn. rewrite assoc_get_set_eq. by apply bool_decide_eq_true.
  - destruct (hasOwnProperty (VObj cls ps) k) eqn:E; cbn [negb]; [done|].
    cbn. rewrite assoc_get_set_eq. by apply bool_decide_eq_true.
Qed.

Lemma extend_props_keeps_key cls ps props k :
  hasOwnProperty (VObj cls ps) k = true →
  hasOwnProperty (fold_left extend_property props (VObj cls ps)) k = true.
Proof.
  revert ps. induction props as [|p props IH]; intros ps Hk; [done|].
  cbn [fold_left]. destruct (extend_property_obj cls ps p) as [ps' E].
  rewrite E. apply IH. rewrite <- E. by apply extend_property_keeps_key.
Qed.

(** X1.  The merge drops no field: every field of the child and every field
    of the parent is a field of the merged definition. *)
Theorem extend_keeps_every_field
    (ccls pcls : objclass) (cprops pprops : list (string * value))
    (k : string) :
  k ∈ cprops.*1 ∨ k ∈ pprops.*1 →
  hasOwnProperty (extend (VObj ccls cprops) (VObj pcls pprops)) k = true.
Proof.
  rewrite extend_VObj. cbn [truthy]. intros [Hk|Hk].
  - apply extend_props_keeps_key. cbn. apply bool_decide_eq_true.
    by apply assoc_get_is_Some.
  - revert cprops. induction pprops as [|[k' v] pprops IH]; intros cprops.
    { by apply elem_of_nil in Hk. }
    cbn [fold_left]. destruct (extend_property_obj ccls cprops (k', v))
      as [ps' E].
    cbn in Hk. apply elem_of_cons in Hk as [->|Hk].
    + rewrite E. apply extend_props_keeps_key. rewrite <- E.
      apply extend_property_adds_key.
    + rewrite E. by apply IH.
Qed.

Lemma extend_keeps_every_field_witness :
  hasOwnProperty
    (extend (VRec [("version", VStr "2")])
            (VRec [("version", VStr "1"); ("uri", VStr "/")])) "uri" = true.
Proof.
  apply (extend_keeps_every_field ClsObject ClsObject
           [("version", VStr "2")] [("version", VStr "1"); ("uri", VStr "/")]).
  right. cbn. right. left.
Defined.

Lemma extend_scalar_field cls ps props k :
  (∀ v, (k, v) ∈ props → is_scalar v = true) →
  get_prop (fold_left extend_property props (VObj cls ps)) k =
  if hasOwnProperty (VObj cls ps) k then get_prop (VObj cls ps) k
  else default VUndefined (assoc_get props k).
Proof.
  revert ps. induction props as [|[k' v] props IH]; intros ps Hsc.
  { cbn. by destruct (assoc_get ps k). }
  cbn [fold_left]. destruct (extend_property_obj cls ps (k', v)) as [ps' E].
  rewrite E, IH by (intros v' Hv'; apply Hsc; by right). rewrite <- E.
  cbn [assoc_get]. destruct (String.eqb_spec k' k) as [->|Hne].
  - assert (is_scalar v = true) as Hv by (apply Hsc; left).
    unfold is_scalar in Hv. apply andb_true_iff in Hv as [Ha Ho].
    apply negb_true_iff in Ha, Ho.
    rewrite extend_property_adds_key.
    unfold extend_property, extend_scalar. rewrite Ha, Ho.
    destruct (hasOwnProperty (VObj cls ps) k) eqn:Hown; cbn [negb]; [done|].
    cbn. by rewrite assoc_get_set_eq.
  - rewrite extend_property_other by done.
    destruct (hasOwnProperty (VObj cls ps) k) eqn:Hown.
    + by rewrite extend_property_keeps_key.
    + assert (hasOwnProperty (extend_property (VObj cls ps) (k', v)) k = false)
        as ->; [|done].
      cbn in Hown. apply bool_decide_eq_false in Hown.
      rewrite E. cbn. apply bool_decide_eq_false. intros Hs. apply Hown.
      assert (assoc_get ps' k = assoc_get ps k) as <-; [|done].
      pose proof (extend_property_other cls ps k' k v Hne) as Hget.
      rewrite E in Hget. cbn in Hget.
      destruct (assoc_get ps' k) as [x|] eqn:E1; [|by destruct Hs].
      clear Hs. revert E E1. unfold extend_property, extend_scalar.
      repeat case_match; cbn; intros [= <-] E1;
        by rewrite ?assoc_get_set_ne in E1.
Qed.

(** X2.  For a field under which the parent holds nothing but scalars
    (neither an array nor an object), the child wins: the merged definition
    has the child's own value when the child has the field, and the parent's
    value when it has not. *)
Theorem extend_scalar_child_wins
    (ccls pcls : objclass) (cprops pprops : list (string * value))
    (k : string) :
  (∀ v, (k, v) ∈ pprops → is_scalar v = true) →
  get_prop (extend (VObj ccls cprops) (VObj pcls pprops)) k =
  if hasOwnProperty (VObj ccls cprops) k then get_prop (VObj ccls cprops) k
  else default VUndefined (assoc_get pprops k).
Proof. intros Hsc. rewrite extend_VObj. by apply extend_scalar_field. Qed.

Lemma extend_scalar_child_wins_witness :
  get_prop (extend (VRec [("version", VStr "2")])
                   (VRec [("version", VStr "1"); ("uri", VStr "/")]))
           "version" = VStr "2".
Proof.
  apply (extend_scalar_child_wins ClsObject ClsObject
           [("version", VStr "2")] [("version", VStr "1"); ("uri", VStr "/")]
           "version").
  intros v Hv. cbn in Hv.
  apply elem_of_cons in Hv as [[= ->]|Hv]; [done|].
  apply list_elem_of_singleton in Hv. discriminate Hv.
Defined.



(** ** [parseInt] and the priority of a component *)

Lemma parseInt_parseInt_string v : parseInt v = parseInt_string (to_string v).
Proof. reflexivity. Qed.

Lemma parse_digits_step radix c s acc dgt :
  digit_value radix c = Some dgt →
  parse_digits radix (String c s) acc
  = parse_digits radix s (Some (default 0 acc * radix + dgt)).
Proof. intros H. cbn [parse_digits]. by rewrite H. Qed.

Lemma parse_digits_uint (d : Decimal.uint) (acc : option Z) :
  parse_digits 10 (NilEmpty.string_of_uint d) acc =
  match d with
  | Decimal.Nil => acc
  | _ => Some (uint_value d (default 0 acc))
  end.
Proof.
  revert acc. induction d; intros acc; cbn [NilEmpty.string_of_uint]; [done|..];
    erewrite parse_digits_step by (vm_compute; reflexivity);
    rewrite IHd; destruct d; cbn [default uint_value]; reflexivity.
Qed.

Lemma uint_value_acc (d : Decimal.uint) (acc : positive) :
  uint_value d (Z.pos acc) = Z.pos (Pos.of_uint_acc d acc).
Proof.
  revert acc. induction d; intros acc; cbn [uint_value Pos.of_uint_acc];
    [done|..]; rewrite <- IHd; f_equal; lia.
Qed.

Lemma uint_value_0 (d : Decimal.uint) :
  uint_value d 0 = Z.of_N (Pos.of_uint d).
Proof.
  induction d; cbn [uint_value Pos.of_uint]; [done|exact IHd|..];
    change (0 * 10 + ?k) with k; cbn [Z.of_N]; apply uint_value_acc.
Qed.

Lemma uint_value_pos p : uint_value (Pos.to_uint p) 0 = Z.pos p.
Proof. by rewrite uint_value_0, DecimalPos.Unsigned.of_to. Qed.

(** The text of a number other than zero: no white space, no sign and no
    [0x] at its head. *)
Lemma parseInt_string_digits (d : Decimal.uint) :
  d ≠ Decimal.Nil →
  parseInt_string (NilEmpty.string_of_uint d) = Some (uint_value d 0) ∧
  parseInt_string (String "-" (NilEmpty.string_of_uint d))
  = Some (- uint_value d 0).
Proof.
  intros Hd. unfold parseInt_string.
  assert (parse_digits 10 (NilEmpty.string_of_uint d) None
          = Some (uint_value d 0)) as Hp.
  { rewrite parse_digits_uint. by destruct d. }
  destruct d as [|d|d|d|d|d|d|d|d|d|d]; [done|..];
    cbn [NilEmpty.string_of_uint] in *; cbn [skip_whitespace];
    repeat match goal with
           | |- context [is_whitespace ?c] =>
               let b := eval vm_compute in (is_whitespace c) in
               change (is_whitespace c) with b
           end;
    cbn -[parse_digits]; try (rewrite Hp; done).
  destruct d; cbn [NilEmpty.string_of_uint] in *; cbn -[parse_digits];
    by rewrite Hp.
Qed.

Lemma parseInt_string_Z_to_string (n : Z) :
  parseInt_string (Z_to_string n) = Some n.
Proof.
  unfold Z_to_string. destruct n as [|p|p]; cbn [Z.to_int NilZero.string_of_int].
  - reflexivity.
  - unfold NilZero.string_of_uint.
    pose proof (DecimalPos.Unsigned.to_uint_nonnil p) as Hnn.
    destruct (parseInt_string_digits (Pos.to_uint p) Hnn) as [H _].
    rewrite uint_value_pos in H. by destruct (Pos.to_uint p).
  - unfold NilZero.string_of_uint.
    pose proof (DecimalPos.Unsigned.to_uint_nonnil p) as Hnn.
    destruct (parseInt_string_digits (Pos.to_uint p) Hnn) as [_ H].
    rewrite uint_value_pos in H. by destruct (Pos.to_uint p).
Qed.

(** X4.  The priority of a component is the index its definition declares,
    whether the index is an integer number or the decimal text of one, as
    far as the host holds the integer exactly; it is 1000000 for a
    definition whose index is missing, [null] or a boolean. *)
Theorem priority_of_declared_index (K : Constants) (c : UIComponent) :
  (∀ n, exact_number n →
        get_prop (definition c) (UI_COMPONENT_DEFINITION_INDEX K) = VNum n ∨
        get_prop (definition c) (UI_COMPONENT_DEFINITION_INDEX K)
        = VStr (Z_to_string n) →
        priority K c = n) ∧
  (get_prop (definition c) (UI_COMPONENT_DEFINITION_INDEX K) = VUndefined ∨
   get_prop (definition c) (UI_COMPONENT_DEFINITION_INDEX K) = VNull ∨
   (∃ b, get_prop (definition c) (UI_COMPONENT_DEFINITION_INDEX K) = VBool b) →
   priority K c = 1000000).
Proof.
  unfold priority. split.
  - intros n _ [-> | ->]; rewrite parseInt_parseInt_string; cbn [to_string];
      by rewrite parseInt_string_Z_to_string.
  - intros [-> | [-> | [[|] ->]]]; reflexivity.
Qed.

(** X5.  Among two components, one whose definition declares the integer [n]
    as its index, an integer the host holds exactly, and one whose
    definition has no index: the declared one is sorted first when [n] is
    below 1000000 and last when [n] is above it, for the undeclared one
    counts as 1000000. *)
Theorem declared_priority_against_none
    (K : Constants) (localeCompare : string → string → Z)
    (a b : UIComponent) (n : Z) :
  exact_number n →
  get_prop (definition a) (UI_COMPONENT_DEFINITION_INDEX K) = VNum n →
  get_prop (definition b) (UI_COMPONENT_DEFINITION_INDEX K) = VUndefined →
  (n < 1000000 →
   compareRawUiComponents K localeCompare a b = -1 ∧
   compareRawUiComponents K localeCompare b a = 1) ∧
  (n > 1000000 →
   compareRawUiComponents K localeCompare a b = 1 ∧
   compareRawUiComponents K localeCompare b a = -1) ∧
  (n = 1000000 →
   compareRawUiComponents K localeCompare a b
   = localeCompare (fullName a) (fullName b)).
Proof.
  intros _ Ha Hb. rewrite !compareRawUiComponents_unfold.
  assert (priority K a = n) as ->.
  { unfold priority. rewrite Ha. rewrite parseInt_parseInt_string. cbn [to_string].
    by rewrite (parseInt_string_Z_to_string n). }
  assert (priority K b = 1000000) as ->.
  { unfold priority. by rewrite Hb. }
  split_and!; intros Hn.
  - destruct (Z.eqb_spec n 1000000), (Z.eqb_spec 1000000 n); try lia;
      destruct (Z.gtb_spec n 1000000), (Z.gtb_spec 1000000 n); try lia; done.
  - destruct (Z.eqb_spec n 1000000), (Z.eqb_spec 1000000 n); try lia;
      destruct (Z.gtb_spec n 1000000), (Z.gtb_spec 1000000 n); try lia; done.
  - subst n. by rewrite Z.eqb_refl.
Qed.

Lemma priority_of_declared_index_witness :
  priority Example.constants (Inputs.cx "z.last" 5) = 5.
Proof.
  apply (proj1 (priority_of_declared_index Example.constants
                  (Inputs.cx "z.last" 5)) 5).
  - unfold exact_number. lia.
  - left. reflexivity.
Defined.

Lemma declared_priority_against_none_witness :
  compareRawUiComponents Example.constants Example.localeCompare
    (Inputs.cx "z.last" 5) Inputs.flagged_div = -1 ∧
  compareRawUiComponents Example.constants Example.localeCompare
    Inputs.flagged_div (Inputs.cx "z.last" 5) = 1.
Proof.
  apply (proj1 (declared_priority_against_none
                  Example.constants Example.localeCompare
                  (Inputs.cx "z.last" 5) Inputs.flagged_div 5
                  ltac:(unfold exact_number; lia) eq_refl eq_refl)).
  lia.
Defined.
(** ** The cache of [utils.getLookupTable] across calls *)

(** X6.  With caching enabled, the call that follows a call that returned
    gives back the same table and leaves the store as it is, whatever the
    file system has become in between: the directories are not read again. *)
Theorem getLookupTable_second_call_cached
    (K : Constants) (localeCompare : string → string → Z)
    (array_sort : (ref → ref → Z) → list ref → list ref)
    (fs : FileSystem) (fuel : nat) (configs : value)
    (application application' : gmap string appvalue) (v : appvalue) :
  truthy (parseBoolean (get_prop configs (APP_CONF_CACHE_ENABLED K))
                       VUndefined) = true →
  getLookupTable K localeCompare array_sort fs fuel configs application
    = (Ret v, application') →
  ∀ fs' fuel',
    getLookupTable K localeCompare array_sort fs' fuel' configs application'
    = (Ret v, application').
Proof.
  intros Hen Hcall fs' fuel'. unfold getLookupTable in *.
  destruct (is_nullish configs); [done|]. rewrite Hen in *.
  destruct (application !! CACHE_KEY_LOOKUP_TABLE K) as [cached|] eqn:Hc.
  - destruct (app_truthy (Some cached)) eqn:Ht.
    + injection Hcall as <- <-. by rewrite Hc, Ht.
    + destruct (buildLookupTable _ _ _ fs fuel) as [t| |]; [|done..].
      injection Hcall as <- <-. by rewrite lookup_insert_eq.
  - destruct (buildLookupTable _ _ _ fs fuel) as [t| |]; [|done..].
    injection Hcall as <- <-. by rewrite lookup_insert_eq.
Qed.

Lemma getLookupTable_second_call_cached_witness :
  getLookupTable Example.constants Example.localeCompare Example.array_sort
                 Inputs.fs_family 100 (VRec [("cachingEnabled", VStr "yes")])
                 Inputs.stale_cache
  = (Ret (AppValue (VStr "previous table")), Inputs.stale_cache).
Proof.
  apply (getLookupTable_second_call_cached
           Example.constants Example.localeCompare Example.array_sort
           Inputs.fs_missing_parent 100
           (VRec [("cachingEnabled", VStr "yes")])
           Inputs.stale_cache Inputs.stale_cache
           (AppValue (VStr "previous table"))).
  - reflexivity.
  - vm_compute. reflexivity.
Defined.

(** ** What [utils.getFurthestChild] and [utils.getFileInUiComponent] return *)

Section FileLookupResults.
Context (equals : store → ref → ref → bool).
Context (compareTo : store → ref → option ref → outcome Z).
Context (fs : FileSystem).


Lemma file_in_parents_found h rel ps f :
  file_in_parents fs h rel ps = Some f →
  ∃ p, p ∈ ps ∧ f = path (h !!! p) +:+ rel ∧ is_file fs f = true.
Proof.
  induction ps as [|q ps IH]; intros Hf; [done|]. cbn in Hf.
  destruct (isExists fs (path (h !!! q) +:+ rel)
            && negb (isDirectory fs (path (h !!! q) +:+ rel))) eqn:E.
  - injection Hf as <-. exists q. split; [by left|done].
  - destruct (IH Hf) as (p & Hp & Hfp & Hfile).
    exists p. split; [by right|done].
Qed.

(** X8.  A file [getFileInUiComponent] returns exists and is no directory,
    and it lies in the directory of the furthest child or of one of that
    child's parents, at the relative path with a slash at its head. *)
Theorem getFileInUiComponent_found_exists
    (h : store) (uiComponent : ref) (relativeFilePath f : string) :
  getFileInUiComponent equals compareTo fs h uiComponent relativeFilePath
    = Ret (Some f) →
  is_file fs f = true ∧
  ∃ d r,
    getFurthestChild equals compareTo h uiComponent = Ret (Some d) ∧
    (r = d ∨ r ∈ parents (h !!! d)) ∧
    f = path (h !!! r) +:+ normalise_path relativeFilePath.
Proof.
  unfold getFileInUiComponent. intros Hres.
  apply bind_Ret_inv in Hres as ([d|] & Hd & Hres); [|done].
  destruct (isExists fs (path (h !!! d) +:+ normalise_path relativeFilePath)
            && negb (isDirectory fs (path (h !!! d)
                                     +:+ normalise_path relativeFilePath)))
    eqn:E.
  - injection Hres as <-. split; [done|]. exists d, d. by split_and!; [|left|].
  - injection Hres as Hres.
    apply file_in_parents_found in Hres as (p & Hp & -> & Hfile).
    split; [done|]. exists d, p. by split_and!; [|right|].
Qed.
End FileLookupResults.


Lemma getFileInUiComponent_found_exists_witness :
  is_file Inputs.fs_templates "/components/root/divs/a.x/x.hbs" = true ∧
  ∃ d r,
    getFurthestChild Example.equals Example.compareTo
                     Inputs.templates_store 0%nat = Ret (Some d) ∧
    (r = d ∨ r ∈ parents (Inputs.templates_store !!! d)) ∧
    "/components/root/divs/a.x/x.hbs"
    = path (Inputs.templates_store !!! r) +:+ normalise_path "x.hbs".
Proof.
  apply (getFileInUiComponent_found_exists Example.equals Example.compareTo
           Inputs.fs_templates Inputs.templates_store 0%nat "x.hbs"
           "/components/root/divs/a.x/x.hbs").
  vm_compute. reflexivity.
Defined.
(** ** The loops of [getLookupTable] as folds *)

Lemma div_body_exact K i x (h : store) pd all st' c :
  h !! x = Some c →
  div_body K i x (h, pd, all) = Ret st' →
  st' = (alter (set_index_disabled (0 + i) (definition_disabled K c)) x h,
         (if truthy (definition_disabled K c)
             || negb (length (children c) =? 0)%nat
          then pd else div_step K c pd),
         (if truthy (definition_disabled K c) then all
          else <[fullName c := x]> all)) ∧
  (truthy (definition_disabled K c) = false → children c = [] →
   success (validateDivDefinition K c) = true).
Proof.
  intros Hc. unfold div_body, definition_disabled, div_step.
  rewrite (list_lookup_total_correct _ _ _ Hc).
  rewrite (alter_lookup_total _ _ _ _ Hc). cbn.
  destruct (truthy (parseBoolean _ _)) eqn:Hd.
  { by intros [= <-]. }
  destruct (children c) as [|k ks] eqn:Hch; cbn.
  2:{ by intros [= <-]. }
  unfold validateDivDefinition. cbn.
  repeat case_match; try done; by intros [= <-].
Qed.

Lemma page_body_exact K fs layoutsData off j x (h : store) um all st' c :
  h !! x = Some c →
  page_body K fs layoutsData off j x (h, um, all) = Ret st' →
  st' = (alter (set_index_disabled (off + j) (definition_disabled K c)) x h,
         (if truthy (definition_disabled K c)
             || negb (length (children c) =? 0)%nat
          then um else page_step K c um),
         (if truthy (definition_disabled K c) then all
          else <[fullName c := x]> all)) ∧
  (truthy (definition_disabled K c) = false → children c = [] →
   success (validatePageDefinition K fs c layoutsData) = true ∧
   truthy (VStr (default ""
                   (um !! to_string (get_prop (definition c)
                                              (PAGE_DEFINITION_URI K)))))
   = false).
Proof.
  intros Hc. unfold page_body, definition_disabled, page_step.
  rewrite (list_lookup_total_correct _ _ _ Hc).
  rewrite (alter_lookup_total _ _ _ _ Hc). cbn.
  destruct (truthy (parseBoolean _ _)) eqn:Hd.
  { by intros [= <-]. }
  destruct (children c) as [|k ks] eqn:Hch; cbn.
  2:{ by intros [= <-]. }
  unfold validatePageDefinition. cbn.
  repeat case_match; try done; by intros [= <-].
Qed.

Section ExactLoop.
Context {Reg : Type}.
Context (body : nat → ref → store * Reg * gmap string ref →
                outcome (store * Reg * gmap string ref)).
Context (off : nat) (dis : UIComponent → value).
Context (step : UIComponent → Reg → Reg).
Context (valid : UIComponent → Reg → Prop).

Hypothesis body_exact :
  ∀ i x (h : store) reg all st' c,
    h !! x = Some c → body i x (h, reg, all) = Ret st' →
    st' = (alter (set_index_disabled (off + i) (dis c)) x h,
           (if truthy (dis c) || negb (length (children c) =? 0)%nat
            then reg else step c reg),
           (if truthy (dis c) then all else <[fullName c := x]> all)) ∧
    (truthy (dis c) = false → children c = [] → valid c reg).

Lemma exact_loop (h0 : store) reg0 all0 (arr : list ref) st' :
  NoDup arr → (∀ r, r ∈ arr → (r < length h0)%nat) →
  for_each body 0 arr (h0, reg0, all0) = Ret st' →
  length st'.1.1 = length h0 ∧
  (∀ r, r ∉ arr → st'.1.1 !! r = h0 !! r) ∧
  (∀ i r c, arr !! i = Some r → h0 !! r = Some c →
            st'.1.1 !! r
            = Some (set_index_disabled (off + i) (dis c) c)) ∧
  st'.1.2 = fold_left (loop_registers dis step h0) arr reg0 ∧
  st'.2 = fold_left (loop_enters dis h0) arr all0 ∧
  (∀ i r c, arr !! i = Some r → h0 !! r = Some c →
            truthy (dis c) = false → children c = [] →
            valid c (fold_left (loop_registers dis step h0)
                               (take i arr) reg0)).
Proof.
  intros Hnd Hrange Hrun.
  apply (for_each_ind body
           (fun pre st =>
              length st.1.1 = length h0 ∧
              (∀ r, r ∉ pre → st.1.1 !! r = h0 !! r) ∧
              (∀ i r c, pre !! i = Some r → h0 !! r = Some c →
                        st.1.1 !! r
                        = Some (set_index_disabled (off + i) (dis c) c)) ∧
              st.1.2 = fold_left (loop_registers dis step h0) pre reg0 ∧
              st.2 = fold_left (loop_enters dis h0) pre all0 ∧
              (∀ i r c, pre !! i = Some r → h0 !! r = Some c →
                        truthy (dis c) = false → children c = [] →
                        valid c (fold_left (loop_registers dis step h0)
                                           (take i pre) reg0)))
           arr [] _ st' Hrun).
  - cbn. split_and!; try done; intros i r c Hi; by rewrite lookup_nil in Hi.
  - clear Hrun st'. intros pre x [[h1 reg1] all1] st2 Hpre Hinv Hb.
    cbn [fst snd] in Hinv.
    destruct Hinv as (Hlen & Huntouched & Hset & Hreg & Hall & Hvalid).
    pose proof (prefix_snoc_NoDup _ _ _ Hnd Hpre) as Hxpre.
    apply prefix_snoc_elem in Hpre as [Hxarr _]. cbn in Hxarr.
    assert (is_Some (h0 !! x)) as [c Hc0].
    { apply lookup_lt_is_Some_2. by apply Hrange. }
    assert (h1 !! x = Some c) as Hc by (by rewrite Huntouched).
    destruct (body_exact _ _ _ _ _ _ _ Hc Hb) as (-> & Hval).
    cbn [fst snd].
    assert (h0 !!! x = c) as Hx0 by (by apply list_lookup_total_correct).
    split_and!.
    + by rewrite length_alter.
    + intros r [Hr1 Hr2%not_elem_of_cons]%not_elem_of_app.
      rewrite list_lookup_alter_ne by (intros ->; tauto).
      by apply Huntouched.
    + intros i r c' Hi Hc'. apply lookup_app_Some in Hi as [Hi|[Hge Hi]].
      * rewrite list_lookup_alter_ne.
        -- by apply Hset.
        -- intros ->. apply Hxpre. by eapply list_elem_of_lookup_2.
      * apply list_lookup_singleton_Some in Hi as [Hi <-].
        assert (c' = c) as -> by congruence.
        rewrite list_lookup_alter. case_decide; [|done]. rewrite Hc. cbn.
        do 3 f_equal. lia.
    + rewrite fold_left_app. cbn. unfold loop_registers at 1.
      by rewrite Hx0, Hreg.
    + rewrite fold_left_app. cbn. unfold loop_enters at 1.
      by rewrite Hx0, Hall.
    + intros i r c' Hi Hc' Hdis Hch.
      apply lookup_app_Some in Hi as [Hi|[Hge Hi]].
      * rewrite take_app_le by (apply lookup_lt_Some in Hi; lia).
        by apply (Hvalid i r).
      * apply list_lookup_singleton_Some in Hi as [Hi <-].
        assert (c' = c) as -> by congruence.
        assert (i = length pre) as -> by lia.
        rewrite take_app_length. rewrite <- Hreg. by apply Hval.
Qed.
End ExactLoop.

Lemma fold_left_ext_in {A B} (f g : A → B → A) (l : list B) (a : A) :
  (∀ a x, x ∈ l → f a x = g a x) → fold_left f l a = fold_left g l a.
Proof.
  revert a. induction l as [|x l IH]; intros a Hfg; cbn; [done|].
  rewrite Hfg by left. apply IH. intros a' y Hy. apply Hfg. by right.
Qed.

(** A component keeps what the registry reads of it when it is given its
    [index] and its [disabled] flag. *)
Lemma loop_registers_final {Reg : Type} (dis : UIComponent → value)
    (step : UIComponent → Reg → Reg) (h0 h' : store) i r c reg :
  (∀ i v c, step (set_index_disabled i v c) = step c) →
  h0 !! r = Some c →
  h' !! r = Some (set_index_disabled i (dis c) c) →
  loop_registers dis step h0 reg r = loop_registers disabled step h' reg r.
Proof.
  intros Hstep Hc Hc'. unfold loop_registers.
  rewrite (list_lookup_total_correct _ _ _ Hc).
  rewrite (list_lookup_total_correct _ _ _ Hc'). cbn. by rewrite Hstep.
Qed.

Lemma loop_enters_final (dis : UIComponent → value) (h0 h' : store)
    i r c all :
  h0 !! r = Some c →
  h' !! r = Some (set_index_disabled i (dis c) c) →
  loop_enters dis h0 all r = loop_enters disabled h' all r.
Proof.
  intros Hc Hc'. unfold loop_enters.
  rewrite (list_lookup_total_correct _ _ _ Hc).
  by rewrite (list_lookup_total_correct _ _ _ Hc').
Qed.

Section BuildExact.
Context (K : Constants).
Context (localeCompare : string → string → Z).
Context (array_sort : (ref → ref → Z) → list ref → list ref).
Context (fs : FileSystem).

Hypothesis array_sort_perm : ∀ cmp l, array_sort cmp l ≡ₚ l.

Lemma buildLookupTable_inv_layouts fuel t :
  buildLookupTable K localeCompare array_sort fs fuel = Ret t →
  ∃ divsData hd h1 all1 pagesData hp,
    getLayoutsData fs (DIRECTORY_APP_LAYOUTS K) = Ret (layouts t) ∧
    getUiComponentsData K localeCompare array_sort fs fuel "div"
      (DIRECTORY_APP_DIVS K) [] = Ret (divsData, hd) ∧
    for_each (div_body K) 0 (cd_array divsData) (hd, ∅, ∅)
      = Ret (h1, pushedDivs t, all1) ∧
    getUiComponentsData K localeCompare array_sort fs fuel "page"
      (DIRECTORY_APP_PAGES K) h1 = Ret (pagesData, hp) ∧
    for_each (page_body K fs (layouts t) (length (cd_array divsData))) 0
             (cd_array pagesData) (hp, ∅, all1)
      = Ret (components t, uriPagesMap t, uiComponents t).
Proof.
  unfold buildLookupTable.
  intros (layoutsData & Hl & H)%bind_Ret_inv.
  apply bind_Ret_inv in H as ([divsData hd] & Hd & H).
  apply bind_Ret_inv in H as ([[h1 pd] all1] & Hdl & H).
  apply bind_Ret_inv in H as ([pagesData hp] & Hp & H).
  apply bind_Ret_inv in H as ([[h um] all] & Hpl & [= <-]).
  by exists divsData, hd, h1, all1, pagesData, hp.
Qed.

(** A build that returns has run its two loops to the end: what they have
    left in the table is what the folds below compute from the components
    of the table. *)
Lemma build_exact fuel t :
  buildLookupTable K localeCompare array_sort fs fuel = Ret t →
  ∃ divsData hd pagesData h1 hp,
    getUiComponentsData K localeCompare array_sort fs fuel "div"
      (DIRECTORY_APP_DIVS K) [] = Ret (divsData, hd) ∧
    getUiComponentsData K localeCompare array_sort fs fuel "page"
      (DIRECTORY_APP_PAGES K) h1 = Ret (pagesData, hp) ∧
    getLayoutsData fs (DIRECTORY_APP_LAYOUTS K) = Ret (layouts t) ∧
    NoDup (cd_array divsData ++ cd_array pagesData) ∧
    (∀ r, (r < length (components t))%nat ↔
          r ∈ cd_array divsData ++ cd_array pagesData) ∧
    (∀ r c, components t !! r = Some c →
            disabled c = definition_disabled K c) ∧
    pushedDivs t
    = fold_left (loop_registers disabled (div_step K) (components t))
                (cd_array divsData) ∅ ∧
    uriPagesMap t
    = fold_left (loop_registers disabled (page_step K) (components t))
                (cd_array pagesData) ∅ ∧
    uiComponents t
    = fold_left (loop_enters disabled (components t))
                (cd_array divsData ++ cd_array pagesData) ∅ ∧
    (∀ r c, r ∈ cd_array divsData → components t !! r = Some c →
            is_registered c = true →
            success (validateDivDefinition K c) = true) ∧
    (∀ i r c, cd_array pagesData !! i = Some r →
              components t !! r = Some c → is_registered c = true →
              success (validatePageDefinition K fs c (layouts t)) = true ∧
              truthy (VStr (default ""
                (fold_left
                   (loop_registers disabled (page_step K) (components t))
                   (take i (cd_array pagesData)) ∅
                 !! to_string (get_prop (definition c)
                                        (PAGE_DEFINITION_URI K)))))
              = false) ∧
    (∀ i r, cd_array divsData !! i = Some r →
            ∃ c, hd !! r = Some c ∧
                 components t !! r
                 = Some (set_index_disabled (0 + i)
                           (definition_disabled K c) c)) ∧
    (∀ j r, cd_array pagesData !! j = Some r →
            ∃ c, hp !! r = Some c ∧
                 components t !! r
                 = Some (set_index_disabled (length (cd_array divsData) + j)
                           (definition_disabled K c) c)).
Proof.
  intros (dd & hd & h1 & all1 & pdta & hp
          & Hl & Hd & Hdl & Hp & Hpl)%buildLookupTable_inv_layouts.
  exists dd, hd, pdta, h1, hp. split; [done|]. split; [done|].
  split; [done|].
  destruct (sorted_array_facts K localeCompare array_sort fs
              array_sort_perm _ _ _ _ _ _ Hd)
    as (Hnd_d & Hin_d & Hlen_d & _).
  destruct (sorted_array_facts K localeCompare array_sort fs
              array_sort_perm _ _ _ _ _ _ Hp)
    as (Hnd_p & Hin_p & Hlen_p & _).
  destruct (getUiComponentsData_spec _ _ _ _ _ _ _ _ _ _ Hp)
    as (np & Hnp & Hframe & _).
  cbn [length] in Hin_d, Hlen_d.
  assert (∀ r, r ∈ cd_array dd → (r < length hd)%nat) as Hrange_d
    by (intros r Hr%Hin_d; lia).
  destruct (exact_loop (div_body K) 0 (definition_disabled K) (div_step K)
              (fun c _ => success (validateDivDefinition K c) = true)
              (div_body_exact K)
              hd ∅ ∅ (cd_array dd) _ Hnd_d Hrange_d Hdl)
    as (Hlen1 & _ & Hset1 & Hreg1 & Hall1 & Hval1).
  assert (∀ r, r ∈ cd_array pdta → (r < length hp)%nat) as Hrange_p
    by (intros r Hr%Hin_p; lia).
  destruct (exact_loop (page_body K fs (layouts t) (length (cd_array dd)))
              (length (cd_array dd)) (definition_disabled K) (page_step K)
              (fun c um =>
                 success (validatePageDefinition K fs c (layouts t)) = true ∧
                 truthy (VStr (default ""
                   (um !! to_string (get_prop (definition c)
                                              (PAGE_DEFINITION_URI K)))))
                 = false)
              (page_body_exact K fs (layouts t) (length (cd_array dd)))
              hp ∅ all1 (cd_array pdta) _ Hnd_p Hrange_p Hpl)
    as (Hlen2 & Huntouched2 & Hset2 & Hreg2 & Hall2 & Hval2).
  cbn [fst snd] in *.
  assert (∀ r, (r < length h1)%nat → components t !! r = h1 !! r) as Hkeep.
  { intros r Hr. rewrite Huntouched2, Hframe; [done..|].
    rewrite Hin_p. lia. }
  (* the components of the table, from those the discoveries have left *)
  assert (∀ i r, cd_array dd !! i = Some r →
            ∃ c, hd !! r = Some c ∧
                 components t !! r
                 = Some (set_index_disabled (0 + i)
                           (definition_disabled K c) c)) as Hfinal_d.
  { intros i r Hi.
    destruct (lookup_lt_is_Some_2 hd r) as [c Hc].
    { apply Hrange_d. by eapply list_elem_of_lookup_2. }
    exists c. split; [done|]. rewrite Hkeep.
    - by apply Hset1.
    - rewrite Hlen1. by apply lookup_lt_Some in Hc. }
  assert (∀ j r, cd_array pdta !! j = Some r →
            ∃ c, hp !! r = Some c ∧
                 components t !! r
                 = Some (set_index_disabled (length (cd_array dd) + j)
                           (definition_disabled K c) c)) as Hfinal_p.
  { intros j r Hj.
    destruct (lookup_lt_is_Some_2 hp r) as [c Hc].
    { apply Hrange_p. by eapply list_elem_of_lookup_2. }
    exists c. split; [done|]. by apply Hset2. }
  assert (∀ a r, r ∈ cd_array dd →
            loop_registers (definition_disabled K) (div_step K) hd a r
            = loop_registers disabled (div_step K) (components t) a r)
    as Hext_d.
  { intros a r [i Hi]%list_elem_of_lookup_1.
    destruct (Hfinal_d i r Hi) as (c & Hc & Hc').
    by apply (loop_registers_final _ _ _ _ (0 + i) r c). }
  assert (∀ a r, r ∈ cd_array pdta →
            loop_registers (definition_disabled K) (page_step K) hp a r
            = loop_registers disabled (page_step K) (components t) a r)
    as Hext_p.
  { intros a r [j Hj]%list_elem_of_lookup_1.
    destruct (Hfinal_p j r Hj) as (c & Hc & Hc').
    by apply (loop_registers_final _ _ _ _
                (length (cd_array dd) + j) r c). }
  split_and!.
  - apply NoDup_app. split; [done|]. split; [|done].
    intros r Hr1%Hin_d Hr2%Hin_p. lia.
  - intros r. rewrite elem_of_app, Hin_d, Hin_p, Hlen2. lia.
  - intros r c' Hc'.
    assert (r ∈ cd_array dd ∨ r ∈ cd_array pdta) as [Hr|Hr].
    { apply lookup_lt_Some in Hc'. rewrite Hin_d, Hin_p. lia. }
    + apply list_elem_of_lookup_1 in Hr as [i Hi].
      destruct (Hfinal_d i r Hi) as (c & _ & Hc).
      rewrite Hc in Hc'. by injection Hc' as <-.
    + apply list_elem_of_lookup_1 in Hr as [j Hj].
      destruct (Hfinal_p j r Hj) as (c & _ & Hc).
      rewrite Hc in Hc'. by injection Hc' as <-.
  - rewrite Hreg1. by apply fold_left_ext_in.
  - rewrite Hreg2. by apply fold_left_ext_in.
  - rewrite Hall2, Hall1, fold_left_app.
    rewrite (fold_left_ext_in
               (loop_enters (definition_disabled K) hd)
               (loop_enters disabled (components t)) (cd_array dd)).
    + apply fold_left_ext_in.
      intros a r [j Hj]%list_elem_of_lookup_1.
      destruct (Hfinal_p j r Hj) as (c & Hc & Hc').
      by apply (loop_enters_final _ _ _ (length (cd_array dd) + j) r c).
    + intros a r [i Hi]%list_elem_of_lookup_1.
      destruct (Hfinal_d i r Hi) as (c & Hc & Hc').
      by apply (loop_enters_final _ _ _ (0 + i) r c).
  - intros r c' [i Hi]%list_elem_of_lookup_1 Hc' Hreg.
    destruct (Hfinal_d i r Hi) as (c & Hc & Hcf).
    rewrite Hcf in Hc'. injection Hc' as <-.
    unfold is_registered in Hreg. cbn in Hreg.
    apply andb_true_iff in Hreg as [Hdis%negb_true_iff Hch%Nat.eqb_eq].
    apply (Hval1 i r c Hi Hc Hdis). by apply nil_length_inv.
  - intros j r c' Hj Hc' Hreg.
    destruct (Hfinal_p j r Hj) as (c & Hc & Hcf).
    rewrite Hcf in Hc'. injection Hc' as <-.
    unfold is_registered in Hreg. cbn in Hreg.
    apply andb_true_iff in Hreg as [Hdis%negb_true_iff Hch%Nat.eqb_eq].
    rewrite <- (fold_left_ext_in
                  (loop_registers (definition_disabled K) (page_step K) hp)).
    + apply (Hval2 j r c Hj Hc Hdis). by apply nil_length_inv.
    + intros a x Hx. apply Hext_p. by apply (subseteq_take j).
  - done.
  - done.
Qed.
End BuildExact.
(** ** What stays of a component from its discovery on *)

Lemma placed_same_static fs cp ty c c' :
  same_static c c' → placed fs cp ty c → placed fs cp ty c'.
Proof.
  intros (Hf & Hs & Hp & Ht & Htf & Hsf). unfold placed.
  by rewrite Hf, Hs, Hp, Ht, Htf, Hsf.
Qed.

Section StoreInvariant.
Context (K : Constants).
Context (localeCompare : string → string → Z).
Context (array_sort : (ref → ref → Z) → list ref → list ref).
Context (fs : FileSystem).
Context (Q : ref → UIComponent → Prop).

Hypothesis Q_static : ∀ r c c', same_static c c' → Q r c → Q r c'.

Lemma store_all_alter (f : UIComponent → UIComponent) x (h : store) :
  (∀ c, same_static c (f c)) → store_all Q h → store_all Q (alter f x h).
Proof.
  intros Hf Hh r c Hc. rewrite list_lookup_alter in Hc.
  case_decide as Hx.
  - subst x. apply fmap_Some in Hc as (c0 & Hc0 & ->).
    apply (Q_static r c0); [apply Hf|]. by apply Hh.
  - by apply Hh.
Qed.

Lemma store_all_snoc (h : store) c :
  store_all Q h → Q (length h) c → store_all Q (h ++ [c]).
Proof.
  intros Hh Hc r c' [Hr|[Hge Hr]]%lookup_app_Some; [by apply Hh|].
  apply list_lookup_singleton_Some in Hr as [Hr <-].
  by replace r with (length h) by lia.
Qed.

Lemma populate_body_store_all n0 cp ty i name (st st' : collections) :
  (∀ r c, (n0 ≤ r)%nat → placed fs cp ty c → Q r c) →
  (n0 ≤ length st.1.1)%nat ∧ store_all Q st.1.1 →
  populate_body fs cp ty i name st = Ret st' →
  (n0 ≤ length st'.1.1)%nat ∧ store_all Q st'.1.1.
Proof.
  destruct st as [[h m] l]. intros Hnew [Hlen Hall]. cbn in Hlen, Hall.
  unfold populate_body.
  destruct (isDirectory fs (cp +:+ "/" +:+ name)) eqn:Hdir; cbn.
  2:{ by intros [= <-]. }
  destruct (String.eqb_spec
              (substr_from name (lastIndexOf name "." + 1)) "")
    as [|Hshort]; [done|].
  destruct (isExists fs _) eqn:Hex; [|done]. cbn.
  match goal with
  | |- context [isDirectory fs ?f] =>
      destruct (isDirectory fs f) eqn:Hjd; [done|]
  end.
  destruct (require fs _) as [d|]; [|done]. intros [= <-]. cbn.
  split; [rewrite length_app; lia|].
  apply store_all_snoc; [done|]. apply Hnew; [done|].
  unfold placed, is_file. cbn. by rewrite Hdir, Hex, Hjd.
Qed.

Lemma populateComponentCollections_store_all n0 cp ty
    (st st' : collections) :
  (∀ r c, (n0 ≤ r)%nat → placed fs cp ty c → Q r c) →
  (n0 ≤ length st.1.1)%nat ∧ store_all Q st.1.1 →
  populateComponentCollections fs cp ty st = Ret st' →
  (n0 ≤ length st'.1.1)%nat ∧ store_all Q st'.1.1.
Proof.
  intros Hnew Hst. unfold populateComponentCollections.
  destruct (listFiles fs cp) as [dirs|]; [|done]. intros Hrun.
  apply (for_each_ind _
           (fun _ s => (n0 ≤ length s.1.1)%nat ∧ store_all Q s.1.1)
           dirs [] st st' Hrun); [done|].
  intros pre x s1 s2 _ Hs1 Hb.
  by apply (populate_body_store_all n0 cp ty (length pre) x s1 s2 Hnew Hs1).
Qed.

Lemma inherit_chain_store_all fuel ty (m : gmap string ref) c pn h h' :
  store_all Q h →
  inherit_chain K fuel ty m c pn h = Ret h' →
  store_all Q h'.
Proof.
  revert pn h. induction fuel as [|fuel IH]; intros pn h Hh;
    cbn [inherit_chain].
  - destruct (truthy pn); [done|]. by intros [= <-].
  - destruct (truthy pn); [|by intros [= <-]].
    destruct (m !! to_string pn) as [p|] eqn:Hp; [|done].
    cbv zeta. case_match; [done|]. apply IH.
    do 3 (apply store_all_alter; [done|]). exact Hh.
Qed.

Lemma getUiComponentsData_store_all fuel ty cp h0 cd h' :
  (∀ r collection c,
      (length h0 ≤ r)%nat →
      placed fs (DIRECTORY_APP_COMPONENTS K +:+ "/" +:+ collection +:+ cp)
             ty c →
      Q r c) →
  store_all Q h0 →
  getUiComponentsData K localeCompare array_sort fs fuel ty cp h0
    = Ret (cd, h') →
  store_all Q h'.
Proof.
  intros Hnew Hh0. unfold getUiComponentsData.
  destruct (listFiles fs (DIRECTORY_APP_COMPONENTS K)) as [dirs|]; [|done].
  intros ([[h m] l] & Hdisc & H)%bind_Ret_inv.
  apply bind_Ret_inv in H as (h2 & Hinh & [= _ <-]).
  assert ((length h0 ≤ length h)%nat ∧ store_all Q h) as [_ Hh].
  { apply (for_each_ind _
             (fun _ (s : collections) =>
                (length h0 ≤ length s.1.1)%nat ∧ store_all Q s.1.1)
             dirs [] (h0, ∅, []) (h, m, l) Hdisc); [done|].
    intros pre x s1 s2 _ Hs1 Hb. unfold collection_body in Hb.
    destruct (isDirectory fs _); cbn in Hb; [|by injection Hb as <-].
    eapply populateComponentCollections_store_all; [|exact Hs1|exact Hb].
    intros r c Hr. by apply Hnew. }
  apply (for_each_ind _ (fun _ s => store_all Q s) l [] h h2 Hinh);
    [done|].
  intros pre x s1 s2 _ Hs1 Hb. unfold inherit_body in Hb.
  case_match; [done|]. by eapply inherit_chain_store_all.
Qed.

Lemma div_loop_store_all (arr : list ref) (st st' : divs_state) :
  store_all Q st.1.1 →
  for_each (div_body K) 0 arr st = Ret st' →
  store_all Q st'.1.1.
Proof.
  intros Hst Hrun.
  apply (for_each_ind _ (fun _ (s : divs_state) => store_all Q s.1.1)
           arr [] st st' Hrun); [done|].
  intros pre x [[h pd] all] s2 _ Hs1 Hb.
  apply div_body_store in Hb as [v ->]. by apply store_all_alter.
Qed.

Lemma page_loop_store_all layoutsData off (arr : list ref)
    (st st' : pages_state) :
  store_all Q st.1.1 →
  for_each (page_body K fs layoutsData off) 0 arr st = Ret st' →
  store_all Q st'.1.1.
Proof.
  intros Hst Hrun.
  apply (for_each_ind _ (fun _ (s : pages_state) => store_all Q s.1.1)
           arr [] st st' Hrun); [done|].
  intros pre x [[h um] all] s2 _ Hs1 Hb.
  apply page_body_store in Hb as [v ->]. by apply store_all_alter.
Qed.
End StoreInvariant.

Lemma div_loop_length K (arr : list ref) (st st' : divs_state) :
  for_each (div_body K) 0 arr st = Ret st' →
  length st'.1.1 = length st.1.1.
Proof.
  intros Hrun.
  apply (for_each_ind _
           (fun _ (s : divs_state) => length s.1.1 = length st.1.1)
           arr [] st st' Hrun); [done|].
  intros pre x [[h pd] all] s2 _ Hs1 Hb.
  apply div_body_store in Hb as [v ->]. by rewrite length_alter.
Qed.

(** What holds of the components as the discoveries make them holds of the
    components of the table, when it does not depend on what the build
    changes later. *)
Lemma build_store_all K localeCompare array_sort fs
    (Q : ref → UIComponent → Prop) fuel t divsData hd :
  (∀ r c c', same_static c c' → Q r c → Q r c') →
  buildLookupTable K localeCompare array_sort fs fuel = Ret t →
  getUiComponentsData K localeCompare array_sort fs fuel "div"
    (DIRECTORY_APP_DIVS K) [] = Ret (divsData, hd) →
  (∀ r collection c,
      (r < length hd)%nat →
      placed fs (DIRECTORY_APP_COMPONENTS K +:+ "/" +:+ collection
                 +:+ DIRECTORY_APP_DIVS K) "div" c →
      Q r c) →
  (∀ r collection c,
      (length hd ≤ r)%nat →
      placed fs (DIRECTORY_APP_COMPONENTS K +:+ "/" +:+ collection
                 +:+ DIRECTORY_APP_PAGES K) "page" c →
      Q r c) →
  store_all Q (components t).
Proof.
  intros Hstatic Hbuild Hd Hdiv Hpage. unfold buildLookupTable in Hbuild.
  apply bind_Ret_inv in Hbuild as (layoutsData & Hl & H).
  rewrite Hd in H. cbn in H.
  apply bind_Ret_inv in H as ([[h1 pd] all1] & Hdl & H).
  apply bind_Ret_inv in H as ([pagesData hp] & Hp & H).
  apply bind_Ret_inv in H as ([[h um] all] & Hpl & [= <-]). cbn.
  assert (store_all Q hd) as Hhd.
  { assert (∀ r c c', same_static c c' →
              ((r < length hd)%nat → Q r c) → (r < length hd)%nat → Q r c')
      as Hstatic'.
    { intros r0 c0 c0' Hs Hq Hr. apply (Hstatic r0 c0); [done|]. by apply Hq. }
    assert (store_all (fun r c => (r < length hd)%nat → Q r c) hd) as Hhd'.
    { apply (getUiComponentsData_store_all K localeCompare array_sort fs
               (fun r c => (r < length hd)%nat → Q r c) Hstatic'
               fuel "div" (DIRECTORY_APP_DIVS K) [] divsData hd);
        [| |exact Hd].
      - intros r0 coll c0 _ Hpl0 Hr0. by eapply Hdiv.
      - intros r0 c0 Hc0. by rewrite lookup_nil in Hc0. }
    intros r c Hc. apply (Hhd' r c Hc). by apply lookup_lt_Some in Hc. }
  pose proof (div_loop_length _ _ _ _ Hdl) as Hlen1. cbn in Hlen1.
  pose proof (div_loop_store_all K Q Hstatic _ (hd, ∅, ∅) _ Hhd Hdl) as Hh1.
  cbn in Hh1.
  assert (store_all Q hp) as Hhp.
  { apply (getUiComponentsData_store_all K localeCompare array_sort fs Q
             Hstatic fuel "page" (DIRECTORY_APP_PAGES K) h1 pagesData hp);
      [|done..].
    intros r coll c Hr. apply Hpage. lia. }
  apply (page_loop_store_all K fs Q Hstatic _ _ _ (hp, ∅, all1) _ Hhp Hpl).
Qed.

(** ** The strings a component is named by *)

Lemma lastIndexOf_from_split i c s found :
  (lastIndexOf_from i c s found = found ∧ no_char c s) ∨
  (∃ pre post,
      s = pre +:+ String c post ∧ no_char c post ∧
      lastIndexOf_from i c s found = i + Z.of_nat (String.length pre)).
Proof.
  revert i found. induction s as [|d s IH]; intros i found; cbn.
  { left. split; [done|]. by intros []. }
  destruct (IH (i + 1) (if Ascii.eqb d c then i else found))
    as [[Hres Hno]|(pre & post & -> & Hno & Hres)].
  - destruct (Ascii.eqb_spec d c) as [->|Hne].
    + right. exists "", s. split; [done|]. split; [done|].
      rewrite Hres. cbn. lia.
    + left. split; [done|]. intros [Hin|Hin]; [done|]. by apply Hno.
  - right. exists (String d pre), post. split; [done|]. split; [done|].
    rewrite Hres. cbn [String.length]. lia.
Qed.

Lemma string_drop_past pre c post :
  string_drop (S (String.length pre)) (pre +:+ String c post) = post.
Proof. induction pre as [|d pre IH]; cbn; [done|]. exact IH. Qed.

Lemma substring_upto pre s :
  String.substring 0 (String.length pre) (pre +:+ s) = pre.
Proof.
  induction pre as [|d pre IH]; [by destruct s|].
  change (String d (String.substring 0 (String.length pre) (pre +:+ s))
          = String d pre).
  by rewrite IH.
Qed.

Lemma string_app_snoc pre c post :
  (pre +:+ String c "") +:+ post = pre +:+ String c post.
Proof.
  induction pre as [|d pre IH]; [done|].
  change (String d ((pre +:+ String c "") +:+ post)
          = String d (pre +:+ String c post)).
  by rewrite IH.
Qed.

Lemma string_app_nil_r s : s +:+ "" = s.
Proof.
  induction s as [|d s IH]; [done|].
  change (String d (s +:+ "") = String d s). by rewrite IH.
Qed.

(** What follows the last dot of a name has no dot, and the name is it with
    nothing before or with a prefix that ends in a dot. *)
Lemma short_name_spec (s : string) :
  let short := substr_from s (lastIndexOf s "." + 1) in
  no_char "." short ∧
  ∃ prefix, s = prefix +:+ short ∧
            (prefix = "" ∨ ∃ p, prefix = p +:+ ".").
Proof.
  unfold substr_from, lastIndexOf.
  destruct (lastIndexOf_from_split 0 "." s (-1))
    as [[-> Hno]|(pre & post & -> & Hno & ->)]; cbn.
  - split; [done|]. exists "". split; [done|]. by left.
  - replace (Z.to_nat (0 + Z.of_nat (String.length pre) + 1))
      with (S (String.length pre)) by lia.
    rewrite string_drop_past. split; [done|].
    exists (pre +:+ "."). split; [by rewrite string_app_snoc|].
    right. by exists pre.
Qed.

Section ComponentsOnDisk.
Context (K : Constants).
Context (localeCompare : string → string → Z).
Context (array_sort : (ref → ref → Z) → list ref → list ref).
Context (fs : FileSystem).

Lemma build_placed fuel t :
  buildLookupTable K localeCompare array_sort fs fuel = Ret t →
  ∀ r c, components t !! r = Some c →
    ∃ collection,
      placed fs (DIRECTORY_APP_COMPONENTS K +:+ "/" +:+ collection
                 +:+ DIRECTORY_APP_DIVS K) "div" c ∨
      placed fs (DIRECTORY_APP_COMPONENTS K +:+ "/" +:+ collection
                 +:+ DIRECTORY_APP_PAGES K) "page" c.
Proof.
  intros Hbuild.
  destruct (buildLookupTable_inv K localeCompare array_sort fs fuel t
              Hbuild)
    as (_ & dd & hd & _ & _ & _ & _ & Hd & _).
  apply (build_store_all K localeCompare array_sort fs
           (fun _ c =>
              ∃ collection,
                placed fs (DIRECTORY_APP_COMPONENTS K +:+ "/" +:+ collection
                           +:+ DIRECTORY_APP_DIVS K) "div" c ∨
                placed fs (DIRECTORY_APP_COMPONENTS K +:+ "/" +:+ collection
                           +:+ DIRECTORY_APP_PAGES K) "page" c)
           fuel t dd hd); [|done..| |].
  - intros _ c c' Hs [coll [H|H]]; exists coll; [left|right];
      by eapply placed_same_static.
  - intros _ coll c _ H. exists coll. by left.
  - intros _ coll c _ H. exists coll. by right.
Qed.

(** X9.  Every component of a built table stands for a directory the
    discovery has met: its path is that of a directory named by its full
    name in the divs or pages directory of a collection, with the type to
    match; the definition file named by its short name is there; and its
    template and script paths are set exactly when those files are. *)
Theorem components_are_on_disk fuel t :
  buildLookupTable K localeCompare array_sort fs fuel = Ret t →
  ∀ r c, components t !! r = Some c →
    ∃ collection componentsPath,
      (type c = "div" ∧ componentsPath = DIRECTORY_APP_DIVS K ∨
       type c = "page" ∧ componentsPath = DIRECTORY_APP_PAGES K) ∧
      path c = (DIRECTORY_APP_COMPONENTS K +:+ "/" +:+ collection
                +:+ componentsPath) +:+ "/" +:+ fullName c ∧
      isDirectory fs (path c) = true ∧
      is_file fs (path c +:+ "/" +:+ shortName c +:+ ".json") = true ∧
      templateFilePath c
      = (if is_file fs (path c +:+ "/" +:+ shortName c +:+ ".hbs")
         then Some (path c +:+ "/" +:+ shortName c +:+ ".hbs") else None) ∧
      scriptFilePath c
      = (if is_file fs (path c +:+ "/" +:+ shortName c +:+ ".js")
         then Some (path c +:+ "/" +:+ shortName c +:+ ".js") else None).
Proof.
  intros Hbuild r c Hc.
  destruct (build_placed fuel t Hbuild r c Hc)
    as [coll [(Ht & Hp & Hd & _ & _ & Hj & Htf & Hsf)
             |(Ht & Hp & Hd & _ & _ & Hj & Htf & Hsf)]].
  - exists coll, (DIRECTORY_APP_DIVS K). by split_and!; [left|..].
  - exists coll, (DIRECTORY_APP_PAGES K). by split_and!; [right|..].
Qed.

(** X10.  The short name of every component of a built table is what
    follows the last dot of its full name: it is not empty and has no dot,
    and the full name is the short name, alone or after a prefix that ends
    in a dot. *)
Theorem component_short_names fuel t :
  buildLookupTable K localeCompare array_sort fs fuel = Ret t →
  ∀ r c, components t !! r = Some c →
    shortName c ≠ "" ∧ no_char "." (shortName c) ∧
    ∃ prefix, fullName c = prefix +:+ shortName c ∧
              (prefix = "" ∨ ∃ p, prefix = p +:+ ".").
Proof.
  intros Hbuild r c Hc.
  assert (shortName c
          = substr_from (fullName c) (lastIndexOf (fullName c) "." + 1)
          ∧ shortName c ≠ "") as [Hs Hne].
  { by destruct (build_placed fuel t Hbuild r c Hc)
      as [coll [(_ & _ & _ & Hs & Hne & _)|(_ & _ & _ & Hs & Hne & _)]]. }
  split; [done|]. rewrite Hs. apply short_name_spec.
Qed.
End ComponentsOnDisk.

(** ** The table a build leaves *)

Lemma string_drop_nil n : string_drop n "" = "".
Proof. by destruct n. Qed.

Lemma placed_fullName fs cp ty c : placed fs cp ty c → fullName c ≠ "".
Proof.
  intros (_ & _ & _ & Hs & Hne & _) Hf. apply Hne. rewrite Hs, Hf.
  apply string_drop_nil.
Qed.

Lemma parseBoolean_boolean obj : ∃ b, parseBoolean obj VUndefined = VBool b.
Proof. destruct obj; cbn; eauto. Qed.

Lemma truthy_VStr s : s ≠ "" → truthy (VStr s) = true.
Proof. intros Hs. cbn. by destruct (String.eqb_spec s ""). Qed.

Lemma loop_registers_registered {Reg : Type}
    (step : UIComponent → Reg → Reg) (h : store) reg r :
  loop_registers disabled step h reg r
  = if is_registered (h !!! r) then step (h !!! r) reg else reg.
Proof.
  unfold loop_registers, is_registered.
  by destruct (truthy (disabled (h !!! r))),
              (length (children (h !!! r)) =? 0)%nat.
Qed.

Section BuildTyped.
Context (K : Constants).
Context (localeCompare : string → string → Z).
Context (array_sort : (ref → ref → Z) → list ref → list ref).
Context (fs : FileSystem).

Hypothesis array_sort_perm : ∀ cmp l, array_sort cmp l ≡ₚ l.

(** A build that returns, with the kind and the place of every component
    of its table. *)
Lemma build_typed fuel t :
  buildLookupTable K localeCompare array_sort fs fuel = Ret t →
  ∃ divsData hd pagesData h1 hp,
    getUiComponentsData K localeCompare array_sort fs fuel "div"
      (DIRECTORY_APP_DIVS K) [] = Ret (divsData, hd) ∧
    getUiComponentsData K localeCompare array_sort fs fuel "page"
      (DIRECTORY_APP_PAGES K) h1 = Ret (pagesData, hp) ∧
    getLayoutsData fs (DIRECTORY_APP_LAYOUTS K) = Ret (layouts t) ∧
    NoDup (cd_array divsData) ∧ NoDup (cd_array pagesData) ∧
    (∀ r, r ∈ cd_array divsData → r ∉ cd_array pagesData) ∧
    (∀ r, r ∈ cd_array divsData ++ cd_array pagesData →
          is_Some (components t !! r)) ∧
    (∀ r c, components t !! r = Some c →
            fullName c ≠ "" ∧
            ((r ∈ cd_array divsData ∧ type c = "div") ∨
             (r ∈ cd_array pagesData ∧ type c = "page"))) ∧
    pushedDivs t
    = fold_left (loop_registers disabled (div_step K) (components t))
                (cd_array divsData) ∅ ∧
    uriPagesMap t
    = fold_left (loop_registers disabled (page_step K) (components t))
                (cd_array pagesData) ∅ ∧
    uiComponents t
    = fold_left (loop_enters disabled (components t))
                (cd_array divsData ++ cd_array pagesData) ∅ ∧
    (∀ i r c, cd_array pagesData !! i = Some r →
              components t !! r = Some c → is_registered c = true →
              success (validatePageDefinition K fs c (layouts t)) = true ∧
              truthy (VStr (default ""
                (fold_left
                   (loop_registers disabled (page_step K) (components t))
                   (take i (cd_array pagesData)) ∅
                 !! to_string (get_prop (definition c)
                                        (PAGE_DEFINITION_URI K)))))
              = false) ∧
    (∀ i r, cd_array divsData !! i = Some r →
            ∃ c, hd !! r = Some c ∧
                 components t !! r
                 = Some (set_index_disabled (0 + i)
                           (definition_disabled K c) c)) ∧
    (∀ j r, cd_array pagesData !! j = Some r →
            ∃ c, hp !! r = Some c ∧
                 components t !! r
                 = Some (set_index_disabled (length (cd_array divsData) + j)
                           (definition_disabled K c) c)) ∧
    (∀ r c, r ∈ cd_array divsData → components t !! r = Some c →
            is_registered c = true →
            success (validateDivDefinition K c) = true).
Proof.
  intros Hbuild.
  destruct (build_exact K localeCompare array_sort fs array_sort_perm
              fuel t Hbuild)
    as (dd & hd & pdta & h1 & hp & Hd & Hp & Hl & Hnd & Hin & _
        & Hpd & Hum & Hall & Hvalid_d & Hvalid & Hfinal_d & Hfinal_p).
  exists dd, hd, pdta, h1, hp.
  apply NoDup_app in Hnd as (Hnd_d & Hdisj & Hnd_p).
  destruct (sorted_array_facts K localeCompare array_sort fs
              array_sort_perm _ _ _ _ _ _ Hd)
    as (_ & Hin_d & _).
  cbn [length] in Hin_d.
  pose proof (build_store_all K localeCompare array_sort fs
                (fun r c =>
                   fullName c ≠ "" ∧
                   (((r < length hd)%nat ∧ type c = "div") ∨
                    ((length hd ≤ r)%nat ∧ type c = "page")))
                fuel t dd hd) as Hkinds.
  split_and!; try done.
  - intros r Hr. apply lookup_lt_is_Some_2. by apply Hin.
  - intros r c Hc.
    destruct (Hkinds) with (r := r) (c := c)
      as (Hname & [[Hr Hty]|[Hr Hty]]); try done.
    + intros r0 c0 c0' (Hf & _ & _ & Ht & _) [Hn Hk].
      by rewrite Hf, Ht.
    + intros r0 coll c0 Hr0 Hpl. split; [by eapply placed_fullName|].
      left. split; [done|]. by destruct Hpl.
    + intros r0 coll c0 Hr0 Hpl. split; [by eapply placed_fullName|].
      right. split; [done|]. by destruct Hpl.
    + split; [done|]. left. split; [|done]. apply Hin_d. lia.
    + split; [done|]. right. split; [|done].
      assert (r ∈ cd_array dd ++ cd_array pdta) as [Hrd|Hrp]%elem_of_app.
      { apply Hin. by apply lookup_lt_Some in Hc. }
      * apply Hin_d in Hrd. lia.
      * done.
Qed.

(** X11.  The [disabled] flag of every component of a built table is a
    boolean: the one [parseBoolean] makes of the [disabled] field of its
    definition, merged with those of its parents. *)
Theorem disabled_flag_of_definition fuel t :
  buildLookupTable K localeCompare array_sort fs fuel = Ret t →
  ∀ r c, components t !! r = Some c →
    disabled c
    = parseBoolean (get_prop (definition c)
                             (UI_COMPONENT_DEFINITION_DISABLED K))
                   VUndefined ∧
    ∃ b, disabled c = VBool b.
Proof.
  intros Hbuild r c Hc.
  destruct (build_exact K localeCompare array_sort fs array_sort_perm
              fuel t Hbuild)
    as (_ & _ & _ & _ & _ & _ & _ & _ & _ & _ & Hdis & _).
  rewrite (Hdis r c Hc). split; [done|]. apply parseBoolean_boolean.
Qed.
End BuildTyped.

(** ** What the maps of a built table hold *)

Lemma loop_enters_fold_keeps dis (h : store) l (all : gmap string ref) n :
  is_Some (all !! n) → is_Some (fold_left (loop_enters dis h) l all !! n).
Proof.
  revert all. induction l as [|x l IH]; intros all Hn; cbn; [done|].
  apply IH. unfold loop_enters. destruct (truthy _); [done|].
  destruct (decide (fullName (h !!! x) = n)) as [<-|Hne].
  - rewrite lookup_insert_eq. eauto.
  - by rewrite lookup_insert_ne.
Qed.

Lemma loop_enters_fold_complete dis (h : store) l (all : gmap string ref) r :
  r ∈ l → truthy (dis (h !!! r)) = false →
  is_Some (fold_left (loop_enters dis h) l all !! fullName (h !!! r)).
Proof.
  revert all. induction l as [|x l IH]; intros all Hr Hdis.
  { by apply elem_of_nil in Hr. }
  cbn. apply elem_of_cons in Hr as [->|Hr]; [|by apply IH].
  apply loop_enters_fold_keeps. unfold loop_enters.
  rewrite Hdis, lookup_insert_eq. eauto.
Qed.

Lemma page_fold_sound K (h : store) l (um0 : gmap string string) uri n :
  fold_left (loop_registers disabled (page_step K) h) l um0 !! uri = Some n →
  um0 !! uri = Some n ∨
  ∃ r, r ∈ l ∧ is_registered (h !!! r) = true ∧
       to_string (get_prop (definition (h !!! r)) (PAGE_DEFINITION_URI K))
       = uri ∧
       fullName (h !!! r) = n.
Proof.
  revert um0. induction l as [|x l IH]; intros um0 Hn; cbn in Hn.
  { by left. }
  destruct (IH _ Hn) as [Hx|(r & Hr & Hrest)].
  - rewrite loop_registers_registered in Hx.
    destruct (is_registered (h !!! x)) eqn:Hreg; [|by left].
    unfold page_step in Hx.
    destruct (decide (to_string (get_prop (definition (h !!! x))
                                          (PAGE_DEFINITION_URI K)) = uri))
      as [Heq|Hne].
    + rewrite Heq, lookup_insert_eq in Hx. injection Hx as <-.
      right. exists x. split; [by left|done].
    + rewrite lookup_insert_ne in Hx by done. by left.
  - right. exists r. split; [by right|done].
Qed.

(** Every registered page met so far is found under its URI, as long as no
    URI was taken when its page came. *)
Lemma page_fold_complete K (h : store) (pp : list ref) :
  (∀ r, r ∈ pp → fullName (h !!! r) ≠ "") →
  (∀ i r, pp !! i = Some r → is_registered (h !!! r) = true →
          truthy (VStr (default ""
            (fold_left (loop_registers disabled (page_step K) h)
                       (take i pp) ∅
             !! to_string (get_prop (definition (h !!! r))
                                    (PAGE_DEFINITION_URI K)))))
          = false) →
  ∀ n i r, (i < n)%nat → pp !! i = Some r →
           is_registered (h !!! r) = true →
           fold_left (loop_registers disabled (page_step K) h) (take n pp) ∅
           !! to_string (get_prop (definition (h !!! r))
                                  (PAGE_DEFINITION_URI K))
           = Some (fullName (h !!! r)).
Proof.
  intros Hnames Hfree. induction n as [|n IH]; intros i r Hi Hr Hreg; [lia|].
  destruct (pp !! n) as [x|] eqn:Hx.
  2:{ apply lookup_ge_None in Hx. apply lookup_lt_Some in Hr as Hlt.
      rewrite take_ge by lia. rewrite take_ge in IH by lia.
      apply (IH i r); [lia|done..]. }
  rewrite (take_S_r _ _ _ Hx), fold_left_app. cbn.
  rewrite loop_registers_registered.
  destruct (decide (i = n)) as [->|Hne].
  - assert (x = r) as -> by congruence.
    rewrite Hreg. unfold page_step. by rewrite lookup_insert_eq.
  - assert (i < n)%nat as Hin by lia.
    pose proof (IH i r Hin Hr Hreg) as Hold.
    destruct (is_registered (h !!! x)) eqn:Hregx; [|done].
    unfold page_step. rewrite lookup_insert_ne; [done|].
    intros Heq. pose proof (Hfree n x Hx Hregx) as Hfr.
    rewrite Heq, Hold in Hfr. cbn [default] in Hfr.
    rewrite truthy_VStr in Hfr; [done|].
    apply Hnames. by eapply list_elem_of_lookup_2.
Qed.

Lemma push_div_fold_lookup name (els : list value)
    (pd : gmap string (list string)) pat :
  default [] (fold_left (push_div name) els pd !! pat)
  = default [] (pd !! pat)
    ++ ((fun _ => name) <$> filter (fun u => to_string u = pat) els).
Proof.
  revert pd. induction els as [|e els IH]; intros pd; cbn [fold_left].
  { cbn. by rewrite app_nil_r. }
  rewrite IH. unfold push_div. rewrite filter_cons.
  destruct (decide (to_string e = pat)) as [<-|Hne].
  - rewrite lookup_insert_eq. cbn. by rewrite <- app_assoc.
  - by rewrite lookup_insert_ne.
Qed.

Lemma div_fold_lookup K (h : store) (l : list ref)
    (pd : gmap string (list string)) pat :
  default [] (fold_left (loop_registers disabled (div_step K) h) l pd !! pat)
  = default [] (pd !! pat)
    ++ concat ((fun r => pushed_by K (h !!! r) pat) <$> l).
Proof.
  revert pd. induction l as [|x l IH]; intros pd; cbn.
  { by rewrite app_nil_r. }
  rewrite IH, loop_registers_registered, app_assoc. f_equal.
  unfold pushed_by, div_step.
  destruct (is_registered (h !!! x)); cbn; [|by rewrite app_nil_r].
  destruct (truthy _); [|by rewrite app_nil_r].
  apply push_div_fold_lookup.
Qed.

Lemma validatePageDefinition_success K fs c layoutsData :
  success (validatePageDefinition K fs c layoutsData) = true →
  truthy (get_prop (definition c) (UI_COMPONENT_DEFINITION_VERSION K)) = true ∧
  truthy (get_prop (definition c) (PAGE_DEFINITION_URI K)) = true ∧
  truthy (get_prop (definition c) (PAGE_DEFINITION_LAYOUT K)) = true ∧
  (is_Some (layoutsData
            !! to_string (get_prop (definition c) (PAGE_DEFINITION_LAYOUT K)))
   ∨ inherited fs (to_string (get_prop (definition c)
                                       (PAGE_DEFINITION_LAYOUT K))) = true).
Proof.
  unfold validatePageDefinition.
  destruct (truthy (get_prop _ (UI_COMPONENT_DEFINITION_VERSION K)));
    [|done].
  destruct (truthy (get_prop _ (PAGE_DEFINITION_URI K))); [|done].
  destruct (truthy (get_prop _ (PAGE_DEFINITION_LAYOUT K))); [|done]. cbn.
  case_bool_decide; [intros _; split_and!; try done; by left|].
  destruct (inherited fs _); [intros _; split_and!; try done; by right|done].
Qed.

Section TableContents.
Context (K : Constants).
Context (localeCompare : string → string → Z).
Context (array_sort : (ref → ref → Z) → list ref → list ref).
Context (fs : FileSystem).

Hypothesis array_sort_perm : ∀ cmp l, array_sort cmp l ≡ₚ l.

(** X12.  No enabled component is left out of [uiComponents]: under the
    full name of each there is an enabled component of that name. *)
Theorem enabled_components_in_uiComponents fuel t :
  buildLookupTable K localeCompare array_sort fs fuel = Ret t →
  ∀ r c, components t !! r = Some c → truthy (disabled c) = false →
    ∃ r' c', uiComponents t !! fullName c = Some r' ∧
             components t !! r' = Some c' ∧
             fullName c' = fullName c ∧ truthy (disabled c') = false.
Proof.
  intros Hbuild r c Hc Hdis.
  destruct (build_typed K localeCompare array_sort fs array_sort_perm
              fuel t Hbuild)
    as (dd & hd & pdta & h1 & hp & _ & _ & _ & _ & _ & _ & _ & Hkinds
        & _ & _ & Hall & _).
  assert (r ∈ cd_array dd ++ cd_array pdta) as Hr.
  { apply elem_of_app.
    destruct (Hkinds r c Hc) as (_ & [[? _]|[? _]]); [by left|by right]. }
  pose proof (loop_enters_fold_complete disabled (components t) _ ∅ r Hr)
    as Hfound.
  rewrite (list_lookup_total_correct _ _ _ Hc), <- Hall in Hfound.
  destruct (Hfound Hdis) as [r' Hr'].
  destruct (build_facts K localeCompare array_sort fs array_sort_perm
              fuel t Hbuild)
    as (dd' & hd' & pdta' & h1' & hp'
        & _ & _ & _ & _ & _ & _ & _ & Hsound & _).
  destruct (Hsound _ _ Hr') as (c' & Hc' & Hname & Hen).
  by exists r', c'.
Qed.

(** X13.  Every enabled page without children is found in [uriPagesMap]
    under the URI of its definition, and no two such pages have one URI:
    a build that would give one URI to two pages does not return. *)
Theorem registered_pages_by_uri fuel t :
  buildLookupTable K localeCompare array_sort fs fuel = Ret t →
  let uri c :=
    to_string (get_prop (definition c) (PAGE_DEFINITION_URI K)) in
  (∀ r c, components t !! r = Some c → type c = "page" →
          is_registered c = true →
          uriPagesMap t !! uri c = Some (fullName c)) ∧
  (∀ r r' c c',
      components t !! r = Some c → components t !! r' = Some c' →
      type c = "page" → type c' = "page" →
      is_registered c = true → is_registered c' = true →
      uri c = uri c' → r = r').
Proof.
  intros Hbuild uri.
  destruct (build_typed K localeCompare array_sort fs array_sort_perm
              fuel t Hbuild)
    as (dd & hd & pdta & h1 & hp & _ & _ & _ & _ & Hnd_p & _ & Hsome
        & Hkinds & _ & Hum & _ & Hvalid & _).
  set (h := components t) in *. set (pp := cd_array pdta) in *.
  assert (∀ r c, h !! r = Some c → type c = "page" → r ∈ pp) as Hpage.
  { intros r c Hc Hty.
    destruct (Hkinds r c Hc) as (_ & [[_ Hd]|[Hr _]]); [congruence|done]. }
  assert (∀ r, r ∈ pp → fullName (h !!! r) ≠ "") as Hnames.
  { intros r Hr. destruct (Hsome r) as [c Hc].
    { apply elem_of_app. by right. }
    rewrite (list_lookup_total_correct _ _ _ Hc).
    by destruct (Hkinds r c Hc). }
  assert (∀ i r, pp !! i = Some r → is_registered (h !!! r) = true →
            truthy (VStr (default ""
              (fold_left (loop_registers disabled (page_step K) h)
                         (take i pp) ∅
               !! to_string (get_prop (definition (h !!! r))
                                      (PAGE_DEFINITION_URI K)))))
            = false) as Hfree.
  { intros i r Hi Hreg. destruct (Hsome r) as [c Hc].
    { apply elem_of_app. right. by eapply list_elem_of_lookup_2. }
    rewrite (list_lookup_total_correct _ _ _ Hc) in *.
    by destruct (Hvalid i r c Hi Hc Hreg). }
  pose proof (page_fold_complete K h pp Hnames Hfree) as Hcomplete.
  split.
  - intros r c Hc Hty Hreg.
    destruct (list_elem_of_lookup_1 pp r (Hpage r c Hc Hty)) as [i Hi].
    pose proof (Hcomplete (length pp) i r
                  ltac:(by eapply lookup_lt_Some)
                  Hi) as Hfound.
    rewrite (list_lookup_total_correct _ _ _ Hc), firstn_all in Hfound.
    rewrite Hum. by apply Hfound.
  - intros r r' c c' Hc Hc' Hty Hty' Hreg Hreg' Huri.
    destruct (list_elem_of_lookup_1 pp r (Hpage r c Hc Hty)) as [i Hi].
    destruct (list_elem_of_lookup_1 pp r' (Hpage r' c' Hc' Hty'))
      as [j Hj].
    assert (∀ i j r r' c c',
              (i < j)%nat → pp !! i = Some r → pp !! j = Some r' →
              h !! r = Some c → h !! r' = Some c' →
              is_registered c = true → is_registered c' = true →
              uri c = uri c' → False) as Hclash.
    { intros i0 j0 r0 r0' c0 c0' Hlt Hi0 Hj0 Hc0 Hc0' Hreg0 Hreg0' Huri0.
      pose proof (Hcomplete j0 i0 r0 Hlt Hi0) as Hfound.
      pose proof (Hfree j0 r0' Hj0) as Hfr.
      rewrite (list_lookup_total_correct _ _ _ Hc0) in Hfound.
      rewrite (list_lookup_total_correct _ _ _ Hc0') in Hfr.
      specialize (Hfound Hreg0). specialize (Hfr Hreg0').
      fold (uri c0) in Hfound. fold (uri c0') in Hfr.
      rewrite <- Huri0, Hfound in Hfr. cbn [default] in Hfr.
      rewrite truthy_VStr in Hfr; [done|].
      by destruct (Hkinds r0 c0 Hc0). }
    destruct (Nat.lt_trichotomy i j) as [Hlt|[->|Hgt]].
    + by destruct (Hclash i j r r' c c').
    + congruence.
    + by destruct (Hclash j i r' r c' c).
Qed.
(** X14.  Under a pattern, [pushedDivs] lists the enabled divs without
    children whose definitions name the pattern among their pushed URIs,
    once for every time they name it, in the order of the sorted array of
    the divs; a pattern no such div names has no entry but the empty
    one. *)
Theorem pushedDivs_in_sorted_order fuel t :
  buildLookupTable K localeCompare array_sort fs fuel = Ret t →
  ∃ divsData hd,
    getUiComponentsData K localeCompare array_sort fs fuel "div"
      (DIRECTORY_APP_DIVS K) [] = Ret (divsData, hd) ∧
    ∀ pat,
      default [] (pushedDivs t !! pat)
      = concat ((fun r => pushed_by K (components t !!! r) pat)
                  <$> cd_array divsData).
Proof.
  intros Hbuild.
  destruct (build_typed K localeCompare array_sort fs array_sort_perm
              fuel t Hbuild)
    as (dd & hd & pdta & h1 & hp & Hd & _ & _ & _ & _ & _ & _ & _
        & Hpd & _).
  exists dd, hd. split; [done|]. intros pat.
  by rewrite Hpd, div_fold_lookup, lookup_empty.
Qed.

(** X15.  Every entry of [uriPagesMap] is an enabled page without
    children, under the URI of its definition; that definition has a
    version, and the layout it names is one of the layouts of the
    table or the name of a member every object of the host inherits
    (the code tests [layoutsData[layoutFullName]], which finds those
    too). *)
Theorem registered_pages_are_valid fuel t :
  buildLookupTable K localeCompare array_sort fs fuel = Ret t →
  ∀ uri n, uriPagesMap t !! uri = Some n →
    ∃ r c,
      components t !! r = Some c ∧ fullName c = n ∧ type c = "page" ∧
      is_registered c = true ∧
      to_string (get_prop (definition c) (PAGE_DEFINITION_URI K)) = uri ∧
      truthy (get_prop (definition c) (UI_COMPONENT_DEFINITION_VERSION K))
      = true ∧
      truthy (get_prop (definition c) (PAGE_DEFINITION_URI K)) = true ∧
      (is_Some (layouts t
                !! to_string (get_prop (definition c)
                                       (PAGE_DEFINITION_LAYOUT K)))
       ∨ inherited fs (to_string (get_prop (definition c)
                                           (PAGE_DEFINITION_LAYOUT K)))
         = true).
Proof.
  intros Hbuild uri n Hn.
  destruct (build_typed K localeCompare array_sort fs array_sort_perm
              fuel t Hbuild)
    as (dd & hd & pdta & h1 & hp & _ & _ & _ & _ & _ & Hdisj & Hsome
        & Hkinds & _ & Hum & _ & Hvalid & _).
  rewrite Hum in Hn.
  apply page_fold_sound in Hn as [Hn|(r & Hr & Hreg & Huri & Hname)].
  { by rewrite lookup_empty in Hn. }
  destruct (Hsome r) as [c Hc]; [apply elem_of_app; by right|].
  rewrite (list_lookup_total_correct _ _ _ Hc) in *.
  apply list_elem_of_lookup_1 in Hr as Hi. destruct Hi as [i Hi].
  destruct (Hvalid i r c Hi Hc Hreg) as [Hok _].
  apply validatePageDefinition_success in Hok as (Hv & Hu & _ & Hlay).
  exists r, c. split_and!; try done.
  destruct (Hkinds r c Hc) as (_ & [[Hrd _]|[_ Hty]]); [|done].
  by destruct (Hdisj r Hrd).
Qed.
(** X16.  Every enabled div without children of a built table has passed
    [validateDivDefinition]: its definition has a version, and its pushed
    URIs, where it has any, are an array. *)
Theorem registered_divs_are_valid fuel t :
  buildLookupTable K localeCompare array_sort fs fuel = Ret t →
  ∀ r c, components t !! r = Some c → type c = "div" →
         is_registered c = true →
    truthy (get_prop (definition c) (UI_COMPONENT_DEFINITION_VERSION K))
    = true ∧
    (truthy (get_prop (definition c) (DIV_DEFINITION_PUSHED_URIS K)) = true →
     isArray (get_prop (definition c) (DIV_DEFINITION_PUSHED_URIS K))
     = true).
Proof.
  intros Hbuild r c Hc Hty Hreg.
  destruct (build_typed K localeCompare array_sort fs array_sort_perm
              fuel t Hbuild)
    as (dd & hd & pdta & h1 & hp & _ & _ & _ & _ & _ & _ & _
        & Hkinds & _ & _ & _ & _ & _ & _ & Hvalid).
  assert (r ∈ cd_array dd) as Hr.
  { destruct (Hkinds r c Hc) as (_ & [[Hr _]|[_ Hp]]); [done|congruence]. }
  pose proof (Hvalid r c Hr Hc Hreg) as Hok.
  unfold validateDivDefinition in Hok.
  destruct (truthy (get_prop _ (UI_COMPONENT_DEFINITION_VERSION K)));
    [|done].
  split; [done|]. intros Huris. rewrite Huris in Hok. cbn in Hok.
  by destruct (isArray _).
Qed.
End TableContents.

(** ** The order of the indices *)

Section InsertionSort.
Context (cmp : ref → ref → Z).
Hypothesis cmp_total : ∀ x y, ¬ cmp x y < 0 → cmp y x ≤ 0.
Hypothesis cmp_trans : ∀ x y z, cmp x y ≤ 0 → cmp y z ≤ 0 → cmp x z ≤ 0.

Lemma example_insert_sorted_sorted x l :
  StronglySorted (fun a b => cmp a b ≤ 0) l →
  StronglySorted (fun a b => cmp a b ≤ 0) (Example.insert_sorted cmp x l).
Proof.
  induction 1 as [|y l Hl IH Hy]; cbn.
  { repeat constructor. }
  destruct (Z.ltb_spec (cmp x y) 0) as [Hlt|Hge].
  - constructor; [by constructor|]. constructor; [lia|].
    eapply Forall_impl; [exact Hy|]. intros z Hz. cbn in Hz.
    apply (cmp_trans x y z); [lia|done].
  - constructor; [done|]. rewrite example_insert_sorted_perm.
    constructor; [|done]. apply cmp_total. lia.
Qed.

Lemma example_array_sort_strongly_sorted l :
  StronglySorted (fun a b => cmp a b ≤ 0) (Example.array_sort cmp l).
Proof.
  unfold Example.array_sort. induction l as [|x l IH]; cbn.
  - constructor.
  - by apply example_insert_sorted_sorted.
Qed.
End InsertionSort.

Lemma StronglySorted_lookup {A} (R : A → A → Prop) (l : list A) i j a b :
  StronglySorted R l → (i < j)%nat →
  l !! i = Some a → l !! j = Some b → R a b.
Proof.
  intros Hl. revert i j. induction Hl as [|x l Hl IH Hx]; intros i j Hij Hi Hj.
  { by rewrite lookup_nil in Hi. }
  destruct j as [|j]; [lia|]. cbn in Hj. destruct i as [|i]; cbn in Hi.
  - injection Hi as <-. rewrite Forall_forall in Hx. apply Hx.
    by eapply list_elem_of_lookup_2.
  - apply (IH i j); [lia|done..].
Qed.

(** The insertion sort of the examples puts an array in the order of the
    comparator of the components. *)
Lemma example_array_sort_sorted (h : store) (l : list ref) i j a b :
  (i < j)%nat →
  Example.array_sort
    (fun a b =>
       compareRawUiComponents Example.constants Example.localeCompare
                              (h !!! a) (h !!! b)) l !! i = Some a →
  Example.array_sort
    (fun a b =>
       compareRawUiComponents Example.constants Example.localeCompare
                              (h !!! a) (h !!! b)) l !! j = Some b →
  compareRawUiComponents Example.constants Example.localeCompare
                         (h !!! a) (h !!! b) ≤ 0.
Proof.
  intros Hij Hi Hj.
  apply (StronglySorted_lookup
           (fun a b =>
              compareRawUiComponents Example.constants Example.localeCompare
                                     (h !!! a) (h !!! b) ≤ 0)
           (Example.array_sort
              (fun a b =>
                 compareRawUiComponents Example.constants
                   Example.localeCompare (h !!! a) (h !!! b)) l)
           i j a b); [|done..].
  apply (example_array_sort_strongly_sorted
           (fun a b =>
              compareRawUiComponents Example.constants Example.localeCompare
                                     (h !!! a) (h !!! b))).
  - intros x y. rewrite !compareRawUiComponents_unfold.
    pose proof (example_localeCompare_antisym
                  (fullName (h !!! x)) (fullName (h !!! y))) as Hanti.
    destruct (Z.eqb_spec (priority Example.constants (h !!! x))
                         (priority Example.constants (h !!! y))),
             (Z.eqb_spec (priority Example.constants (h !!! y))
                         (priority Example.constants (h !!! x)));
      try lia.
    destruct (Z.gtb_spec (priority Example.constants (h !!! x))
                         (priority Example.constants (h !!! y))),
             (Z.gtb_spec (priority Example.constants (h !!! y))
                         (priority Example.constants (h !!! x))); lia.
  - intros x y z. rewrite !compareRawUiComponents_unfold.
    pose proof (example_localeCompare_trans
                  (fullName (h !!! x)) (fullName (h !!! y))
                  (fullName (h !!! z))) as Htr.
    pose proof (example_localeCompare_eq
                  (fullName (h !!! x)) (fullName (h !!! y))) as Heq1.
    pose proof (example_localeCompare_eq
                  (fullName (h !!! y)) (fullName (h !!! z))) as Heq2.
    destruct (Z.eqb_spec (priority Example.constants (h !!! x))
                         (priority Example.constants (h !!! y))),
             (Z.eqb_spec (priority Example.constants (h !!! y))
                         (priority Example.constants (h !!! z))),
             (Z.eqb_spec (priority Example.constants (h !!! x))
                         (priority Example.constants (h !!! z)));
      destruct (Z.gtb_spec (priority Example.constants (h !!! x))
                           (priority Example.constants (h !!! y))),
               (Z.gtb_spec (priority Example.constants (h !!! y))
                           (priority Example.constants (h !!! z))),
               (Z.gtb_spec (priority Example.constants (h !!! x))
                           (priority Example.constants (h !!! z)));
      try lia.
    intros Hxy Hyz.
    destruct (Z.eq_dec (Example.localeCompare (fullName (h !!! x))
                                              (fullName (h !!! y))) 0)
      as [E1|N1].
    { by rewrite (Heq1 E1). }
    destruct (Z.eq_dec (Example.localeCompare (fullName (h !!! y))
                                              (fullName (h !!! z))) 0)
      as [E2|N2].
    { by rewrite <- (Heq2 E2). }
    assert (Example.localeCompare (fullName (h !!! x)) (fullName (h !!! z))
            < 0) by (apply Htr; lia).
    lia.
Qed.

Section IndexOrder.
Context (K : Constants).
Context (localeCompare : string → string → Z).
Context (array_sort : (ref → ref → Z) → list ref → list ref).
Context (fs : FileSystem).

Hypothesis array_sort_perm : ∀ cmp l, array_sort cmp l ≡ₚ l.

(** What is asked of the host's sort for the order of the indices: of two
    elements of the sorted array, the comparator of the components does
    not put the later one first. *)
Hypothesis array_sort_sorted :
  ∀ (h : store) (l : list ref) i j a b,
    (i < j)%nat →
    array_sort
      (fun a b =>
         compareRawUiComponents K localeCompare (h !!! a) (h !!! b))
      l !! i = Some a →
    array_sort
      (fun a b =>
         compareRawUiComponents K localeCompare (h !!! a) (h !!! b))
      l !! j = Some b →
    compareRawUiComponents K localeCompare (h !!! a) (h !!! b) ≤ 0.

(** Within one sorted array, the component of lower priority number has
    the lower index. *)
Lemma sorted_array_order fuel ty cp h0 cd h' (h : store) off
    r r' c c' :
  getUiComponentsData K localeCompare array_sort fs fuel ty cp h0
    = Ret (cd, h') →
  (∀ i r, cd_array cd !! i = Some r →
          ∃ c0, h' !! r = Some c0 ∧
                h !! r
                = Some (set_index_disabled (off + i)
                          (definition_disabled K c0) c0)) →
  r ∈ cd_array cd → r' ∈ cd_array cd →
  h !! r = Some c → h !! r' = Some c' →
  priority K c < priority K c' →
  ∃ i j, index c = Some i ∧ index c' = Some j ∧ (i < j)%nat.
Proof.
  intros Hdata Hfinal [i Hi]%list_elem_of_lookup_1
         [j Hj]%list_elem_of_lookup_1 Hc Hc' Hprio.
  destruct (Hfinal i r Hi) as (c0 & Hc0 & Hcf).
  destruct (Hfinal j r' Hj) as (c0' & Hc0' & Hcf').
  rewrite Hcf in Hc. injection Hc as <-.
  rewrite Hcf' in Hc'. injection Hc' as <-.
  exists (off + i)%nat, (off + j)%nat. split; [done|]. split; [done|].
  change (priority K c0 < priority K c0') in Hprio.
  destruct (getUiComponentsData_spec _ _ _ _ _ _ _ _ _ _ Hdata)
    as (n & _ & _ & Harr & _).
  destruct (Nat.lt_trichotomy i j) as [Hlt|[->|Hgt]]; [lia| |].
  - assert (r = r') as -> by congruence.
    assert (c0 = c0') as -> by congruence. lia.
  - rewrite Harr in Hi, Hj.
    pose proof (array_sort_sorted h' _ j i r' r Hgt Hj Hi) as Hle.
    rewrite compareRawUiComponents_unfold in Hle.
    rewrite (list_lookup_total_correct _ _ _ Hc0) in Hle.
    rewrite (list_lookup_total_correct _ _ _ Hc0') in Hle.
    destruct (Z.eqb_spec (priority K c0') (priority K c0)); [lia|].
    destruct (Z.gtb_spec (priority K c0') (priority K c0)); lia.
Qed.

(** X17.  Where the host's sort puts an array in the order of its
    comparator, the indices of a built table follow the priorities: of two
    components of one type, the one whose definition gives the lower
    priority number has the lower index. *)
Theorem index_follows_priority fuel t :
  buildLookupTable K localeCompare array_sort fs fuel = Ret t →
  ∀ r r' c c',
    components t !! r = Some c → components t !! r' = Some c' →
    type c = type c' → priority K c < priority K c' →
    ∃ i j, index c = Some i ∧ index c' = Some j ∧ (i < j)%nat.
Proof.
  intros Hbuild r r' c c' Hc Hc' Hty Hprio.
  destruct (build_typed K localeCompare array_sort fs array_sort_perm
              fuel t Hbuild)
    as (dd & hd & pdta & h1 & hp & Hd & Hp & _ & _ & _ & _ & _
        & Hkinds & _ & _ & _ & _ & Hfinal_d & Hfinal_p & _).
  destruct (Hkinds r c Hc) as (_ & [[Hr Hk]|[Hr Hk]]),
           (Hkinds r' c' Hc') as (_ & [[Hr' Hk']|[Hr' Hk']]);
    try congruence.
  - by apply (sorted_array_order fuel "div" (DIRECTORY_APP_DIVS K) []
                dd hd (components t) 0 r r' c c').
  - by apply (sorted_array_order fuel "page" (DIRECTORY_APP_PAGES K) h1
                pdta hp (components t) (length (cd_array dd)) r r' c c').
Qed.

(** X18.  Every div of a built table has a lower index than every
    page. *)
Theorem divs_indexed_before_pages fuel t :
  buildLookupTable K localeCompare array_sort fs fuel = Ret t →
  ∀ r r' c c',
    components t !! r = Some c → components t !! r' = Some c' →
    type c = "div" → type c' = "page" →
    ∃ i j, index c = Some i ∧ index c' = Some j ∧ (i < j)%nat.
Proof.
  intros Hbuild r r' c c' Hc Hc' Hty Hty'.
  destruct (build_typed K localeCompare array_sort fs array_sort_perm
              fuel t Hbuild)
    as (dd & hd & pdta & h1 & hp & _ & _ & _ & _ & _ & _ & _
        & Hkinds & _ & _ & _ & _ & Hfinal_d & Hfinal_p & _).
  destruct (Hkinds r c Hc) as (_ & [[Hr _]|[_ Hk]]); [|congruence].
  destruct (Hkinds r' c' Hc') as (_ & [[_ Hk']|[Hr' _]]); [congruence|].
  apply list_elem_of_lookup_1 in Hr as [i Hi].
  apply list_elem_of_lookup_1 in Hr' as [j Hj].
  destruct (Hfinal_d i r Hi) as (c0 & _ & Hcf).
  destruct (Hfinal_p j r' Hj) as (c0' & _ & Hcf').
  rewrite Hcf in Hc. injection Hc as <-.
  rewrite Hcf' in Hc'. injection Hc' as <-.
  exists (0 + i)%nat, (length (cd_array dd) + j)%nat.
  split; [done|]. split; [done|].
  apply lookup_lt_Some in Hi. lia.
Qed.
End IndexOrder.

(** ** [getLayoutsData] *)

Lemma lastIndexOf_from_app i c pre s found :
  lastIndexOf_from i c (pre +:+ s) found
  = lastIndexOf_from (i + Z.of_nat (String.length pre)) c s
                     (lastIndexOf_from i c pre found).
Proof.
  revert i found. induction pre as [|d pre IH]; intros i found.
  { cbn. f_equal. lia. }
  change (lastIndexOf_from (i + 1) c (pre +:+ s)
                           (if Ascii.eqb d c then i else found)
          = lastIndexOf_from (i + Z.of_nat (S (String.length pre))) c s
              (lastIndexOf_from (i + 1) c pre
                                (if Ascii.eqb d c then i else found))).
  rewrite IH. f_equal. lia.
Qed.

Lemma layout_file_name file name :
  layout_file file name →
  substr_from file (lastIndexOf file "." + 1) = "hbs" ∧
  substr file 0 (lastIndexOf file ".") = name.
Proof.
  intros [->|[-> ->]]; [|done].
  unfold lastIndexOf. rewrite lastIndexOf_from_app. cbn [lastIndexOf_from].
  replace (Ascii.eqb "." ".") with true by done.
  replace (Ascii.eqb "h" ".") with false by done.
  replace (Ascii.eqb "b" ".") with false by done.
  replace (Ascii.eqb "s" ".") with false by done.
  unfold substr_from, substr.
  replace (Z.to_nat (0 + Z.of_nat (String.length name) + 1))
    with (S (String.length name)) by lia.
  replace (Z.to_nat (0 + Z.of_nat (String.length name)))
    with (String.length name) by lia.
  by rewrite string_drop_past, substring_upto.
Qed.

Lemma layout_name_file file :
  substr_from file (lastIndexOf file "." + 1) = "hbs" →
  layout_file file (substr file 0 (lastIndexOf file ".")).
Proof.
  unfold substr_from, substr, lastIndexOf.
  destruct (lastIndexOf_from_split 0 "." file (-1))
    as [[-> _]|(pre & post & -> & _ & ->)].
  - change (Z.to_nat (-1 + 1)) with 0%nat. cbn [string_drop].
    intros Hf. subst file. by right.
  - replace (Z.to_nat (0 + Z.of_nat (String.length pre) + 1))
      with (S (String.length pre)) by lia.
    replace (Z.to_nat (0 + Z.of_nat (String.length pre)))
      with (String.length pre) by lia.
    rewrite string_drop_past, substring_upto. intros ->. by left.
Qed.

Section Layouts.
Context (fs : FileSystem).

Lemma layout_body_cases layoutsDir m file :
  (layout_body fs layoutsDir m file = m ∧
   ∀ name, ¬ (isDirectory fs (layoutsDir +:+ "/" +:+ file) = false ∧
              layout_file file name)) ∨
  (∃ name,
      isDirectory fs (layoutsDir +:+ "/" +:+ file) = false ∧
      layout_file file name ∧
      (∀ name', layout_file file name' → name' = name) ∧
      layout_body fs layoutsDir m file
      = <[name := {| layout_fullName := name;
                     layout_path := layoutsDir +:+ "/" +:+ file |}]> m).
Proof.
  unfold layout_body.
  destruct (isDirectory fs (layoutsDir +:+ "/" +:+ file)) eqn:Hdir.
  { left. split; [done|]. by intros name [? _]. }
  destruct (String.eqb_spec
              (substr_from file (lastIndexOf file "." + 1)) "hbs")
    as [Hext|Hext]; cbn.
  - right. exists (substr file 0 (lastIndexOf file ".")).
    split; [done|]. split; [by apply layout_name_file|]. split; [|done].
    intros name' Hname'. by destruct (layout_file_name _ _ Hname').
  - left. split; [done|]. intros name [_ Hname].
    by destruct (layout_file_name _ _ Hname).
Qed.

Lemma layouts_fold layoutsDir (files : list string)
    (m0 : gmap string Layout) name :
  let found L :=
    layout_fullName L = name ∧
    ∃ file, file ∈ files ∧
            isDirectory fs (layoutsDir +:+ "/" +:+ file) = false ∧
            layout_file file name ∧
            layout_path L = layoutsDir +:+ "/" +:+ file in
  (∀ L, fold_left (layout_body fs layoutsDir) files m0 !! name = Some L →
        m0 !! name = Some L ∨ found L) ∧
  (is_Some (m0 !! name) ∨
   (∃ file, file ∈ files ∧
            isDirectory fs (layoutsDir +:+ "/" +:+ file) = false ∧
            layout_file file name) →
   is_Some (fold_left (layout_body fs layoutsDir) files m0 !! name)).
Proof.
  revert m0. induction files as [|file files IH]; intros m0; cbn zeta.
  { split; [by left|]. intros [?|(file & Hin & _)]; [done|].
    by apply elem_of_nil in Hin. }
  cbn [fold_left]. destruct (IH (layout_body fs layoutsDir m0 file))
    as [IH1 IH2]. cbn zeta in IH1, IH2.
  destruct (layout_body_cases layoutsDir m0 file)
    as [[Hsame Hnot]|(name0 & Hdir & Hlf & Huniq & Hins)].
  - rewrite Hsame in *. split.
    + intros L HL. destruct (IH1 L HL) as [?|(Hn & f & Hf & Hrest)];
        [by left|right].
      split; [done|]. exists f. split; [by right|done].
    + intros [Hm0|(f & Hf & Hd & Hn)]; apply IH2; [by left|].
      apply elem_of_cons in Hf as [->|Hf].
      * by destruct (Hnot name).
      * right. by exists f.
  - rewrite Hins in *. split.
    + intros L HL. destruct (IH1 L HL) as [HL0|(Hn & f & Hf & Hrest)].
      * destruct (decide (name0 = name)) as [->|Hne].
        -- rewrite lookup_insert_eq in HL0. injection HL0 as <-.
           right. split; [done|]. exists file. split; [by left|done].
        -- rewrite lookup_insert_ne in HL0 by done. by left.
      * right. split; [done|]. exists f. split; [by right|done].
    + intros Hcase. apply IH2.
      destruct (decide (name0 = name)) as [->|Hne].
      { left. rewrite lookup_insert_eq. eauto. }
      rewrite lookup_insert_ne by done.
      destruct Hcase as [Hm0|(f & Hf & Hd & Hn)]; [by left|].
      apply elem_of_cons in Hf as [->|Hf].
      * by destruct Hne; symmetry; apply Huniq.
      * right. by exists f.
Qed.

(** X19.  The layouts [getLayoutsData] returns are those of the files of
    the directory that are no directories and are named by a layout name
    with the extension [.hbs] (or are the bare [hbs], for the layout of no
    name): each is kept under its name, with the path of its file. *)
Theorem getLayoutsData_layouts layoutsDir (m : gmap string Layout) :
  getLayoutsData fs layoutsDir = Ret m →
  ∃ files,
    listFiles fs layoutsDir = Some files ∧
    ∀ name,
      (is_Some (m !! name) ↔
       ∃ file, file ∈ files ∧
               isDirectory fs (layoutsDir +:+ "/" +:+ file) = false ∧
               layout_file file name) ∧
      (∀ L, m !! name = Some L →
            layout_fullName L = name ∧
            ∃ file, file ∈ files ∧
                    isDirectory fs (layoutsDir +:+ "/" +:+ file) = false ∧
                    layout_file file name ∧
                    layout_path L = layoutsDir +:+ "/" +:+ file).
Proof.
  unfold getLayoutsData.
  destruct (listFiles fs layoutsDir) as [files|]; [|done].
  intros [= <-]. exists files. split; [done|]. intros name.
  destruct (layouts_fold layoutsDir files ∅ name) as [Hsound Hcomplete].
  cbn zeta in Hsound. split; [split|].
  - intros [L HL]. destruct (Hsound L HL) as [H0|(_ & f & Hf & Hd & Hn & _)].
    + by rewrite lookup_empty in H0.
    + by exists f.
  - intros Hfile. apply Hcomplete. by right.
  - intros L HL. destruct (Hsound L HL) as [H0|H]; [|done].
    by rewrite lookup_empty in H0.
Qed.
End Layouts.

(** ** The configuration caches *)

Lemma app_parseInt_stored (n : Z) :
  app_parseInt (Some (AppValue (VStr (to_string (VNum n))))) = Some n.
Proof.
  cbn [app_parseInt to_string]. rewrite parseInt_parseInt_string.
  cbn [to_string]. apply parseInt_string_Z_to_string.
Qed.

Lemma parseInt_VNum (n : Z) : parseInt (VNum n) = Some n.
Proof.
  rewrite parseInt_parseInt_string. cbn [to_string].
  apply parseInt_string_Z_to_string.
Qed.

Lemma is_file_guard fs p :
  is_file fs p = true → negb (isExists fs p) || isDirectory fs p = false.
Proof.
  unfold is_file. by destruct (isExists fs p), (isDirectory fs p).
Qed.

(** X20.  A first call of [getConfigurations] loads the file and returns
    its document.  While that document is truthy, a later call returns it
    again without reading the file as long as the file is not newer than at
    the first call, and loads the file anew once it is. *)
Theorem getConfigurations_reloads_when_newer
    (C : ConfConstants) (fs fs' : FileSystem) (H H' : Host)
    (application : gmap string appvalue) (conf : value) (t0 t1 : Z) :
  CACHE_KEY_UUF_CONF C ≠ CACHE_KEY_UUF_CONF_FILE_LMD C →
  app_truthy (application !! CACHE_KEY_UUF_CONF C) = false →
  is_file fs (FILE_UUF_CONF C) = true →
  require fs (FILE_UUF_CONF C) = Some conf →
  getLastModified H (FILE_UUF_CONF C) = VNum t0 →
  truthy conf = true →
  is_file fs' (FILE_UUF_CONF C) = true →
  getLastModified H' (FILE_UUF_CONF C) = VNum t1 →
  ∃ application',
    getConfigurations C fs H application
    = (Ret (AppValue conf), application') ∧
    (t1 ≤ t0 →
     getConfigurations C fs' H' application'
     = (Ret (AppValue conf), application')) ∧
    (t1 > t0 →
     ∀ conf', require fs' (FILE_UUF_CONF C) = Some conf' →
              (getConfigurations C fs' H' application').1
              = Ret (AppValue conf')).
Proof.
  intros Hkeys Hfresh Hfile Hreq Hlmd Hconf Hfile' Hlmd'.
  eexists. split; [|split].
  - unfold getConfigurations.
    by rewrite (is_file_guard _ _ Hfile), Hfresh, Hreq.
  - intros Hle. unfold getConfigurations.
    rewrite (is_file_guard _ _ Hfile').
    rewrite lookup_insert_ne by done. rewrite !lookup_insert_eq.
    cbn [app_truthy]. rewrite Hconf, Hlmd, Hlmd', app_parseInt_stored,
      parseInt_VNum. cbn [js_gt].
    by destruct (Z.gtb_spec t1 t0); [lia|].
  - intros Hgt conf' Hreq'. unfold getConfigurations.
    rewrite (is_file_guard _ _ Hfile').
    rewrite lookup_insert_ne by done. rewrite !lookup_insert_eq.
    cbn [app_truthy]. rewrite Hconf, Hlmd, Hlmd', app_parseInt_stored,
      parseInt_VNum. cbn [js_gt].
    destruct (Z.gtb_spec t1 t0); [|lia]. by rewrite Hreq'.
Qed.

(** X21.  [getAppConfigurations] keeps its cache the same way: a first call
    reads the file, puts the server's address and ports in the place of the
    three placeholders and parses the text; a later call returns that
    document again as long as the file is not newer, and reads the file anew
    once it is. *)
Theorem getAppConfigurations_reloads_when_newer
    (C : ConfConstants) (fs fs' : FileSystem) (H H' : Host)
    (application : gmap string appvalue)
    (content : string) (appConf : value) (t0 t1 : Z) :
  CACHE_KEY_APP_CONF C ≠ CACHE_KEY_APP_CONF_FILE_LMD C →
  app_truthy (application !! CACHE_KEY_APP_CONF C) = false →
  is_file fs (FILE_APP_CONF C) = true →
  readAll H (FILE_APP_CONF C) = Some content →
  parse H
    (replace_all H "${server.https_port}" (getProperty H "carbon.https.port")
       (replace_all H "${server.http_port}" (getProperty H "carbon.http.port")
          (replace_all H "${server.ip}" (getProperty H "carbon.local.ip")
             content)))
  = Some appConf →
  getLastModified H (FILE_APP_CONF C) = VNum t0 →
  truthy appConf = true →
  is_file fs' (FILE_APP_CONF C) = true →
  getLastModified H' (FILE_APP_CONF C) = VNum t1 →
  ∃ application',
    getAppConfigurations C fs H application
    = (Ret (AppValue appConf), application') ∧
    (t1 ≤ t0 →
     getAppConfigurations C fs' H' application'
     = (Ret (AppValue appConf), application')) ∧
    (t1 > t0 →
     ∀ content' appConf',
       readAll H' (FILE_APP_CONF C) = Some content' →
       parse H'
         (replace_all H' "${server.https_port}"
            (getProperty H' "carbon.https.port")
            (replace_all H' "${server.http_port}"
               (getProperty H' "carbon.http.port")
               (replace_all H' "${server.ip}"
                  (getProperty H' "carbon.local.ip") content')))
       = Some appConf' →
       (getAppConfigurations C fs' H' application').1
       = Ret (AppValue appConf')).
Proof.
  intros Hkeys Hfresh Hfile Hread Hparse Hlmd Hconf Hfile' Hlmd'.
  eexists. split; [|split].
  - unfold getAppConfigurations.
    by rewrite (is_file_guard _ _ Hfile), Hfresh, Hread, Hparse.
  - intros Hle. unfold getAppConfigurations.
    rewrite (is_file_guard _ _ Hfile').
    rewrite lookup_insert_ne by done. rewrite !lookup_insert_eq.
    cbn [app_truthy]. rewrite Hconf, Hlmd, Hlmd', app_parseInt_stored,
      parseInt_VNum. cbn [js_gt].
    by destruct (Z.gtb_spec t1 t0); [lia|].
  - intros Hgt content' appConf' Hread' Hparse'. unfold getAppConfigurations.
    rewrite (is_file_guard _ _ Hfile').
    rewrite lookup_insert_ne by done. rewrite !lookup_insert_eq.
    cbn [app_truthy]. rewrite Hconf, Hlmd, Hlmd', app_parseInt_stored,
      parseInt_VNum. cbn [js_gt].
    destruct (Z.gtb_spec t1 t0); [|lia]. by rewrite Hread', Hparse'.
Qed.

(** X22.  A call of [getConfigurations] or of [getAppConfigurations] that
    throws (the file is missing, or it cannot be loaded, read or parsed)
    leaves the [application] store as it was: the documents cached before
    stay. *)
Theorem configurations_error_keeps_cache
    (C : ConfConstants) (fs : FileSystem) (H : Host)
    (application : gmap string appvalue) (e : error) :
  ((getConfigurations C fs H application).1 = Throw e →
   (getConfigurations C fs H application).2 = application) ∧
  ((getAppConfigurations C fs H application).1 = Throw e →
   (getAppConfigurations C fs H application).2 = application).
Proof.
  unfold getConfigurations, getAppConfigurations.
  split; repeat case_match; done.
Qed.

(** ** The current user *)

Lemma permissions_fold (permissions : list value) cls ps :
  ∃ ps',
    fold_left permissions_body permissions (VObj cls ps) = VObj cls ps' ∧
    ∀ k, assoc_get ps' k
         = if decide (k ∈ to_string <$> permissions)
           then Some (VStr "ui-execute") else assoc_get ps k.
Proof.
  revert ps. induction permissions as [|p l IH]; intros ps.
  { exists ps. split; [done|]. intros k. case_decide as Hk; [|done].
    by apply elem_of_nil in Hk. }
  cbn [fold_left]. unfold permissions_body at 2. cbn [set_prop].
  destruct (IH (assoc_set ps (to_string p) (VStr "ui-execute")))
    as (ps' & -> & Hps').
  exists ps'. split; [done|]. intros k. rewrite Hps'. rewrite fmap_cons.
  destruct (decide (k ∈ to_string <$> l)) as [Hin|Hout].
  - rewrite decide_True; [done|]. by right.
  - destruct (decide (to_string p = k)) as [<-|Hne].
    + rewrite assoc_get_set_eq. rewrite decide_True; [done|]. by left.
    + rewrite assoc_get_set_ne by done. rewrite decide_False; [done|].
      by intros [?|?]%elem_of_cons.
Qed.

Section CurrentUser.
Context (C : ConfConstants).
Context (fs : FileSystem).
Context (H : Host).

Lemma setCurrentUser_inv username domain tenantId application session
    application' session' :
  setCurrentUser C fs H username domain tenantId application session
  = (Ret tt, application', session') →
  ∃ getAllowedUIResources appConf permissions,
    UserManager H tenantId = Some getAllowedUIResources ∧
    getAppConfigurations C fs H application = (Ret appConf, application') ∧
    let conf :=
      match appConf with AppValue conf => conf | AppTable _ => VRec [] end in
    let root := get_prop conf (APP_CONF_PERMISSION_ROOT C) in
    is_nullish conf = false ∧
    getAllowedUIResources username
      (if negb (truthy root) then VStr "/" else root) = Some permissions ∧
    session'
    = <[CACHE_KEY_USER C :=
          VRec [("username", username); ("domain", domain);
                ("tenantId", tenantId);
                ("permissions",
                 fold_left permissions_body permissions (VRec []))]]>
        session.
Proof.
  unfold setCurrentUser.
  destruct (UserManager H tenantId) as [g|]; [|done].
  destruct (getAppConfigurations C fs H application) as [[appConf| |] app1];
    [|done..].
  destruct (is_nullish _) eqn:Hnull; [done|].
  destruct (g username _) as [permissions|] eqn:Hperm; [|done].
  intros [= <- <-]. by exists g, appConf, permissions.
Qed.

(** X23.  After [setCurrentUser] has returned, [getCurrentUser] gives the
    user it has put in the session, with the name, domain and tenant it
    was given, as long as the name is truthy; for a name that is not (the
    empty string, say) it gives [null], though the user is in the
    session. *)
Theorem getCurrentUser_after_setCurrentUser
    username domain tenantId application session application' session' :
  setCurrentUser C fs H username domain tenantId application session
  = (Ret tt, application', session') →
  ∃ user,
    session' !! CACHE_KEY_USER C = Some user ∧
    get_prop user "username" = username ∧
    get_prop user "domain" = domain ∧
    get_prop user "tenantId" = tenantId ∧
    getCurrentUser C session' = (if truthy username then user else VNull).
Proof.
  intros (g & appConf & permissions & _ & _ & _ & _ & ->)%setCurrentUser_inv.
  eexists. split; [by rewrite lookup_insert_eq|]. split_and!; try done.
  unfold getCurrentUser. rewrite lookup_insert_eq. cbn.
  by destruct (truthy username).
Qed.

(** X24.  The permissions of the user [setCurrentUser] puts in the
    session are the resources the user manager allows the name below the
    permission root of the application configuration (below [/] where the
    configuration names none): each of them is a key of the permissions,
    with the value [ui-execute], and the permissions have no other key of
    their own. *)
Theorem setCurrentUser_permissions
    username domain tenantId application session application' session' :
  setCurrentUser C fs H username domain tenantId application session
  = (Ret tt, application', session') →
  ∃ getAllowedUIResources appConf permissions user,
    UserManager H tenantId = Some getAllowedUIResources ∧
    getAppConfigurations C fs H application = (Ret appConf, application') ∧
    let conf :=
      match appConf with AppValue conf => conf | AppTable _ => VRec [] end in
    let root := get_prop conf (APP_CONF_PERMISSION_ROOT C) in
    getAllowedUIResources username
      (if truthy root then root else VStr "/") = Some permissions ∧
    session' !! CACHE_KEY_USER C = Some user ∧
    ∀ k,
      (hasOwnProperty (get_prop user "permissions") k = true ↔
       k ∈ to_string <$> permissions) ∧
      (k ∈ to_string <$> permissions →
       get_prop (get_prop user "permissions") k = VStr "ui-execute").
Proof.
  intros (g & appConf & permissions & Hg & Hconf & _ & Hperm & ->)
    %setCurrentUser_inv.
  exists g, appConf, permissions. eexists.
  split; [done|]. split; [done|]. cbn zeta. split.
  { rewrite <- Hperm. by destruct (truthy _). }
  split; [by rewrite lookup_insert_eq|]. intros k.
  destruct (permissions_fold permissions ClsObject []) as (ps' & Hps' & Hk).
  assert (∀ u d t pm,
            get_prop (VRec [("username", u); ("domain", d);
                            ("tenantId", t); ("permissions", pm)])
                     "permissions" = pm) as -> by done.
  unfold VRec in *. rewrite Hps'. cbn [hasOwnProperty get_prop].
  rewrite Hk.
  split.
  - rewrite bool_decide_eq_true. case_decide; split; try done.
    by intros [? ?].
  - intros Hin. by rewrite decide_True.
Qed.
End CurrentUser.

(** ** Parents and children, both ways *)

Lemma links_back_nil : links_back [].
Proof. intros c cc p Hc. by rewrite lookup_nil in Hc. Qed.

Lemma links_back_push (h : store) comp :
  parents comp = [] → links_back h → links_back (h ++ [comp]).
Proof.
  intros Hpa Hok c cc p Hc Hp.
  apply lookup_app_Some in Hc as [Hc|[_ Hc]].
  - destruct (Hok c cc p Hc Hp) as (cp & Hcp & Hin). exists cp.
    split; [|done]. rewrite lookup_app_l; [done|].
    by apply lookup_lt_Some in Hcp.
  - apply list_lookup_singleton_Some in Hc as [_ <-].
    rewrite Hpa in Hp. by apply elem_of_nil in Hp.
Qed.

Lemma links_back_alter (f : UIComponent → UIComponent) x (h : store) :
  (∀ c, children (f c) = children c ∧ parents (f c) = parents c) →
  links_back h → links_back (alter f x h).
Proof.
  intros Hf Hok c cc p Hc Hp.
  assert (∃ cc0, h !! c = Some cc0 ∧ parents cc = parents cc0)
    as (cc0 & Hc0 & Epa).
  { rewrite list_lookup_alter in Hc. case_decide as E; [|by eauto].
    subst c. destruct (h !! x) as [cc0|]; [|done]. injection Hc as <-.
    exists cc0. split; [done|]. apply Hf. }
  rewrite Epa in Hp. destruct (Hok c cc0 p Hc0 Hp) as (cp & Hcp & Hin).
  rewrite list_lookup_alter. case_decide as E.
  - subst p. rewrite Hcp. cbn. eexists. split; [done|].
    by rewrite (proj1 (Hf cp)).
  - eauto.
Qed.

Lemma chain_step_back (h : store) p c (g : UIComponent → UIComponent) :
  (∀ x, children (g x) = children x ∧ parents (g x) = parents x) →
  (p < length h)%nat →
  links_back h →
  links_back (alter g c (alter (push_parent p) c (alter (push_child c) p h))).
Proof.
  intros Hg Hp Hok q cq x Hq Hx.
  set (h3 := alter g c (alter (push_parent p) c (alter (push_child c) p h)))
    in *.
  assert (length h3 = length h) as Hlen
    by (unfold h3; by rewrite !length_alter).
  assert (is_Some (h !! q)) as [cq0 Hq0].
  { apply lookup_lt_is_Some_2. rewrite <- Hlen. by eapply lookup_lt_Some. }
  destruct (chain_step_lookup h p c g q cq0 Hg Hq0) as (cq' & Hq' & _ & Epa).
  fold h3 in Hq'. assert (cq' = cq) as -> by congruence.
  rewrite Epa in Hx. apply elem_of_app in Hx as [Hx|Hx].
  - destruct (Hok q cq0 x Hq0 Hx) as (cx0 & Hcx0 & Hin).
    destruct (chain_step_lookup h p c g x cx0 Hg Hcx0) as (cx & Hcx & Ech & _).
    exists cx. split; [done|]. rewrite Ech, elem_of_app. by left.
  - case_decide as E; [|by apply elem_of_nil in Hx].
    apply list_elem_of_singleton in Hx as ->. subst q.
    destruct (lookup_lt_is_Some_2 h p Hp) as [cp0 Hcp0].
    destruct (chain_step_lookup h p c g p cp0 Hg Hcp0) as (cp & Hcp & Ech & _).
    exists cp. split; [done|]. rewrite Ech, elem_of_app. right.
    case_decide; [|done]. left.
Qed.

Section LinksBack.
Context (K : Constants).
Context (localeCompare : string → string → Z).
Context (array_sort : (ref → ref → Z) → list ref → list ref).
Context (fs : FileSystem).

Lemma populate_body_back cp ty i name (st st' : collections) :
  populate_body fs cp ty i name st = Ret st' →
  links_back st.1.1 → links_back st'.1.1.
Proof.
  destruct st as [[h m] l]. unfold populate_body.
  repeat case_match; try done; intros [= <-]; cbn; try done;
    intros Hok; by apply links_back_push.
Qed.

Lemma collection_body_back ty cp i coll (st st' : collections) :
  collection_body K fs ty cp i coll st = Ret st' →
  links_back st.1.1 → links_back st'.1.1.
Proof.
  unfold collection_body. destruct (negb _); [by intros [= <-]|].
  unfold populateComponentCollections.
  destruct (listFiles fs _) as [dirs|]; [|done].
  intros Hrun Hok.
  apply (for_each_ind _ (fun _ s => links_back s.1.1) _ [] st st' Hrun Hok).
  intros pre x s1 s2 _ Hs1 Hb. by eapply populate_body_back.
Qed.

Lemma inherit_chain_back fuel ty (m : gmap string ref) c pn h h' :
  (∀ k r, m !! k = Some r → (r < length h)%nat) →
  links_back h →
  inherit_chain K fuel ty m c pn h = Ret h' →
  length h' = length h ∧ links_back h'.
Proof.
  revert pn h. induction fuel as [|fuel IH]; intros pn h Hm Hok;
    cbn [inherit_chain].
  - destruct (truthy pn); [done|]. by intros [= <-].
  - destruct (truthy pn); [|by intros [= <-]].
    destruct (m !! to_string pn) as [p|] eqn:Hp; [|done].
    cbv zeta. case_match; [done|]. intros Hrun. apply IH in Hrun.
    + by rewrite !length_alter in Hrun.
    + intros k r Hk. rewrite !length_alter. by eapply Hm.
    + apply chain_step_back; [done| |done]. by eapply Hm.
Qed.

Lemma getUiComponentsData_back fuel ty cp h0 cd h' :
  getUiComponentsData K localeCompare array_sort fs fuel ty cp h0
    = Ret (cd, h') →
  links_back h0 → links_back h'.
Proof.
  unfold getUiComponentsData.
  destruct (listFiles fs (DIRECTORY_APP_COMPONENTS K)) as [dirs|] eqn:Hls;
    [|done].
  intros ([[h1 m] l] & Hdisc & Hrest)%bind_Ret_inv Hok.
  apply bind_Ret_inv in Hrest as (h2 & Hinh & [= <- <-]).
  assert (links_back h1) as Hok1.
  { apply (for_each_ind _ (fun _ s => links_back s.1.1) _ [] _ _ Hdisc Hok).
    intros pre x s1 s2 _ Hs1 Hb. by eapply collection_body_back. }
  apply (discovery_discovered K fs _ _ _ _ _ Hls) in Hdisc
    as (new & Hh1 & Hl & _ & Hm & _).
  cbn in Hh1, Hl, Hm.
  apply (for_each_ind _
           (fun _ h => length h = length h1 ∧ links_back h) _ [] _ _ Hinh);
    [done|].
  intros pre x s1 s2 _ [Hlen Hs1] Hb.
  unfold inherit_body in Hb. case_match; [done|].
  apply inherit_chain_back in Hb as [Hlen2 Hok2];
    [split; [congruence|done]|..].
  - intros k r Hk. apply Hm in Hk as (_ & c & Hc & _).
    rewrite Hlen. by eapply lookup_lt_Some.
  - done.
Qed.

Lemma buildLookupTable_back fuel t :
  buildLookupTable K localeCompare array_sort fs fuel = Ret t →
  links_back (components t).
Proof.
  unfold buildLookupTable.
  intros (layoutsData & _ & H)%bind_Ret_inv.
  apply bind_Ret_inv in H as ([divsData hd] & Hd & H).
  apply bind_Ret_inv in H as ([[h1 pd] all1] & Hdl & H).
  apply bind_Ret_inv in H as ([pagesData hp] & Hp & H).
  apply bind_Ret_inv in H as ([[h um] all] & Hpl & [= <-]). cbn.
  apply getUiComponentsData_back in Hd; [|apply links_back_nil].
  assert (links_back h1) as Hok1.
  { apply (for_each_ind _ (fun _ s => links_back s.1.1) _ [] _ _ Hdl Hd).
    intros pre x [[s1 ?] ?] s2 _ Hs1 [v Hb]%div_body_store.
    rewrite Hb. by apply links_back_alter. }
  apply getUiComponentsData_back in Hp; [|done].
  apply (for_each_ind _ (fun _ s => links_back s.1.1) _ [] _ _ Hpl Hp).
  intros pre x [[s1 ?] ?] s2 _ Hs1 [v Hb]%page_body_store.
  rewrite Hb. by apply links_back_alter.
Qed.

(** X25.  In a built table the links between parents and children go both
    ways, and none leaves the table: [c] is among the children of the
    component [p] exactly when [p] is among the parents of the component
    [c]. *)
Theorem links_are_mutual fuel t :
  buildLookupTable K localeCompare array_sort fs fuel = Ret t →
  ∀ p c,
    (∃ cp, components t !! p = Some cp ∧ c ∈ children cp) ↔
    (∃ cc, components t !! c = Some cc ∧ p ∈ parents cc).
Proof.
  intros Hbuild p c. split.
  - intros (cp & Hp & Hc).
    by apply (buildLookupTable_links K localeCompare array_sort fs fuel t
                Hbuild p cp c).
  - intros (cc & Hc & Hp).
    by apply (buildLookupTable_back fuel t Hbuild c cc p).
Qed.

(** X26.  On the components of a built table the search for the furthest
    child never comes back with [null], whichever component it starts
    from: [getFileInUiComponent] has a directory to look into.  This asks
    of [equals] that a component equals itself and of [compareTo] that it
    returns. *)
Theorem getFurthestChild_in_built_table
    (equals : store → ref → ref → bool)
    (compareTo : store → ref → option ref → outcome Z) fuel t :
  buildLookupTable K localeCompare array_sort fs fuel = Ret t →
  (∀ r, equals (components t) r r = true) →
  (∀ a b, ∃ z, compareTo (components t) a (Some b) = Ret z) →
  ∀ u, ∃ d,
    getFurthestChild equals compareTo (components t) u = Ret (Some d).
Proof.
  intros Hbuild Hrefl Hcmp u.
  apply getFurthestChild_returns; [done..|].
  intros c. apply links_ok_children.
  by apply (buildLookupTable_links K localeCompare array_sort fs fuel t).
Qed.
End LinksBack.

(** ** The further properties at work on concrete inputs *)

Lemma pushed_table_built :
  buildLookupTable Example.constants Example.localeCompare Example.array_sort
                   Scenarios.fs_pushed 100
  = Ret Found.pushed_table.
Proof. vm_compute. reflexivity. Qed.

Lemma family_components :
  components Tables.family_table !! 0%nat = Some Found.parent_div ∧
  components Tables.family_table !! 1%nat = Some Found.child_div ∧
  components Tables.family_table !! 2%nat = Some Found.disabled_div ∧
  components Tables.family_table !! 3%nat = Some Found.home_page.
Proof. by split_and!; vm_compute. Qed.

(** The page [p.home] is the directory [/components/root/pages/p.home]. *)
Lemma components_are_on_disk_witness :
  ∃ collection componentsPath,
    (type Found.home_page = "div" ∧
     componentsPath = DIRECTORY_APP_DIVS Example.constants ∨
     type Found.home_page = "page" ∧
     componentsPath = DIRECTORY_APP_PAGES Example.constants) ∧
    path Found.home_page
    = (DIRECTORY_APP_COMPONENTS Example.constants +:+ "/" +:+ collection
       +:+ componentsPath) +:+ "/" +:+ fullName Found.home_page ∧
    isDirectory Inputs.fs_family (path Found.home_page) = true ∧
    is_file Inputs.fs_family
            (path Found.home_page +:+ "/" +:+ shortName Found.home_page
             +:+ ".json") = true ∧
    templateFilePath Found.home_page
    = (if is_file Inputs.fs_family
                  (path Found.home_page +:+ "/" +:+ shortName Found.home_page
                   +:+ ".hbs")
       then Some (path Found.home_page +:+ "/" +:+ shortName Found.home_page
                  +:+ ".hbs")
       else None) ∧
    scriptFilePath Found.home_page
    = (if is_file Inputs.fs_family
                  (path Found.home_page +:+ "/" +:+ shortName Found.home_page
                   +:+ ".js")
       then Some (path Found.home_page +:+ "/" +:+ shortName Found.home_page
                  +:+ ".js")
       else None).
Proof.
  apply (components_are_on_disk Example.constants Example.localeCompare
           Example.array_sort Inputs.fs_family 100 Tables.family_table
           family_table_built 3%nat Found.home_page).
  apply family_components.
Defined.

Lemma component_short_names_witness :
  shortName Found.parent_div ≠ "" ∧
  no_char "." (shortName Found.parent_div) ∧
  ∃ prefix, fullName Found.parent_div = prefix +:+ shortName Found.parent_div ∧
            (prefix = "" ∨ ∃ p, prefix = p +:+ ".").
Proof.
  apply (component_short_names Example.constants Example.localeCompare
           Example.array_sort Inputs.fs_family 100 Tables.family_table
           family_table_built 0%nat Found.parent_div).
  apply family_components.
Defined.

Lemma disabled_flag_of_definition_witness :
  disabled Found.disabled_div
  = parseBoolean (get_prop (definition Found.disabled_div)
                           (UI_COMPONENT_DEFINITION_DISABLED
                              Example.constants))
                 VUndefined ∧
  ∃ b, disabled Found.disabled_div = VBool b.
Proof.
  apply (disabled_flag_of_definition Example.constants Example.localeCompare
           Example.array_sort Inputs.fs_family example_array_sort_perm
           100 Tables.family_table family_table_built
           2%nat Found.disabled_div).
  apply family_components.
Defined.

Lemma enabled_components_in_uiComponents_witness :
  ∃ r' c',
    uiComponents Tables.family_table !! fullName Found.child_div = Some r' ∧
    components Tables.family_table !! r' = Some c' ∧
    fullName c' = fullName Found.child_div ∧ truthy (disabled c') = false.
Proof.
  apply (enabled_components_in_uiComponents Example.constants
           Example.localeCompare Example.array_sort Inputs.fs_family
           example_array_sort_perm 100 Tables.family_table family_table_built
           1%nat Found.child_div).
  - apply family_components.
  - vm_compute. reflexivity.
Defined.

Lemma registered_pages_by_uri_witness :
  uriPagesMap Tables.family_table
  !! to_string (get_prop (definition Found.home_page)
                         (PAGE_DEFINITION_URI Example.constants))
  = Some (fullName Found.home_page).
Proof.
  apply (proj1 (registered_pages_by_uri Example.constants
                  Example.localeCompare Example.array_sort Inputs.fs_family
                  example_array_sort_perm 100 Tables.family_table
                  family_table_built)
           3%nat Found.home_page).
  - apply family_components.
  - vm_compute. reflexivity.
  - vm_compute. reflexivity.
Defined.

Lemma pushedDivs_in_sorted_order_witness :
  ∃ divsData hd,
    getUiComponentsData Example.constants Example.localeCompare
      Example.array_sort Scenarios.fs_pushed 100 "div"
      (DIRECTORY_APP_DIVS Example.constants) []
    = Ret (divsData, hd) ∧
    ∀ pat,
      default [] (pushedDivs Found.pushed_table !! pat)
      = concat ((fun r => pushed_by Example.constants
                            (components Found.pushed_table !!! r) pat)
                  <$> cd_array divsData).
Proof.
  exact (pushedDivs_in_sorted_order Example.constants Example.localeCompare
           Example.array_sort Scenarios.fs_pushed example_array_sort_perm
           100 Found.pushed_table pushed_table_built).
Defined.

Lemma registered_pages_are_valid_witness :
  ∃ r c,
    components Tables.family_table !! r = Some c ∧ fullName c = "p.home" ∧
    type c = "page" ∧ is_registered c = true ∧
    to_string (get_prop (definition c) (PAGE_DEFINITION_URI Example.constants))
    = "/" ∧
    truthy (get_prop (definition c)
                     (UI_COMPONENT_DEFINITION_VERSION Example.constants))
    = true ∧
    truthy (get_prop (definition c) (PAGE_DEFINITION_URI Example.constants))
    = true ∧
    (is_Some (layouts Tables.family_table
              !! to_string (get_prop (definition c)
                                     (PAGE_DEFINITION_LAYOUT
                                        Example.constants)))
     ∨ inherited Inputs.fs_family
         (to_string (get_prop (definition c)
                              (PAGE_DEFINITION_LAYOUT Example.constants)))
       = true).
Proof.
  apply (registered_pages_are_valid Example.constants Example.localeCompare
           Example.array_sort Inputs.fs_family example_array_sort_perm
           100 Tables.family_table family_table_built "/" "p.home").
  vm_compute. reflexivity.
Defined.

Lemma registered_divs_are_valid_witness :
  truthy (get_prop (definition Found.child_div)
                   (UI_COMPONENT_DEFINITION_VERSION Example.constants))
  = true ∧
  (truthy (get_prop (definition Found.child_div)
                    (DIV_DEFINITION_PUSHED_URIS Example.constants)) = true →
   isArray (get_prop (definition Found.child_div)
                     (DIV_DEFINITION_PUSHED_URIS Example.constants)) = true).
Proof.
  apply (registered_divs_are_valid Example.constants Example.localeCompare
           Example.array_sort Inputs.fs_family example_array_sort_perm
           100 Tables.family_table family_table_built
           1%nat Found.child_div).
  - apply family_components.
  - vm_compute. reflexivity.
  - vm_compute. reflexivity.
Defined.

(** The div [z.top], of priority 1, comes before the div [a.x], of
    priority 5. *)
Lemma index_follows_priority_witness :
  ∃ i j, index Found.disabled_div = Some i ∧
         index Found.parent_div = Some j ∧ (i < j)%nat.
Proof.
  apply (index_follows_priority Example.constants Example.localeCompare
           Example.array_sort Inputs.fs_family example_array_sort_perm
           example_array_sort_sorted 100 Tables.family_table
           family_table_built 2%nat 0%nat).
  - apply family_components.
  - apply family_components.
  - vm_compute. reflexivity.
  - vm_compute. reflexivity.
Defined.

Lemma divs_indexed_before_pages_witness :
  ∃ i j, index Found.parent_div = Some i ∧
         index Found.home_page = Some j ∧ (i < j)%nat.
Proof.
  apply (divs_indexed_before_pages Example.constants Example.localeCompare
           Example.array_sort Inputs.fs_family example_array_sort_perm
           100 Tables.family_table family_table_built 0%nat 3%nat).
  - apply family_components.
  - apply family_components.
  - vm_compute. reflexivity.
  - vm_compute. reflexivity.
Defined.

Lemma getLayoutsData_layouts_witness :
  ∃ files,
    listFiles Inputs.fs_family "/layouts" = Some files ∧
    ∀ name,
      (is_Some (layouts Tables.family_table !! name) ↔
       ∃ file, file ∈ files ∧
               isDirectory Inputs.fs_family ("/layouts" +:+ "/" +:+ file)
               = false ∧
               layout_file file name) ∧
      (∀ L, layouts Tables.family_table !! name = Some L →
            layout_fullName L = name ∧
            ∃ file, file ∈ files ∧
                    isDirectory Inputs.fs_family
                                ("/layouts" +:+ "/" +:+ file) = false ∧
                    layout_file file name ∧
                    layout_path L = "/layouts" +:+ "/" +:+ file).
Proof.
  apply (getLayoutsData_layouts Inputs.fs_family "/layouts"
           (layouts Tables.family_table)).
  vm_compute. reflexivity.
Defined.

Lemma links_are_mutual_witness :
  (∃ cp, components Tables.family_table !! 0%nat = Some cp ∧
         1%nat ∈ children cp) ↔
  (∃ cc, components Tables.family_table !! 1%nat = Some cc ∧
         0%nat ∈ parents cc).
Proof.
  exact (links_are_mutual Example.constants Example.localeCompare
           Example.array_sort Inputs.fs_family 100 Tables.family_table
           family_table_built 0%nat 1%nat).
Defined.

Lemma getFurthestChild_in_built_table_witness :
  ∃ d, getFurthestChild Example.equals Example.compareTo
                        (components Tables.family_table) 0%nat
       = Ret (Some d).
Proof.
  apply (getFurthestChild_in_built_table Example.constants
           Example.localeCompare Example.array_sort Inputs.fs_family
           Example.equals Example.compareTo 100 Tables.family_table
           family_table_built).
  - intros r. apply Nat.eqb_refl.
  - apply example_compareTo_returns.
Defined.

(** The configuration is served from the cache while the file keeps the
    time 100 it had at the first call. *)
Lemma getConfigurations_reloads_when_newer_witness :
  ∃ application',
    getConfigurations ExampleConf.conf_constants (ExampleConf.fs Found.conf)
                      (ExampleConf.host 100 VNull) ∅
    = (Ret (AppValue Found.conf), application') ∧
    (100 ≤ 100 →
     getConfigurations ExampleConf.conf_constants (ExampleConf.fs VNull)
                       (ExampleConf.host 100 VNull) application'
     = (Ret (AppValue Found.conf), application')) ∧
    (100 > 100 →
     ∀ conf',
       require (ExampleConf.fs VNull) (FILE_UUF_CONF ExampleConf.conf_constants)
       = Some conf' →
       (getConfigurations ExampleConf.conf_constants (ExampleConf.fs VNull)
                          (ExampleConf.host 100 VNull) application').1
       = Ret (AppValue conf')).
Proof.
  apply (getConfigurations_reloads_when_newer ExampleConf.conf_constants
           (ExampleConf.fs Found.conf) (ExampleConf.fs VNull)
           (ExampleConf.host 100 VNull) (ExampleConf.host 100 VNull)
           ∅ Found.conf 100 100).
  - discriminate.
  - reflexivity.
  - vm_compute. reflexivity.
  - vm_compute. reflexivity.
  - reflexivity.
  - reflexivity.
  - vm_compute. reflexivity.
  - reflexivity.
Defined.

Lemma getAppConfigurations_reloads_when_newer_witness :
  ∃ application',
    getAppConfigurations ExampleConf.conf_constants (ExampleConf.fs Found.conf)
                         (ExampleConf.host 100 Found.app_conf) ∅
    = (Ret (AppValue Found.app_conf), application') ∧
    (100 ≤ 100 →
     getAppConfigurations ExampleConf.conf_constants (ExampleConf.fs Found.conf)
                          (ExampleConf.host 100 VNull) application'
     = (Ret (AppValue Found.app_conf), application')) ∧
    (100 > 100 →
     ∀ content' appConf',
       readAll (ExampleConf.host 100 VNull)
               (FILE_APP_CONF ExampleConf.conf_constants) = Some content' →
       parse (ExampleConf.host 100 VNull)
         (replace_all (ExampleConf.host 100 VNull) "${server.https_port}"
            (getProperty (ExampleConf.host 100 VNull) "carbon.https.port")
            (replace_all (ExampleConf.host 100 VNull) "${server.http_port}"
               (getProperty (ExampleConf.host 100 VNull) "carbon.http.port")
               (replace_all (ExampleConf.host 100 VNull) "${server.ip}"
                  (getProperty (ExampleConf.host 100 VNull) "carbon.local.ip")
                  content')))
       = Some appConf' →
       (getAppConfigurations ExampleConf.conf_constants (ExampleConf.fs Found.conf)
                             (ExampleConf.host 100 VNull) application').1
       = Ret (AppValue appConf')).
Proof.
  apply (getAppConfigurations_reloads_when_newer ExampleConf.conf_constants
           (ExampleConf.fs Found.conf) (ExampleConf.fs Found.conf)
           (ExampleConf.host 100 Found.app_conf) (ExampleConf.host 100 VNull)
           ∅ "{}" Found.app_conf 100 100).
  - discriminate.
  - reflexivity.
  - vm_compute. reflexivity.
  - reflexivity.
  - reflexivity.
  - reflexivity.
  - reflexivity.
  - vm_compute. reflexivity.
  - reflexivity.
Defined.

(** Without the configuration file the call throws and the store stays
    empty. *)
Lemma configurations_error_keeps_cache_witness :
  (getConfigurations ExampleConf.conf_constants (Example.mkfs [])
                     (ExampleConf.host 100 VNull) ∅).2 = ∅.
Proof.
  apply (proj1 (configurations_error_keeps_cache ExampleConf.conf_constants
                  (Example.mkfs []) (ExampleConf.host 100 VNull) ∅
                  (HostError
                     ("Unified UI framework configurations file '"
                      +:+ FILE_UUF_CONF ExampleConf.conf_constants
                      +:+ "' does not exists.")))).
  vm_compute. reflexivity.
Defined.

Lemma alice_logged_in :
  setCurrentUser ExampleConf.conf_constants (ExampleConf.fs Found.conf)
                 (ExampleConf.host 100 Found.app_conf)
                 (VStr "alice") (VStr "carbon.super") (VNum 1) ∅ ∅
  = (Ret tt, Found.alice_login.1.2, Found.alice_login.2).
Proof. vm_compute. reflexivity. Qed.

Lemma getCurrentUser_after_setCurrentUser_witness :
  ∃ user,
    Found.alice_login.2 !! CACHE_KEY_USER ExampleConf.conf_constants = Some user ∧
    get_prop user "username" = VStr "alice" ∧
    get_prop user "domain" = VStr "carbon.super" ∧
    get_prop user "tenantId" = VNum 1 ∧
    getCurrentUser ExampleConf.conf_constants Found.alice_login.2
    = (if truthy (VStr "alice") then user else VNull).
Proof.
  exact (getCurrentUser_after_setCurrentUser ExampleConf.conf_constants
           (ExampleConf.fs Found.conf) (ExampleConf.host 100 Found.app_conf)
           (VStr "alice") (VStr "carbon.super") (VNum 1) ∅ ∅
           Found.alice_login.1.2 Found.alice_login.2 alice_logged_in).
Defined.

Lemma setCurrentUser_permissions_witness :
  ∃ getAllowedUIResources appConf permissions user,
    UserManager (ExampleConf.host 100 Found.app_conf) (VNum 1)
    = Some getAllowedUIResources ∧
    getAppConfigurations ExampleConf.conf_constants (ExampleConf.fs Found.conf)
                         (ExampleConf.host 100 Found.app_conf) ∅
    = (Ret appConf, Found.alice_login.1.2) ∧
    let conf :=
      match appConf with AppValue conf => conf | AppTable _ => VRec [] end in
    let root :=
      get_prop conf (APP_CONF_PERMISSION_ROOT ExampleConf.conf_constants) in
    getAllowedUIResources (VStr "alice")
      (if truthy root then root else VStr "/") = Some permissions ∧
    Found.alice_login.2 !! CACHE_KEY_USER ExampleConf.conf_constants = Some user ∧
    ∀ k,
      (hasOwnProperty (get_prop user "permissions") k = true ↔
       k ∈ to_string <$> permissions) ∧
      (k ∈ to_string <$> permissions →
       get_prop (get_prop user "permissions") k = VStr "ui-execute").
Proof.
  exact (setCurrentUser_permissions ExampleConf.conf_constants
           (ExampleConf.fs Found.conf) (ExampleConf.host 100 Found.app_conf)
           (VStr "alice") (VStr "carbon.super") (VNum 1) ∅ ∅
           Found.alice_login.1.2 Found.alice_login.2 alice_logged_in).
Defined.
